(** * l0ss-client: compression engines and preview engine

    A shallow embedding of the parts of the repository that its
    specification talks about:

    - [src/compression/csv.js]      (CSV engine, all three tiers),
    - [src/compression/json.js]     (JSON engine on parsed values),
    - [src/compression/html-css.js] (HTML and CSS engines),
    - [src/compression/sql.js]      (SQL engine),
    - [src/compression/xml-yaml.js] (XML and YAML engines),
    - [src/utils/preview.js]        (preview / recommendation engine),
    - [src/compression/javascript.js], [src/compression/svg.js] and
      [src/compression/text.js] (the minimal tier of each).

    Conventions of the embedding.

    - A JavaScript string is the list of its UTF-16 code units ([jstr]);
      [String.length] is the length of that list, and the size of a
      [Blob] built from the string is the length of its UTF-8 encoding
      ([utf8_length]).
    - A JavaScript number is [NaN], an infinity or an exact rational
      ([jsnum]); the rounding of binary64 arithmetic is not modelled.
    - An object literal pushed on the operation log is the ordered list
      of its fields ([Operation]); an absent field is an absent entry.
    - The options object is a finite map from option names to values.
    - An engine returns [inl e] when the JavaScript code throws [e]. *)

From Stdlib Require Import ZArith NArith QArith Qabs Qround List Ascii String Bool Lia.
From Stdlib Require Import DecimalString.
From stdpp Require Import base option list gmap strings.
From Equations Require Import Equations.
Import ListNotations.

Set Default Proof Using "Type".
Local Open Scope N_scope.

(** ** JavaScript strings *)

Module JS.

Definition jstr : Type := list N.

(** A source literal made of ASCII characters only. *)
Definition lit (s : string) : jstr :=
  map N_of_ascii (list_ascii_of_string s).

Definition str_eqb (a b : jstr) : bool :=
  if decide (a = b) then true else false.

Lemma str_eqb_eq a b : str_eqb a b = true <-> a = b.
Proof. unfold str_eqb. destruct (decide (a = b)); split; congruence. Qed.

(** WhiteSpace and LineTerminator code units, the set used by
    [String.prototype.trim], by [\s] and by [parseFloat]. *)
Definition is_ws (c : N) : bool :=
  (9 <=? c) && (c <=? 13) || (c =? 32) || (c =? 160) || (c =? 5760)
  || (8192 <=? c) && (c <=? 8202) || (c =? 8232) || (c =? 8233)
  || (c =? 8239) || (c =? 8287) || (c =? 12288) || (c =? 65279).

Definition is_line_terminator (c : N) : bool :=
  (c =? 10) || (c =? 13) || (c =? 8232) || (c =? 8233).

Definition is_digit (c : N) : bool := (48 <=? c) && (c <=? 57).
Definition is_upper (c : N) : bool := (65 <=? c) && (c <=? 90).
Definition is_lower (c : N) : bool := (97 <=? c) && (c <=? 122).
Definition is_word (c : N) : bool :=
  is_digit c || is_upper c || is_lower c || (c =? 95).

Fixpoint trimStart (s : jstr) : jstr :=
  match s with
  | c :: s' => if is_ws c then trimStart s' else s
  | [] => []
  end.

Definition trimEnd (s : jstr) : jstr := rev (trimStart (rev s)).

Definition trim (s : jstr) : jstr := trimEnd (trimStart s).

(** [s.split(c)] for a one-character separator: never empty. *)
Fixpoint split (sep : N) (s : jstr) : list jstr :=
  match s with
  | [] => [[]]
  | c :: s' =>
      if c =? sep then [] :: split sep s'
      else match split sep s' with
           | f :: fs => (c :: f) :: fs
           | [] => [[c]]
           end
  end.

(** [a.join(sep)]. *)
Fixpoint join (sep : jstr) (l : list jstr) : jstr :=
  match l with
  | [] => []
  | [x] => x
  | x :: l' => x ++ sep ++ join sep l'
  end.

Fixpoint startsWith (p s : jstr) : bool :=
  match p, s with
  | [], _ => true
  | a :: p', b :: s' => (a =? b) && startsWith p' s'
  | _ :: _, [] => false
  end.

(** [s.substring(0, n)]. *)
Definition substring0 (n : nat) (s : jstr) : jstr := firstn n s.

Definition lower_char (c : N) : N := if is_upper c then c + 32 else c.
Definition upper_char (c : N) : N := if is_lower c then c - 32 else c.

(** [toLowerCase] on the ASCII range; the engines only compare the
    result with ASCII keywords. *)
Definition toLowerCase (s : jstr) : jstr := map lower_char s.

(** The default order of [Array.prototype.sort]: code units, shorter
    prefix first. *)
Fixpoint str_ltb (a b : jstr) : bool :=
  match a, b with
  | [], [] => false
  | [], _ :: _ => true
  | _ :: _, [] => false
  | x :: a', y :: b' => (x <? y) || ((x =? y) && str_ltb a' b')
  end.

(** Size in bytes of a [Blob] holding the string: the length of its
    UTF-8 encoding, a surrogate pair taking four bytes and a lone
    surrogate the three bytes of U+FFFD. *)
Definition is_high_surrogate (c : N) : bool := (55296 <=? c) && (c <=? 56319).
Definition is_low_surrogate (c : N) : bool := (56320 <=? c) && (c <=? 57343).

Fixpoint utf8_length (s : jstr) : N :=
  match s with
  | [] => 0
  | c :: s' =>
      if c <? 128 then 1 + utf8_length s'
      else if c <? 2048 then 2 + utf8_length s'
      else if is_high_surrogate c then
        match s' with
        | d :: s'' => if is_low_surrogate d then 4 + utf8_length s''
                      else 3 + utf8_length s'
        | [] => 3
        end
      else 3 + utf8_length s'
  end.

Definition strlen (s : jstr) : N := N.of_nat (length s).

(** Decimal digits of a natural number. *)
Definition digits_of_N (n : N) : jstr :=
  lit (NilZero.string_of_uint (N.to_uint n)).

End JS.
Export JS.

(** ** JavaScript numbers *)

Module Num.

Inductive jsnum :=
| NaN
| Inf (neg : bool)
| Fin (q : Q).

Definition Qltb (a b : Q) : bool := negb (Qle_bool b a).

Definition isNaN (x : jsnum) : bool :=
  match x with NaN => true | _ => false end.

(** [x > y], [x >= y], [x <= y] against a finite [y]; every comparison
    with [NaN] is false. *)
Definition gt (x : jsnum) (y : Q) : bool :=
  match x with
  | NaN => false
  | Inf neg => negb neg
  | Fin q => Qltb y q
  end.

Definition ge (x : jsnum) (y : Q) : bool :=
  match x with
  | NaN => false
  | Inf neg => negb neg
  | Fin q => Qle_bool y q
  end.

Definition sub (x y : jsnum) : jsnum :=
  match x, y with
  | NaN, _ | _, NaN => NaN
  | Inf a, Inf b => if Bool.eqb a b then NaN else Inf a
  | Inf a, Fin _ => Inf a
  | Fin _, Inf b => Inf (negb b)
  | Fin p, Fin q => Fin (Qred (p - q))
  end.

Definition add (x y : jsnum) : jsnum :=
  match x, y with
  | NaN, _ | _, NaN => NaN
  | Inf a, Inf b => if Bool.eqb a b then Inf a else NaN
  | Inf a, Fin _ => Inf a
  | Fin _, Inf b => Inf b
  | Fin p, Fin q => Fin (Qred (p + q))
  end.

Definition abs (x : jsnum) : jsnum :=
  match x with
  | NaN => NaN
  | Inf _ => Inf false
  | Fin q => Fin (Qabs q)
  end.

(** [x || 0]: zero and [NaN] are falsy. *)
Definition or_zero (x : jsnum) : jsnum :=
  match x with
  | NaN => Fin 0
  | Fin q => if Qeq_bool q 0 then Fin 0 else x
  | _ => x
  end.

(** [x < y] *)
Definition ltb (x y : jsnum) : bool :=
  match x, y with
  | NaN, _ | _, NaN => false
  | Inf a, Inf b => a && negb b
  | Inf a, Fin _ => a
  | Fin _, Inf b => negb b
  | Fin p, Fin q => Qltb p q
  end.

Definition mul (x y : jsnum) : jsnum :=
  match x, y with
  | Fin p, Fin q => Fin (Qred (p * q))
  | NaN, _ | _, NaN => NaN
  | Inf a, Inf b => Inf (xorb a b)
  | Inf a, Fin q | Fin q, Inf a =>
      if Qeq_bool q 0 then NaN else Inf (xorb a (Qltb q 0))
  end.

(** [x / n] for a positive count [n] *)
Definition div_count (x : jsnum) (n : nat) : jsnum :=
  match x with
  | Fin q => Fin (Qred (q / inject_Z (Z.of_nat n)))
  | _ => x
  end.

Definition of_nat (n : nat) : jsnum := Fin (inject_Z (Z.of_nat n)).

(** ToIntegerOrInfinity followed by the clamping of [substring(0, x)]
    on a string of length [len]. *)
Definition substring_end (x : jsnum) (len : nat) : nat :=
  match x with
  | NaN => 0%nat
  | Inf neg => if neg then 0%nat else len
  | Fin q => Nat.min (Z.to_nat (Qfloor q)) len
  end.

(** ToIntegerOrInfinity followed by the resolution of the end index of
    [slice(0, x)] on an array of length [len]. *)
Definition slice_end (x : jsnum) (len : nat) : nat :=
  match x with
  | NaN => 0%nat
  | Inf neg => if neg then 0%nat else len
  | Fin q =>
      if Qltb q 0 then Z.to_nat (Z.of_nat len - Qfloor (Qabs q))
      else Nat.min (Z.to_nat (Qfloor q)) len
  end.

(** [i % x === 0] for an index [i] *)
Definition rem_is_zero (i : nat) (x : jsnum) : bool :=
  match x with
  | NaN => false
  | Inf _ => (i =? 0)%nat
  | Fin q =>
      if Qeq_bool q 0 then false
      else
        let r := Qred (inject_Z (Z.of_nat i) / q) in
        Pos.eqb (Qden r) 1
  end.

Definition pow10 (n : nat) : Z := (10 ^ Z.of_nat n)%Z.

(** The value [m * 10^e]. *)
Definition Q_of_dec (m e : Z) : Q :=
  if (0 <=? e)%Z then inject_Z (m * 10 ^ e)
  else Qred (Qmake m (Z.to_pos (10 ^ (- e)))).

Fixpoint span_digits (s : jstr) : jstr * jstr :=
  match s with
  | c :: s' =>
      if is_digit c then let (d, r) := span_digits s' in (c :: d, r)
      else ([], s)
  | [] => ([], [])
  end.

Definition N_of_digits (d : jstr) : N :=
  fold_left (fun acc c => 10 * acc + (c - 48)) d 0.

(** The ExponentPart after the mantissa, when it is complete. *)
Definition parse_exponent (s : jstr) : Z :=
  match s with
  | c :: s' =>
      if (c =? 101) || (c =? 69) then
        let '(neg, s'') :=
          match s' with
          | 43 :: t => (false, t)
          | 45 :: t => (true, t)
          | _ => (false, s')
          end in
        let (d, _) := span_digits s'' in
        match d with
        | [] => 0%Z
        | _ => if neg then (- Z.of_N (N_of_digits d))%Z
               else Z.of_N (N_of_digits d)
        end
      else 0%Z
  | [] => 0%Z
  end.

(** [parseFloat(s)]: leading white space is skipped, then the longest
    prefix that is a StrDecimalLiteral is read. *)
Definition parseFloat (s : jstr) : jsnum :=
  let s0 := trimStart s in
  let '(neg, s1) :=
    match s0 with
    | 43 :: t => (false, t)
    | 45 :: t => (true, t)
    | _ => (false, s0)
    end in
  if startsWith (lit "Infinity") s1 then Inf neg
  else
    let (ip, r1) := span_digits s1 in
    let '(fp, r2, ok) :=
      match r1 with
      | 46 :: t =>
          let (fp, r2) := span_digits t in
          match ip, fp with
          | [], [] => ([], r1, false)
          | _, _ => (fp, r2, true)
          end
      | _ => ([], r1, match ip with [] => false | _ => true end)
      end in
    if ok then
      let m := Z.of_N (N_of_digits (ip ++ fp)) in
      let e := (parse_exponent r2 - Z.of_nat (length fp))%Z in
      Fin (Q_of_dec (if neg then - m else m) e)
    else NaN.

Fixpoint strip_trailing_zeros_rev (r : jstr) : jstr :=
  match r with
  | 48 :: r' => strip_trailing_zeros_rev r'
  | _ => r
  end.

Definition strip_trailing_zeros (s : jstr) : jstr :=
  rev (strip_trailing_zeros_rev (rev s)).

(** Least [k <= fuel] with [a * 10^k] divisible by [b]. *)
Fixpoint decimal_scale (fuel : nat) (a : Z) (b : Z) (k : nat) : option nat :=
  if (a mod b =? 0)%Z then Some k
  else match fuel with
       | O => None
       | S f => decimal_scale f (a * 10) b (S k)
       end.

Definition Z_digits (z : Z) : jstr := digits_of_N (Z.to_N z).

(** Number::toString for a positive value given by its significant
    digits [s] (no trailing zero) and the position [n] of the decimal
    point: the value is [0.s * 10^n]. *)
Definition format_digits (s : jstr) (n : Z) : jstr :=
  let k := Z.of_nat (length s) in
  if (k <=? n)%Z && (n <=? 21)%Z then
    s ++ repeat 48 (Z.to_nat (n - k))
  else if (0 <? n)%Z && (n <=? 21)%Z then
    firstn (Z.to_nat n) s ++ [46] ++ skipn (Z.to_nat n) s
  else if (-6 <? n)%Z && (n <=? 0)%Z then
    lit "0." ++ repeat 48 (Z.to_nat (- n)) ++ s
  else
    let e := (n - 1)%Z in
    let es := (if (e <? 0)%Z then [45] else [43]) ++ Z_digits (Z.abs e) in
    match s with
    | [d] => [d] ++ [101] ++ es
    | d :: ds => [d] ++ [46] ++ ds ++ [101] ++ es
    | [] => []
    end.

(** Significant digits and decimal-point position of a positive
    rational.  A rational with a finite decimal expansion is printed
    exactly; any other one is cut to 17 significant digits (such values
    are never printed by the engines: they print parsed decimals). *)
Definition decimal_digits (q : Q) : jstr * Z :=
  let q' := Qred (Qabs q) in
  let a := Qnum q' in
  let b := Zpos (Qden q') in
  match decimal_scale (Pos.size_nat (Qden q')) a b 0 with
  | Some k =>
      let s0 := Z_digits (a * pow10 k / b) in
      (strip_trailing_zeros s0, (Z.of_nat (length s0) - Z.of_nat k)%Z)
  | None =>
      let n := (Z.log2 a - Z.log2 b)%Z in
      let p := (17 - (n * 3 / 10))%Z in
      let s0 := Z_digits (if (0 <=? p)%Z then a * 10 ^ p / b
                          else a / (b * 10 ^ (- p))) in
      (strip_trailing_zeros (firstn 17 s0), (Z.of_nat (length s0) - p)%Z)
  end.

Definition Number_toString (x : jsnum) : jstr :=
  match x with
  | NaN => lit "NaN"
  | Inf neg => (if neg then [45] else []) ++ lit "Infinity"
  | Fin q =>
      if Qeq_bool q 0 then lit "0"
      else
        let (s, n) := decimal_digits q in
        (if Qltb q 0 then [45] else []) ++ format_digits s n
  end.

(** [x.toFixed(d)]: the nearest multiple of [10^-d], the larger one in
    magnitude on a tie, with exactly [d] fraction digits. *)
Definition toFixed (d : nat) (x : jsnum) : jstr :=
  match x with
  | Fin q =>
      if Qle_bool (inject_Z (pow10 21)) (Qabs q) then Number_toString x
      else
        let n := Qfloor (Qabs q * inject_Z (pow10 d) + (1 # 2)) in
        let m := Z_digits n in
        let m := repeat 48 (S d - length m) ++ m in
        let body :=
          match d with
          | O => m
          | _ => firstn (length m - d) m ++ [46] ++ skipn (length m - d) m
          end in
        (if Qltb q 0 then [45] else []) ++ body
  | _ => Number_toString x
  end.

End Num.
Export Num.

(** ** Values, option maps and the operation log *)

Module Log.

#[local] Unset Elimination Schemes.
Inductive jsval :=
| VNull
| VBool (b : bool)
| VNum (x : jsnum)
| VStr (s : jstr)
| VArr (l : list jsval)
| VObj (l : list (jstr * jsval)).
#[local] Set Elimination Schemes.

Definition VInt (n : Z) : jsval := VNum (Fin (inject_Z n)).
Definition VNat (n : nat) : jsval := VInt (Z.of_nat n).

(** An object literal pushed on the log, field by field. *)
Definition Operation : Type := list (string * jsval).

(** Ghost annotation of a push: the test under which the entry was
    appended.  [Shrunk before after] stands for a test
    [after < before] on two measured lengths, [Counted n] for a test
    [n > 0] on a count, [Unguarded] for a push that no such test
    guards.  The annotation is not part of the JavaScript value;
    [operations] erases it. *)
Inductive evidence :=
| Shrunk (before after : nat)
| Counted (n : jsnum)
| Unguarded.

Definition Entry : Type := Operation * evidence.

Definition counted (n : nat) : evidence :=
  Counted (Fin (inject_Z (Z.of_nat n))).

Fixpoint op_field (name : string) (op : Operation) : option jsval :=
  match op with
  | [] => None
  | (k, v) :: op' => if String.eqb k name then Some v else op_field name op'
  end.

Definition op_type (op : Operation) : jstr :=
  match op_field "type" op with
  | Some (VStr s) => s
  | _ => []
  end.

Definition has_type (t : string) (op : Operation) : bool :=
  str_eqb (op_type op) (lit t).

(** The [customOptions] object. *)
Abbreviation Options := (gmap string jsval).

Definition truthy (v : jsval) : bool :=
  match v with
  | VNull => false
  | VBool b => b
  | VNum NaN => false
  | VNum (Fin q) => negb (Qeq_bool q 0)
  | VNum (Inf _) => true
  | VStr s => match s with [] => false | _ => true end
  | VArr _ | VObj _ => true
  end.

(** [customOptions.k !== false] *)
Definition opt_not_false (o : Options) (k : string) : bool :=
  match o !! k with
  | Some (VBool false) => false
  | _ => true
  end.

(** [customOptions.k] used as a condition *)
Definition opt_truthy (o : Options) (k : string) : bool :=
  match o !! k with
  | Some v => truthy v
  | None => false
  end.

(** [customOptions.k || d] *)
Definition opt_or (o : Options) (k : string) (d : jsval) : jsval :=
  match o !! k with
  | Some v => if truthy v then v else d
  | None => d
  end.

(** ToNumber on the values an option can hold; a string or an array
    used as a number is not modelled and reads as [NaN]. *)
Definition to_number (v : jsval) : jsnum :=
  match v with
  | VBool b => Fin (if b then 1 else 0)
  | VNum x => x
  | _ => NaN
  end.

Definition op4 (type : string) (count : jsval) (reversible : bool)
    (impact : string) : Operation :=
  [("type", VStr (lit type)); ("count", count);
   ("reversible", VBool reversible); ("impact", VStr (lit impact))].

(** [if (after.length < before) operations.push(op)] *)
Definition push_if_shorter (before : nat) (after : jstr) (op : Operation)
    (ops : list Entry) : list Entry :=
  if (length after <? before)%nat
  then ops ++ [(op, Shrunk before (length after))] else ops.

(** A [Map] keyed by strings: entries in insertion order, [set] on a
    present key keeps its place. *)
Fixpoint map_get {V} (k : jstr) (m : list (jstr * V)) : option V :=
  match m with
  | [] => None
  | (k', v) :: m' => if str_eqb k' k then Some v else map_get k m'
  end.

Fixpoint map_set {V} (k : jstr) (v : V) (m : list (jstr * V))
    : list (jstr * V) :=
  match m with
  | [] => [(k, v)]
  | (k', v') :: m' =>
      if str_eqb k' k then (k, v) :: m' else (k', v') :: map_set k v m'
  end.

(** What the code throws. *)
Inductive exn :=
| JsError (msg : jstr)
| JsTypeError (msg : jstr).

Definition exn_message (e : exn) : jstr :=
  match e with JsError m | JsTypeError m => m end.

Record CompressionResult := mkResult {
  compressed : jstr;
  log : list Entry;
  originalSize : N;
  compressedSize : N
}.

(** The field [operations] of the result. *)
Definition operations (r : CompressionResult) : list Operation :=
  map fst (log r).

(** A format engine: content, loss level, options. *)
Definition Engine : Type :=
  jstr -> string -> Options -> exn + CompressionResult.

End Log.
Export Log.

(** ** The CSV engine (csv.js) *)

Module CSV.

Definition comma : N := 44.
Definition newline : N := 10.

Definition fields_of (line : jstr) : list jstr := split comma line.
Definition line_of (fields : list jstr) : jstr := join [comma] fields.

Definition nonblank (line : jstr) : bool :=
  match trim line with [] => false | _ => true end.

Definition count_if {A} (p : A -> bool) (l : list A) : nat :=
  length (filter (fun x => p x = true) l).

(** [Array.from(new Set(l))]: first occurrences, in order. *)
Fixpoint uniq (seen : list jstr) (l : list jstr) : list jstr :=
  match l with
  | [] => []
  | x :: l' =>
      if existsb (str_eqb x) seen then uniq seen l'
      else x :: uniq (x :: seen) l'
  end.

(** [a[i] = v] on an array of strings; a hole left by writing past the
    end reads as the empty string once the row is joined. *)
Definition array_set (i : nat) (v : jstr) (a : list jstr) : list jstr :=
  if (i <? length a)%nat then <[i := v]> a
  else a ++ repeat [] (i - length a) ++ [v].

(** [parseFloat(a[i])], [parseFloat(undefined)] being [NaN]. *)
Definition parse_at (a : list jstr) (i : nat) : jsnum :=
  match a !! i with
  | Some f => parseFloat f
  | None => NaN
  end.

(** [a[i] ? a[i].trim() : ''] *)
Definition trimmed_at (a : list jstr) (i : nat) : jstr :=
  match a !! i with
  | Some (c :: f) => trim (c :: f)
  | _ => []
  end.

Definition all_fields_empty (line : jstr) : bool :=
  forallb (fun f => str_eqb (trim f) []) (fields_of line).

Definition trim_line (line : jstr) : jstr :=
  line_of (map trim (fields_of line)).

Definition changed_by_trim (f : jstr) : bool := negb (str_eqb (trim f) f).

(** [applyMinimalCSVCompression] *)
Definition applyMinimalCSVCompression
    (header : jstr) (dataLines : list jstr) (ops : list Entry)
    (customOptions : Options) : jstr * list jstr * list Entry :=
  let '(dataLines, ops) :=
    if opt_not_false customOptions "removeEmptyRows" then
      let originalCount := length dataLines in
      let kept := filter (fun l => all_fields_empty l = false) dataLines in
      if (length kept <? originalCount)%nat then
        (kept, ops ++ [([("type", VStr (lit "remove_empty_rows"));
                        ("count", VNat (originalCount - length kept));
                        ("reversible", VBool false);
                        ("impact", VStr (lit "low"))], Shrunk originalCount (length kept))])
      else (kept, ops)
    else (dataLines, ops) in
  let trimmedCount :=
    list_sum (map (fun l => count_if changed_by_trim (fields_of l)) dataLines) in
  let dataLines := map trim_line dataLines in
  let ops :=
    if (0 <? trimmedCount)%nat then
      ops ++ [([("type", VStr (lit "trim_fields"));
               ("count", VNat trimmedCount);
               ("reversible", VBool false);
               ("impact", VStr (lit "low"))], counted trimmedCount)]
    else ops in
  (header, dataLines, ops).

(** *** Delta encoding *)

(** The scan of one column in [applyDeltaEncoding]: [Some hasVariance]
    when every row holds a number, [None] as soon as one does not. *)
Fixpoint scan_column (colIndex : nat) (lines : list jstr)
    (prevValue : option jsnum) (hasVariance : bool) : option bool :=
  match lines with
  | [] => Some hasVariance
  | line :: rest =>
      let fields := fields_of line in
      let num := parse_at fields colIndex in
      let blank :=
        match fields !! colIndex with
        | Some value => str_eqb (trim value) []
        | None => true
        end in
      if isNaN num || blank then None
      else
        let hv :=
          match prevValue with
          | Some p => if gt (abs (sub num p)) (1 # 100) then true else hasVariance
          | None => hasVariance
          end in
        scan_column colIndex rest (Some num) hv
  end.

Definition delta_columns (numColumns : nat) (dataLines : list jstr) : list nat :=
  filter (fun c => scan_column c dataLines None false = Some true)
         (seq 0 numColumns).

(** The header suffix of a delta-encoded column, exactly as the source
    file spells it: an opening parenthesis, U+00CE, U+201D and a
    closing parenthesis. *)
Definition delta_suffix : jstr := [40; 206; 8221; 41].

Definition delta_cell (rowIndex : nat) (prevLine : option jstr)
    (colIndex : nat) (fields : list jstr) : list jstr :=
  let currentValue := parse_at fields colIndex in
  match rowIndex, prevLine with
  | S _, Some prev =>
      let prevValue := parse_at (fields_of prev) colIndex in
      let delta := sub currentValue prevValue in
      array_set colIndex
        ((if ge delta 0 then [43] else []) ++ toFixed 2 delta) fields
  | _, _ => array_set colIndex (Number_toString currentValue) fields
  end.

Definition delta_line (dataLines : list jstr) (numericColumns : list nat)
    (rowIndex : nat) (line : jstr) : jstr :=
  line_of
    (fold_left
       (fun fields colIndex =>
          delta_cell rowIndex (dataLines !! (rowIndex - 1)%nat) colIndex fields)
       numericColumns (fields_of line)).

Definition mark_header (suffix : jstr) (cols : list nat) (header : jstr) : jstr :=
  line_of
    (imap (fun index field =>
             if existsb (Nat.eqb index) cols then field ++ suffix else field)
          (fields_of header)).

(** [applyDeltaEncoding]: header, rows and number of encoded columns. *)
Definition applyDeltaEncoding (header : jstr) (dataLines : list jstr)
    : jstr * list jstr * nat :=
  if (length dataLines <? 2)%nat then (header, dataLines, 0%nat)
  else
    let numColumns := length (fields_of header) in
    let numericColumns := delta_columns numColumns dataLines in
    match numericColumns with
    | [] => (header, dataLines, 0%nat)
    | _ =>
        (mark_header delta_suffix numericColumns header,
         imap (delta_line dataLines numericColumns) dataLines,
         length numericColumns)
    end.

(** *** Dictionary encoding *)

Definition column_values (colIndex : nat) (dataLines : list jstr) : list jstr :=
  map (fun line => trimmed_at (fields_of line) colIndex) dataLines.

Definition is_numeric_column (values : list jstr) : bool :=
  forallb (fun v => str_eqb v [] || negb (isNaN (parseFloat v))) values.

Definition repetition_rate (values : list jstr) : Q :=
  Qmake (Z.of_nat (length (uniq [] values))) (Pos.of_nat (length values)).

Definition has_repetition (values : list jstr) : bool :=
  let u := length (uniq [] values) in
  (3 <=? u)%nat && (u <? length values)%nat
  && Qltb (repetition_rate values) (8 # 10).

Definition dictionary_columns (numColumns : nat) (dataLines : list jstr)
    : list nat :=
  filter (fun c =>
            let values := column_values c dataLines in
            (negb (is_numeric_column values) && has_repetition values) = true)
         (seq 0 numColumns).

(** [Array.prototype.sort()] with the default comparison. *)
Fixpoint insert_sorted (x : jstr) (l : list jstr) : list jstr :=
  match l with
  | [] => [x]
  | y :: l' => if str_ltb y x then y :: insert_sorted x l' else x :: l
  end.

Definition sort_strings (l : list jstr) : list jstr :=
  fold_right insert_sorted [] l.

(** The [reverseDictionary] of a column: code [i] stands for the
    [i]-th unique value in sorted order. *)
Definition reverseDictionary (colIndex : nat) (dataLines : list jstr)
    : list jstr :=
  sort_strings (uniq [] (column_values colIndex dataLines)).

(** [dictionary[value]] *)
Fixpoint code_of (value : jstr) (sorted : list jstr) : option nat :=
  match sorted with
  | [] => None
  | v :: rest =>
      if str_eqb v value then Some 0%nat
      else option_map S (code_of value rest)
  end.

Definition encode_cell (dataLines : list jstr) (fields : list jstr)
    (colIndex : nat) : list jstr :=
  let value := trimmed_at fields colIndex in
  if str_eqb value (lit "__proto__") then
    (* the key names the prototype of the plain object [dictionary] *)
    array_set colIndex (lit "[object Object]") fields
  else
    match code_of value (reverseDictionary colIndex dataLines) with
    | Some code => array_set colIndex (digits_of_N (N.of_nat code)) fields
    | None => fields
    end.

Definition encode_line (dataLines : list jstr) (cols : list nat)
    (line : jstr) : jstr :=
  line_of (fold_left (encode_cell dataLines) cols (fields_of line)).

Definition dictionary_suffix : jstr := lit "(D)".

Definition Qsum (l : list Q) : Q := fold_left Qplus l 0%Q.

(** [applyDictionaryEncoding]: header, rows, number of encoded columns
    and the [compressionRatio] figure. *)
Definition applyDictionaryEncoding (header : jstr) (dataLines : list jstr)
    : jstr * list jstr * nat * jsnum :=
  if (length dataLines <? 2)%nat then (header, dataLines, 0%nat, Fin 0)
  else
    let numColumns := length (fields_of header) in
    let cols := dictionary_columns numColumns dataLines in
    match cols with
    | [] => (header, dataLines, 0%nat, Fin 0)
    | _ =>
        let rates :=
          map (fun c => repetition_rate (column_values c dataLines)) cols in
        let avg :=
          (Qsum rates / inject_Z (Z.of_nat (length cols)) * 100)%Q in
        (mark_header dictionary_suffix cols header,
         map (encode_line dataLines cols) dataLines,
         length cols,
         parseFloat (toFixed 1 (Fin avg)))
    end.

(** *** The moderate tier *)

Definition round_field (field : jstr) : jstr * bool :=
  let num := parseFloat field in
  if negb (isNaN num) && negb (str_eqb (trim field) [])
  then (toFixed 2 num, true) else (field, false).

Definition round_line (line : jstr) : jstr :=
  line_of (map (fun f => fst (round_field f)) (fields_of line)).

Definition rounded_in (line : jstr) : nat :=
  count_if (fun f => snd (round_field f)) (fields_of line).

(** The set of trimmed non-empty values of a column. *)
Definition distinct_values (colIndex : nat) (dataLines : list jstr)
    : list jstr :=
  uniq []
    (omap (fun line =>
             match fields_of line !! colIndex with
             | Some (c :: f) => Some (trim (c :: f))
             | _ => None
             end) dataLines).

Definition select_columns (cols : list nat) (line : jstr) : jstr :=
  let fields := fields_of line in
  line_of (map (fun i => default [] (fields !! i)) cols).

Definition truncate_field (maxLength : jsnum) (field : jstr) : jstr * bool :=
  if isNaN (parseFloat field) && ltb maxLength (of_nat (length field))
  then (substring0 (substring_end maxLength (length field)) field ++ lit "...",
        true)
  else (field, false).

Definition concat_str (parts : list jstr) : jstr := concat parts.

(** [applyModerateCSVCompression] *)
Definition applyModerateCSVCompression
    (header : jstr) (dataLines : list jstr) (ops : list Entry)
    (customOptions : Options) : jstr * list jstr * list Entry :=
  let '(header, dataLines, ops) :=
    applyMinimalCSVCompression header dataLines ops customOptions in
  (* Deduplicate rows *)
  let '(dataLines, ops) :=
    if opt_not_false customOptions "deduplicateRows" then
      let originalCount := length dataLines in
      let u := uniq [] dataLines in
      if (length u <? originalCount)%nat then
        (u, ops ++ [([("type", VStr (lit "deduplicate_rows"));
                     ("count", VNat (originalCount - length u));
                     ("reversible", VBool false);
                     ("impact", VStr (lit "medium"))], Shrunk originalCount (length u))])
      else (u, ops)
    else (dataLines, ops) in
  (* Round numeric values *)
  let '(dataLines, ops) :=
    if opt_not_false customOptions "roundNumbers" then
      let roundedCount := list_sum (map rounded_in dataLines) in
      let rounded := map round_line dataLines in
      if (0 <? roundedCount)%nat then
        (rounded, ops ++ [([("type", VStr (lit "round_numbers"));
                           ("decimals", VInt 2);
                           ("count", VNat roundedCount);
                           ("reversible", VBool false);
                           ("impact", VStr (lit "medium"))], counted roundedCount)])
      else (rounded, ops)
    else (dataLines, ops) in
  (* Delta encoding *)
  let '(header, dataLines, ops) :=
    if opt_not_false customOptions "deltaEncoding"
       && (1 <? length dataLines)%nat then
      let '(h, d, count) := applyDeltaEncoding header dataLines in
      if (0 <? count)%nat then
        (h, d, ops ++ [([("type", VStr (lit "delta_encoding"));
                        ("columns", VNat count);
                        ("reversible", VBool true);
                        ("impact", VStr (lit "medium"));
                        ("description",
                         VStr (concat_str
                                 [lit "Applied delta encoding to ";
                                  digits_of_N (N.of_nat count);
                                  lit " numeric column(s)"]))], counted count)])
      else (header, dataLines, ops)
    else (header, dataLines, ops) in
  (* Dictionary encoding *)
  let '(header, dataLines, ops) :=
    if opt_not_false customOptions "dictionaryEncoding"
       && (1 <? length dataLines)%nat then
      let '(h, d, count, ratio) := applyDictionaryEncoding header dataLines in
      if (0 <? count)%nat then
        (h, d, ops ++ [([("type", VStr (lit "dictionary_encoding"));
                        ("columns", VNat count);
                        ("unique_values_saved", VNum ratio);
                        ("reversible", VBool true);
                        ("impact", VStr (lit "medium"));
                        ("description",
                         VStr (concat_str
                                 [lit "Applied dictionary encoding to ";
                                  digits_of_N (N.of_nat count);
                                  lit " string column(s)"]))], counted count)])
      else (header, dataLines, ops)
    else (header, dataLines, ops) in
  (* Remove low-variance columns *)
  let '(dataLines, ops) :=
    match dataLines with
    | first :: _ =>
        if opt_not_false customOptions "removeLowVarianceColumns" then
          let width := length (fields_of first) in
          let columnsToKeep :=
            filter (fun c => (1 <? length (distinct_values c dataLines))%nat = true)
                   (seq 0 width) in
          if (length columnsToKeep <? width)%nat then
            (map (select_columns columnsToKeep) dataLines,
             ops ++ [([("type", VStr (lit "remove_low_variance_columns"));
                      ("count", VNat (width - length columnsToKeep));
                      ("reversible", VBool false);
                      ("impact", VStr (lit "medium"))], Shrunk width (length columnsToKeep))])
          else (dataLines, ops)
        else (dataLines, ops)
    | [] => (dataLines, ops)
    end in
  (* Truncate long text fields *)
  let '(dataLines, ops) :=
    if opt_not_false customOptions "truncateText" then
      let maxLength := opt_or customOptions "maxTextLength" (VInt 50) in
      let cut := truncate_field (to_number maxLength) in
      let truncatedCount :=
        list_sum (map (fun l => count_if (fun f => snd (cut f)) (fields_of l))
                      dataLines) in
      let truncated :=
        map (fun l => line_of (map (fun f => fst (cut f)) (fields_of l)))
            dataLines in
      if (0 <? truncatedCount)%nat then
        (truncated, ops ++ [([("type", VStr (lit "truncate_long_text"));
                             ("maxLength", maxLength);
                             ("count", VNat truncatedCount);
                             ("reversible", VBool false);
                             ("impact", VStr (lit "medium"))], counted truncatedCount)])
      else (truncated, ops)
    else (dataLines, ops) in
  (header, dataLines, ops).

(** *** The aggressive tier *)

Definition filter_index {A} (p : nat -> bool) (l : list A) : list A :=
  map snd (filter (fun x => p (fst x) = true) (imap pair l)).

(** The array index named by a property key, if it is one. *)
Definition index_of_key (v : jsval) : option nat :=
  match v with
  | VNum (Fin q) =>
      if Qle_bool 0 q && Pos.eqb (Qden (Qred q)) 1
      then Some (Z.to_nat (Qnum (Qred q))) else None
  | VStr s =>
      match s with
      | [] => None
      | c :: _ =>
          if forallb is_digit s && (negb (c =? 48) || (length s =? 1)%nat)
          then Some (N.to_nat (N_of_digits s)) else None
      end
  | _ => None
  end.

(** [detectNumericColumns] *)
Definition detectNumericColumns (dataLines : list jstr) : list nat :=
  match dataLines with
  | [] => []
  | first :: _ =>
      let sampleSize := Nat.min 10 (length dataLines) in
      filter (fun colIndex =>
                let numericCount :=
                  count_if (fun line =>
                              negb (isNaN (parse_at (fields_of line) colIndex)))
                           (firstn sampleSize dataLines) in
                Qltb (8 # 10)
                     (Qmake (Z.of_nat numericCount) (Pos.of_nat sampleSize))
                = true)
             (seq 0 (length (fields_of first)))
  end.

(** [Math.abs(value - mean) <= 2 * Math.sqrt(variance)], decided on
    the squares. *)
Definition within_two_sigma (value mean variance : jsnum) : bool :=
  match abs (sub value mean), variance with
  | Fin d, Fin v => Qle_bool (d * d) (4 * v)
  | Fin _, Inf false | Inf _, Inf false => true
  | _, _ => false
  end.

Definition remove_outliers_in (colIndex : nat)
    (st : list jstr * list Entry) : list jstr * list Entry :=
  let '(dataLines, ops) := st in
  let values :=
    filter (fun v => isNaN v = false)
           (map (fun line => parse_at (fields_of line) colIndex) dataLines) in
  if (length values <? 5)%nat then st
  else
    let mean := div_count (fold_left add values (Fin 0)) (length values) in
    let variance :=
      div_count
        (fold_left (fun sq n => add sq (mul (sub n mean) (sub n mean)))
                   values (Fin 0))
        (length values) in
    let originalCount := length dataLines in
    let kept :=
      filter (fun line =>
                let value := parse_at (fields_of line) colIndex in
                (isNaN value || within_two_sigma value mean variance) = true)
             dataLines in
    if (length kept <? originalCount)%nat then
      (kept, ops ++ [([("type", VStr (lit "remove_outliers"));
                      ("column", VNat colIndex);
                      ("count", VNat (originalCount - length kept));
                      ("reversible", VBool false);
                      ("impact", VStr (lit "high"))], Shrunk originalCount (length kept))])
    else (kept, ops).

(** [applyAggressiveCSVCompression] *)
Definition applyAggressiveCSVCompression
    (header : jstr) (dataLines : list jstr) (ops : list Entry)
    (customOptions : Options) : exn + jstr * list jstr * list Entry :=
  let '(header, dataLines, ops) :=
    applyModerateCSVCompression header dataLines ops customOptions in
  (* Keep only first N columns *)
  let '(dataLines, ops) :=
    match dataLines with
    | first :: _ =>
        if opt_truthy customOptions "keepFirstNColumns" then
          let maxColumns := opt_or customOptions "maxColumns" (VInt 5) in
          let width := length (fields_of first) in
          if ltb (to_number maxColumns) (of_nat width) then
            (map (fun line =>
                    let fields := fields_of line in
                    line_of (firstn (slice_end (to_number maxColumns)
                                               (length fields)) fields))
                 dataLines,
             ops ++ [([("type", VStr (lit "keep_first_n_columns"));
                      ("maxColumns", maxColumns);
                      ("removed", VNum (sub (of_nat width) (to_number maxColumns)));
                      ("reversible", VBool false);
                      ("impact", VStr (lit "high"))], Counted (sub (of_nat width) (to_number maxColumns)))])
          else (dataLines, ops)
        else (dataLines, ops)
    | [] => (dataLines, ops)
    end in
  (* Sample rows *)
  let '(dataLines, ops) :=
    if opt_truthy customOptions "sampleRows" && (10 <? length dataLines)%nat then
      let originalCount := length dataLines in
      let sampleRate := opt_or customOptions "sampleRate" (VInt 5) in
      let sampled :=
        filter_index (fun index => rem_is_zero index (to_number sampleRate))
                     dataLines in
      if (length sampled <? originalCount)%nat then
        (sampled, ops ++ [([("type", VStr (lit "sample_rows"));
                           ("sampleRate", sampleRate);
                           ("original", VNat originalCount);
                           ("sampled", VNat (length sampled));
                           ("reversible", VBool false);
                           ("impact", VStr (lit "high"))], Shrunk originalCount (length sampled))])
      else (sampled, ops)
    else (dataLines, ops) in
  (* Remove non-essential columns *)
  let non_essential : exn + list jstr * list Entry :=
    if opt_truthy customOptions "removeNonEssentialColumns"
       && opt_truthy customOptions "essentialColumnIndices" then
      match dataLines with
      | [] =>
          inl (JsTypeError
                 (lit "Cannot read properties of undefined (reading 'split')"))
      | first :: _ =>
          match customOptions !! "essentialColumnIndices" with
          | Some (VArr keepIndices) =>
              inr (map (fun line =>
                          let fields := fields_of line in
                          line_of
                            (map (fun i =>
                                    default [] (index_of_key i ≫= (fields !!.)))
                                 keepIndices))
                       dataLines,
                   ops ++ [([("type", VStr (lit "remove_non_essential_columns"));
                            ("kept", VNat (length keepIndices));
                            ("removed",
                             VInt (Z.of_nat (length (fields_of first))
                                   - Z.of_nat (length keepIndices)));
                            ("reversible", VBool false);
                            ("impact", VStr (lit "high"))], Unguarded)])
          | _ => inl (JsTypeError (lit "keepIndices.map is not a function"))
          end
      end
    else inr (dataLines, ops) in
  match non_essential with
  | inl e => inl e
  | inr (dataLines, ops) =>
      (* Remove statistical outliers *)
      let '(dataLines, ops) :=
        if opt_truthy customOptions "removeOutliers" then
          fold_left (fun st colIndex => remove_outliers_in colIndex st)
                    (detectNumericColumns dataLines) (dataLines, ops)
        else (dataLines, ops) in
      (* Statistical sampling *)
      let '(dataLines, ops) :=
        if opt_truthy customOptions "statisticalSampling"
           && (100 <? length dataLines)%nat then
          let originalCount := length dataLines in
          let sampleSize := Nat.max 50 (originalCount * 3 / 10) in
          let step := (originalCount / sampleSize)%nat in
          let sampled :=
            filter_index (fun index => (index mod step =? 0)%nat) dataLines in
          (sampled, ops ++ [([("type", VStr (lit "statistical_sampling"));
                             ("original", VNat originalCount);
                             ("sampled", VNat (length sampled));
                             ("reversible", VBool false);
                             ("impact", VStr (lit "high"))], Unguarded)])
        else (dataLines, ops) in
      inr (header, dataLines, ops)
  end.

(** [compressCSV] *)
Definition compressCSV : Engine := fun content lossLevel customOptions =>
  let lines := filter (fun line => nonblank line = true) (split newline content) in
  match lines with
  | [] => inl (JsError (lit "Empty CSV file"))
  | header :: dataLines =>
      let originalSize := strlen content in
      let result : exn + jstr * list jstr * list Entry :=
        if String.eqb lossLevel "minimal" then
          inr (applyMinimalCSVCompression header dataLines [] customOptions)
        else if String.eqb lossLevel "moderate" then
          inr (applyModerateCSVCompression header dataLines [] customOptions)
        else if String.eqb lossLevel "aggressive" then
          applyAggressiveCSVCompression header dataLines [] customOptions
        else inl (JsError (lit "Invalid loss level")) in
      match result with
      | inl e => inl e
      | inr (header, dataLines, operations) =>
          let compressed := join [newline] (header :: dataLines) in
          inr {| compressed := compressed;
                 log := operations;
                 originalSize := originalSize;
                 compressedSize := strlen compressed |}
      end
  end.

End CSV.

(** ** The JSON engine (json.js) *)

Module JSON.

(** *** Objects

    A parsed JSON object is the list of its members in property order:
    array-index keys first, in increasing order, then the other keys in
    insertion order.  Plain objects that the engine uses as maps
    ([keyFrequency], [keyMap]) follow the same discipline; keys that
    name a member of [Object.prototype] are not given their special
    behaviour. *)

Definition array_index (k : jstr) : option N :=
  match k with
  | [] => None
  | c :: _ =>
      if forallb is_digit k && (negb (c =? 48) || (length k =? 1)%nat)
         && (N_of_digits k <? 4294967295)
      then Some (N_of_digits k) else None
  end.

Section Objects.
Context {V : Type}.

Fixpoint obj_get (k : jstr) (o : list (jstr * V)) : option V :=
  match o with
  | [] => None
  | (k', v) :: o' => if str_eqb k' k then Some v else obj_get k o'
  end.

Fixpoint obj_delete (k : jstr) (o : list (jstr * V)) : list (jstr * V) :=
  match o with
  | [] => []
  | (k', v) :: o' => if str_eqb k' k then o' else (k', v) :: obj_delete k o'
  end.

Fixpoint obj_replace (k : jstr) (v : V) (o : list (jstr * V))
    : list (jstr * V) :=
  match o with
  | [] => []
  | (k', v') :: o' =>
      if str_eqb k' k then (k, v) :: o' else (k', v') :: obj_replace k v o'
  end.

(** A new array-index key goes before the first larger index and
    before every other key. *)
Fixpoint obj_insert_index (n : N) (k : jstr) (v : V) (o : list (jstr * V))
    : list (jstr * V) :=
  match o with
  | [] => [(k, v)]
  | (k', v') :: o' =>
      match array_index k' with
      | Some m => if m <? n then (k', v') :: obj_insert_index n k v o'
                  else (k, v) :: o
      | None => (k, v) :: o
      end
  end.

(** [o[k] = v] *)
Definition obj_set (k : jstr) (v : V) (o : list (jstr * V))
    : list (jstr * V) :=
  match obj_get k o with
  | Some _ => obj_replace k v o
  | None =>
      match array_index k with
      | Some n => obj_insert_index n k v o
      | None => o ++ [(k, v)]
      end
  end.

End Objects.

Definition is_object (v : jsval) : bool :=
  match v with VArr _ | VObj _ => true | _ => false end.

(** *** JSON.stringify *)

Definition hex_digit (n : N) : N := if n <? 10 then 48 + n else 87 + n.

Definition quote_char (c : N) : jstr :=
  if c =? 34 then [92; 34]
  else if c =? 92 then [92; 92]
  else if c =? 8 then [92; 98]
  else if c =? 12 then [92; 102]
  else if c =? 10 then [92; 110]
  else if c =? 13 then [92; 114]
  else if c =? 9 then [92; 116]
  else if (c <? 32) || is_high_surrogate c || is_low_surrogate c then
    [92; 117; hex_digit (c / 4096); hex_digit (c / 256 mod 16);
     hex_digit (c / 16 mod 16); hex_digit (c mod 16)]
  else [c].

(** QuoteJSONString; a well-formed surrogate pair is copied. *)
Fixpoint quote_body (s : jstr) : jstr :=
  match s with
  | [] => []
  | c :: s' =>
      if is_high_surrogate c then
        match s' with
        | d :: s'' =>
            if is_low_surrogate d then c :: d :: quote_body s''
            else quote_char c ++ quote_body s'
        | [] => quote_char c
        end
      else quote_char c ++ quote_body s'
  end.

Definition quote (s : jstr) : jstr := [34] ++ quote_body s ++ [34].

Fixpoint stringify (v : jsval) : jstr :=
  match v with
  | VNull => lit "null"
  | VBool true => lit "true"
  | VBool false => lit "false"
  | VNum (Fin q) => Number_toString (Fin q)
  | VNum _ => lit "null"
  | VStr s => quote s
  | VArr l =>
      [91] ++ join [44] (map stringify l) ++ [93]
  | VObj o =>
      [123]
      ++ join [44]
           ((fix members (o : list (jstr * jsval)) : list jstr :=
               match o with
               | [] => []
               | (k, x) :: o' => (quote k ++ [58] ++ stringify x) :: members o'
               end) o)
      ++ [125]
  end.

(** *** Rewrites of the value tree

    Each rewrite returns the new tree and what it adds to the shared
    counter. *)

Definition map_count {A} (f : A -> A * nat) (l : list A) : list A * nat :=
  (map (fun x => fst (f x)) l, list_sum (map (fun x => snd (f x)) l)).

(** [removeNulls] *)
Fixpoint removeNulls (v : jsval) : jsval * nat :=
  match v with
  | VArr l =>
      let (l', n) := map_count removeNulls l in (VArr l', n)
  | VObj o =>
      let fix members (o : list (jstr * jsval)) : list (jstr * jsval) * nat :=
        match o with
        | [] => ([], 0%nat)
        | (k, x) :: o' =>
            let (r, n) := members o' in
            match x with
            | VNull => (r, S n)
            | _ => let (x', m) := removeNulls x in ((k, x') :: r, (m + n)%nat)
            end
        end in
      let (o', n) := members o in (VObj o', n)
  | _ => (v, 0%nat)
  end.

Definition is_empty_container (v : jsval) : bool :=
  match v with VArr [] | VObj [] => true | _ => false end.

(** [removeEmpty] *)
Fixpoint removeEmpty (v : jsval) : jsval * nat :=
  match v with
  | VArr l =>
      let (l', n) := map_count removeEmpty l in (VArr l', n)
  | VObj o =>
      let fix members (o : list (jstr * jsval)) : list (jstr * jsval) * nat :=
        match o with
        | [] => ([], 0%nat)
        | (k, x) :: o' =>
            let (r, n) := members o' in
            let (x', m) := removeEmpty x in
            if is_empty_container x' then (r, S (m + n))
            else ((k, x') :: r, (m + n)%nat)
        end in
      let (o', n) := members o in (VObj o', n)
  | _ => (v, 0%nat)
  end.

(** What the four leaf rewrites do to a member or an element. *)
Definition rewrite_leaf (leaf : jsval -> option jsval)
    (rec : jsval -> jsval * nat) (x : jsval) : jsval * nat :=
  match leaf x with
  | Some x' => (x', 1%nat)
  | None => rec x
  end.

Fixpoint rewrite_leaves (leaf : jsval -> option jsval) (v : jsval)
    : jsval * nat :=
  match v with
  | VArr l =>
      let (l', n) := map_count (rewrite_leaf leaf (rewrite_leaves leaf)) l in
      (VArr l', n)
  | VObj o =>
      let fix members (o : list (jstr * jsval)) : list (jstr * jsval) * nat :=
        match o with
        | [] => ([], 0%nat)
        | (k, x) :: o' =>
            let (r, n) := members o' in
            let (x', m) := rewrite_leaf leaf (rewrite_leaves leaf) x in
            ((k, x') :: r, (m + n)%nat)
        end in
      let (o', n) := members o in (VObj o', n)
  | _ => (v, 0%nat)
  end.

(** [trimStrings] *)
Definition trimStrings : jsval -> jsval * nat :=
  rewrite_leaves (fun x =>
    match x with
    | VStr s => if str_eqb (trim s) s then None else Some (VStr (trim s))
    | _ => None
    end).

Definition is_integer (x : jsnum) : bool :=
  match x with
  | Fin q => Pos.eqb (Qden (Qred q)) 1
  | _ => false
  end.

(** [roundNumbers] *)
Definition roundNumbers (decimals : nat) : jsval -> jsval * nat :=
  rewrite_leaves (fun x =>
    match x with
    | VNum n =>
        if is_integer n then None
        else Some (VNum (parseFloat (toFixed decimals n)))
    | _ => None
    end).

(** [truncateStrings] *)
Definition truncateStrings (maxLength : nat) : jsval -> jsval * nat :=
  rewrite_leaves (fun x =>
    match x with
    | VStr s =>
        if (maxLength <? length s)%nat
        then Some (VStr (substring0 maxLength s ++ lit "..."))
        else None
    | _ => None
    end).

(** [generateShortKey] *)
Definition chars : jstr :=
  lit "0123456789abcdefghijklmnopqrstuvwxyzABCDEFGHIJKLMNOPQRSTUVWXYZ".

(** [chars[i]] appended to a string *)
Definition char_at (i : N) : jstr :=
  match chars !! N.to_nat i with
  | Some c => [c]
  | None => []
  end.

(** The [do ... while (remaining > 0)] loop: the characters it appends
    to [result]. *)
Equations? counter_digits (remaining : N) : jstr
  by wf (N.to_nat remaining) lt :=
  counter_digits remaining with N.eq_dec (remaining / 62) 0 => {
    | left _ := char_at (remaining mod 62);
    | right _ := char_at (remaining mod 62) ++ counter_digits (remaining / 62) }.
Proof.
  assert (remaining / 62 < remaining).
  { apply N.div_lt; [ | lia ].
    destruct (N.eq_dec remaining 0) as [-> | ]; [ | lia ].
    exfalso; apply n; reflexivity. }
  lia.
Qed.

Definition generateShortKey (index : N) : jstr :=
  if index <? N.of_nat (length chars) then char_at index
  else
    let extraIndex := index - N.of_nat (length chars) in
    [124] ++ counter_digits extraIndex.

(** [collectKeyFrequencies]; the accumulator is the object
    [frequencies]. *)
Fixpoint collectKeyFrequencies (v : jsval) (frequencies : list (jstr * nat))
    : list (jstr * nat) :=
  match v with
  | VArr l =>
      fold_left
        (fun fr item =>
           if is_object item then collectKeyFrequencies item fr else fr)
        l frequencies
  | VObj o =>
      (fix members (o : list (jstr * jsval)) (fr : list (jstr * nat)) :=
         match o with
         | [] => fr
         | (key, x) :: o' =>
             let fr := obj_set key (S (default 0%nat (obj_get key fr))) fr in
             let fr := if is_object x then collectKeyFrequencies x fr else fr in
             members o' fr
         end) o frequencies
  | _ => frequencies
  end.

(** The comparison passed to [sort]: frequency descending, then key
    length descending. *)
Definition sorts_before (a b : jstr * nat) : bool :=
  (snd b <? snd a)%nat
  || ((snd a =? snd b)%nat && (length (fst b) <? length (fst a))%nat).

Fixpoint insert_entry (x : jstr * nat) (l : list (jstr * nat))
    : list (jstr * nat) :=
  match l with
  | [] => [x]
  | y :: l' => if sorts_before y x then y :: insert_entry x l' else x :: l
  end.

(** [Array.prototype.sort] is stable. *)
Definition sort_entries (l : list (jstr * nat)) : list (jstr * nat) :=
  fold_right insert_entry [] l.

(** The [keyMap] built by the first pass of [shortenKeys]. *)
Definition build_keyMap (data : jsval) : list (jstr * jstr) :=
  let sortedKeys := map fst (sort_entries (collectKeyFrequencies data [])) in
  fold_left (fun keyMap '(index, key) =>
               obj_set key (generateShortKey (N.of_nat index)) keyMap)
            (imap pair sortedKeys) [].

Fixpoint height (v : jsval) : nat :=
  match v with
  | VArr l => S (fold_right (fun x h => Nat.max (height x) h) 0%nat l)
  | VObj o =>
      S ((fix members (o : list (jstr * jsval)) : nat :=
            match o with
            | [] => 0%nat
            | (_, x) :: o' => Nat.max (height x) (members o')
            end) o)
  | _ => 0%nat
  end.

(** The second pass of [shortenKeys], on a value nested at most [depth]
    levels deep.  The members of an object are visited in the order of
    the snapshot [Object.keys(obj)], each visit acting on the object as
    the earlier ones left it. *)
Fixpoint apply_keyMap (depth : nat) (keyMap : list (jstr * jstr)) (v : jsval)
    : jsval :=
  match depth with
  | O => v
  | S d =>
      match v with
      | VArr l =>
          VArr (map (fun item =>
                       if is_object item then apply_keyMap d keyMap item
                       else item) l)
      | VObj o =>
          VObj
            (fold_left
               (fun obj key =>
                  match obj_get key obj with
                  | None => obj
                  | Some x =>
                      let shortKey := default [] (obj_get key keyMap) in
                      if truthy (VStr shortKey)
                         && (length shortKey <? length key)%nat then
                        let obj := obj_delete key (obj_set shortKey x obj) in
                        if is_object x
                        then obj_set shortKey (apply_keyMap d keyMap x) obj
                        else obj
                      else if is_object x
                      then obj_set key (apply_keyMap d keyMap x) obj
                      else obj
                  end)
               (map fst o) o)
      | _ => v
      end
  end.

(** [shortenKeys(data)]: the rewritten tree and the returned [keyMap]. *)
Definition shortenKeys (data : jsval) : jsval * list (jstr * jstr) :=
  let keyMap := build_keyMap data in
  (apply_keyMap (height data) keyMap data, keyMap).

(** First occurrences under [JSON.stringify]. *)
Fixpoint first_by_key {A} (seen : list jstr) (l : list (jstr * A)) : list A :=
  match l with
  | [] => []
  | (k, x) :: l' =>
      if existsb (str_eqb k) seen then first_by_key seen l'
      else x :: first_by_key (k :: seen) l'
  end.

(** [deduplicateArrays] *)
Fixpoint deduplicateArrays (v : jsval) : jsval * nat :=
  match v with
  | VArr l =>
      let unique :=
        first_by_key []
          (map (fun item =>
                  (stringify item,
                   if is_object item then deduplicateArrays item
                   else (item, 0%nat))) l) in
      (VArr (map fst unique),
       (length l - length unique + list_sum (map snd unique))%nat)
  | VObj o =>
      let fix members (o : list (jstr * jsval)) : list (jstr * jsval) * nat :=
        match o with
        | [] => ([], 0%nat)
        | (k, x) :: o' =>
            let (r, n) := members o' in
            let (x', m) :=
              if is_object x then deduplicateArrays x else (x, 0%nat) in
            ((k, x') :: r, (m + n)%nat)
        end in
      let (o', n) := members o in (VObj o', n)
  | _ => (v, 0%nat)
  end.

(** [flattenNesting] *)
Fixpoint flattenNesting (maxDepth currentDepth : nat) (v : jsval)
    : jsval * nat :=
  if (maxDepth <=? currentDepth)%nat then (v, 0%nat)
  else
    match v with
    | VArr l =>
        let (l', n) :=
          map_count (fun item =>
                       if is_object item
                       then flattenNesting maxDepth (S currentDepth) item
                       else (item, 0%nat)) l in
        (VArr l', n)
    | VObj o =>
        let fix members (o : list (jstr * jsval)) : list (jstr * jsval) * nat :=
          match o with
          | [] => ([], 0%nat)
          | (k, x) :: o' =>
              let (r, n) := members o' in
              let (x', m) :=
                if is_object x then
                  if (maxDepth - 1 <=? currentDepth)%nat
                  then (VStr (lit "[Flattened]"), 1%nat)
                  else flattenNesting maxDepth (S currentDepth) x
                else (x, 0%nat) in
              ((k, x') :: r, (m + n)%nat)
          end in
        let (o', n) := members o in (VObj o', n)
    | _ => (v, 0%nat)
    end.

(** *** The tiers *)

Definition log_count (type : string) (extra : list (string * jsval))
    (count : nat) (reversible : bool) (impact : string)
    (ops : list Entry) : list Entry :=
  if (0 <? count)%nat then
    ops ++ [([("type", VStr (lit type))] ++ extra
             ++ [("count", VNat count); ("reversible", VBool reversible);
                 ("impact", VStr (lit impact))],
             counted count)]
  else ops.

(** [applyMinimalCompression] *)
Definition applyMinimalCompression (data : jsval) (ops : list Entry)
    (customOptions : Options) : jsval * list Entry :=
  let '(data, ops) :=
    if opt_not_false customOptions "removeNulls" then
      let (data, nullCount) := removeNulls data in
      (data, log_count "remove_nulls" [] nullCount true "low" ops)
    else (data, ops) in
  let (data, emptyCount) := removeEmpty data in
  let ops := log_count "remove_empty" [] emptyCount true "low" ops in
  let (data, trimCount) := trimStrings data in
  let ops := log_count "trim_strings" [] trimCount false "low" ops in
  (data, ops).

(** [applyModerateCompression] *)
Definition applyModerateCompression (data : jsval) (ops : list Entry)
    (customOptions : Options) : jsval * list Entry :=
  let '(data, ops) := applyMinimalCompression data ops customOptions in
  let '(data, ops) :=
    if opt_not_false customOptions "shortenKeys" then
      let (data, keyMap) := shortenKeys data in
      (data,
       if (0 <? length keyMap)%nat then
         ops ++ [([("type", VStr (lit "shorten_keys"));
                  ("count", VNat (length keyMap));
                  ("reversible", VBool true);
                  ("impact", VStr (lit "medium"))], counted (length keyMap))]
       else ops)
    else (data, ops) in
  let (data, roundedCount) := roundNumbers 2 data in
  let ops :=
    log_count "round_numbers" [("decimals", VInt 2)] roundedCount false
              "medium" ops in
  let (data, dedupeCount) := deduplicateArrays data in
  let ops := log_count "deduplicate_arrays" [] dedupeCount false "medium" ops in
  (data, ops).

(** [applyAggressiveCompression] *)
Definition applyAggressiveCompression (data : jsval) (ops : list Entry)
    (customOptions : Options) : jsval * list Entry :=
  let '(data, ops) := applyModerateCompression data ops customOptions in
  let '(data, ops) :=
    if opt_not_false customOptions "truncateStrings" then
      let (data, truncated) := truncateStrings 100 data in
      (data,
       log_count "truncate_strings" [("maxLength", VInt 100)] truncated false
                 "high" ops)
    else (data, ops) in
  let '(data, ops) :=
    if opt_truthy customOptions "flattenNesting" then
      let (data, flattened) := flattenNesting 3 0 data in
      (data,
       log_count "flatten_nesting" [("maxDepth", VInt 3)] flattened false
                 "high" ops)
    else (data, ops) in
  let (data, roundedToInt) := roundNumbers 0 data in
  let ops := log_count "round_to_integers" [] roundedToInt false "high" ops in
  (data, ops).

(** The deep clone [JSON.parse(JSON.stringify(data))]: numbers that are
    not finite come back as [null]. *)
Fixpoint clone (v : jsval) : jsval :=
  match v with
  | VNum (Fin q) => v
  | VNum _ => VNull
  | VArr l => VArr (map clone l)
  | VObj o =>
      VObj ((fix members (o : list (jstr * jsval)) :=
               match o with
               | [] => []
               | (k, x) :: o' => (k, clone x) :: members o'
               end) o)
  | _ => v
  end.

(** [compressJSON] on a [content] that is already a value (the branch
    [typeof content !== 'string']). *)
Definition compressJSON (content : jsval) (lossLevel : string)
    (customOptions : Options) : exn + CompressionResult :=
  let originalContent := stringify content in
  let data := clone content in
  let result : exn + jsval * list Entry :=
    if String.eqb lossLevel "minimal" then
      inr (applyMinimalCompression data [] customOptions)
    else if String.eqb lossLevel "moderate" then
      inr (applyModerateCompression data [] customOptions)
    else if String.eqb lossLevel "aggressive" then
      inr (applyAggressiveCompression data [] customOptions)
    else inl (JsError (lit "Invalid loss level")) in
  match result with
  | inl e => inl e
  | inr (data, operations) =>
      let result := stringify data in
      inr {| compressed := result;
             log := operations;
             originalSize := strlen originalContent;
             compressedSize := strlen result |}
  end.

End JSON.

(** ** Regular expressions

    A backtracking matcher for the fragment of ECMAScript regular
    expressions that the engines use, with the flags [i] and [m], and
    the global forms of [String.prototype.replace], [RegExp.prototype.exec]
    and [String.prototype.split] built on it. *)

Module Regex.

Inductive re :=
| Eps
| Chr (c : N)
| Cls (invert : bool) (p : N -> bool)
| Seq (r1 r2 : re)
| Alt (r1 r2 : re)
| Star (greedy : bool) (r : re)
| Grp (i : nat) (r : re)
| Ref (i : nat)
| Bol
| Eol
| Wordb
| Ahead (negative : bool) (r : re).

Record flags := mkFlags { ignoreCase : bool; multiline : bool }.

(** The character before the current position, the input from the
    current position on, and the captures so far. *)
Record state := mkState {
  prev : option N;
  rest : jstr;
  caps : list (nat * jstr)
}.

Fixpoint lookup_capture (i : nat) (l : list (nat * jstr)) : jstr :=
  match l with
  | [] => []
  | (j, s) :: l' => if Nat.eqb j i then s else lookup_capture i l'
  end.

(** The text of group [i]; a group that did not take part reads as the
    empty string, in a back-reference and in a replacement alike. *)
Definition capture (i : nat) (st : state) : jstr := lookup_capture i (caps st).

Definition set_capture (i : nat) (s : jstr) (st : state) : state :=
  {| prev := prev st; rest := rest st;
     caps := (i, s) :: caps st |}.

Fixpoint groups_of (r : re) : list nat :=
  match r with
  | Seq a b | Alt a b => groups_of a ++ groups_of b
  | Star _ a | Ahead _ a => groups_of a
  | Grp i a => i :: groups_of a
  | _ => []
  end.

Definition clear_captures (gs : list nat) (st : state) : state :=
  {| prev := prev st; rest := rest st;
     caps := filter (fun x => negb (existsb (Nat.eqb (fst x)) gs) = true)
                    (caps st) |}.

(** Canonicalize, on the ASCII range. *)
Definition same_char (f : flags) (a b : N) : bool :=
  if ignoreCase f then upper_char a =? upper_char b else a =? b.

Definition in_class (f : flags) (p : N -> bool) (c : N) : bool :=
  p c || (ignoreCase f && (p (lower_char c) || p (upper_char c))).

Definition advance (c : N) (st : state) (s : jstr) : state :=
  {| prev := Some c; rest := s; caps := caps st |}.

Fixpoint match_text (f : flags) (t : jstr) (st : state) : option state :=
  match t with
  | [] => Some st
  | a :: t' =>
      match rest st with
      | b :: s => if same_char f a b then match_text f t' (advance b st s)
                  else None
      | [] => None
      end
  end.

Definition at_word (c : option N) : bool :=
  match c with Some x => is_word x | None => false end.

Fixpoint run (f : flags) (r : re) (st : state) (k : state -> option state)
    {struct r} : option state :=
  match r with
  | Eps => k st
  | Chr c =>
      match rest st with
      | x :: s => if same_char f c x then k (advance x st s) else None
      | [] => None
      end
  | Cls invert p =>
      match rest st with
      | x :: s => if xorb invert (in_class f p x) then k (advance x st s)
                  else None
      | [] => None
      end
  | Seq a b => run f a st (fun st' => run f b st' k)
  | Alt a b =>
      match run f a st k with
      | Some x => Some x
      | None => run f b st k
      end
  | Star greedy a =>
      let gs := groups_of a in
      (fix loop (n : nat) (st : state) {struct n} : option state :=
         match n with
         | O => k st
         | S n' =>
             let again :=
               run f a (clear_captures gs st)
                   (fun st' =>
                      if (length (rest st') <? length (rest st))%nat
                      then loop n' st' else None) in
             if greedy then
               match again with
               | Some x => Some x
               | None => k st
               end
             else
               match k st with
               | Some x => Some x
               | None => again
               end
         end) (S (length (rest st))) st
  | Grp i a =>
      run f a st
          (fun st' =>
             k (set_capture i
                  (firstn (length (rest st) - length (rest st')) (rest st))
                  st'))
  | Ref i =>
      match match_text f (capture i st) st with
      | Some st' => k st'
      | None => None
      end
  | Bol =>
      match prev st with
      | None => k st
      | Some c => if multiline f && is_line_terminator c then k st else None
      end
  | Eol =>
      match rest st with
      | [] => k st
      | c :: _ => if multiline f && is_line_terminator c then k st else None
      end
  | Wordb =>
      if xorb (at_word (prev st)) (at_word (head (rest st))) then k st
      else None
  | Ahead negative a =>
      match run f a st Some with
      | Some st' =>
          if negative then None
          else k {| prev := prev st; rest := rest st; caps := caps st' |}
      | None => if negative then k st else None
      end
  end.

(** One attempt at the current position: the matched text and the
    captures. *)
Definition match_here (f : flags) (r : re) (p : option N) (s : jstr)
    : option (jstr * (nat -> jstr)) :=
  match run f r {| prev := p; rest := s; caps := [] |} Some with
  | Some st =>
      Some (firstn (length s - length (rest st)) s, fun i => capture i st)
  | None => None
  end.

(** All the matches of a global regular expression, left to right; each
    with the unmatched text before it.  The last component is the text
    after the last match. *)
Fixpoint scan (f : flags) (r : re) (p : option N) (s : jstr) (skip : nat)
    (pending : jstr) : list (jstr * jstr * (nat -> jstr)) * jstr :=
  match skip with
  | S skip' =>
      match s with
      | c :: s' => scan f r (Some c) s' skip' pending
      | [] => ([], rev pending)
      end
  | O =>
      match match_here f r p s with
      | Some (m, g) =>
          match s with
          | c :: s' =>
              let '(ms, tail) :=
                match m with
                | [] => scan f r (Some c) s' 0 [c]
                | _ => scan f r (Some c) s' (length m - 1) []
                end in
              ((rev pending, m, g) :: ms, tail)
          | [] => ([(rev pending, m, g)], [])
          end
      | None =>
          match s with
          | c :: s' => scan f r (Some c) s' 0 (c :: pending)
          | [] => ([], rev pending)
          end
      end
  end.

Definition matches (f : flags) (r : re) (s : jstr)
    : list (jstr * jstr * (nat -> jstr)) * jstr :=
  scan f r None s 0 [].

(** [s.replace(/r/g, fn)] *)
Definition replace_with (f : flags) (r : re)
    (fn : jstr -> (nat -> jstr) -> jstr) (s : jstr) : jstr :=
  let '(ms, tail) := matches f r s in
  concat (map (fun '(before, m, g) => before ++ fn m g) ms) ++ tail.

(** A replacement string: text and [$n] references. *)
Inductive piece := T (s : string) | Raw (s : jstr) | G (i : nat).

Definition expand (tpl : list piece) (g : nat -> jstr) : jstr :=
  concat (map (fun x =>
                 match x with
                 | T s => lit s
                 | Raw s => s
                 | G i => g i
                 end) tpl).

(** [s.replace(/r/g, 'template')] *)
Definition replace (f : flags) (r : re) (tpl : list piece) (s : jstr) : jstr :=
  replace_with f r (fun _ g => expand tpl g) s.

(** [s.replace(/r/, 'template')] without the flag [g]: the first match
    only. *)
Definition replace_first (f : flags) (r : re) (tpl : list piece) (s : jstr)
    : jstr :=
  match fst (matches f r s) with
  | (before, m, g) :: _ =>
      before ++ expand tpl g ++ skipn (length before + length m) s
  | [] => s
  end.

(** The captures of the successive [exec] calls of a loop
    [while ((match = r.exec(s)) !== null)] whose matches are not empty. *)
Definition exec_all (f : flags) (r : re) (s : jstr) : list (nat -> jstr) :=
  map (fun '(_, _, g) => g) (fst (matches f r s)).

Definition count_matches (f : flags) (r : re) (s : jstr) : nat :=
  length (fst (matches f r s)).

(** [s.split(/r/)] for a regular expression without capture that does
    not match the empty string. *)
Definition split_re (f : flags) (r : re) (s : jstr) : list jstr :=
  let '(ms, tail) := matches f r s in
  map (fun '(before, _, _) => before) ms ++ [tail].

(** *** Notation for patterns *)

Fixpoint seq_of (l : list re) : re :=
  match l with
  | [] => Eps
  | [r] => r
  | r :: l' => Seq r (seq_of l')
  end.

Fixpoint alt_of (l : list re) : re :=
  match l with
  | [] => Eps
  | [r] => r
  | r :: l' => Alt r (alt_of l')
  end.

Definition text_of (s : jstr) : re := seq_of (map Chr s).
Definition text (s : string) : re := text_of (lit s).
Definition star (r : re) : re := Star true r.
Definition lazy_star (r : re) : re := Star false r.
Definition plus (r : re) : re := Seq r (Star true r).
Definition opt (r : re) : re := Alt r Eps.

(** [r{n,}] *)
Fixpoint at_least (n : nat) (r : re) : re :=
  match n with
  | O => Star true r
  | S n' => Seq r (at_least n' r)
  end.

Definition one_of (s : string) : N -> bool :=
  fun c => existsb (N.eqb c) (lit s).

Definition set (s : string) : re := Cls false (one_of s).
Definition not_set (s : string) : re := Cls true (one_of s).
Definition space : re := Cls false is_ws.
Definition not_space : re := Cls true is_ws.
Definition word : re := Cls false is_word.
Definition digit : re := Cls false is_digit.
Definition dot : re := Cls true is_line_terminator.
Definition anything : re := Cls false (fun _ => true).
Definition is_alpha (c : N) : bool := is_upper c || is_lower c.
Definition is_hex (c : N) : bool :=
  is_digit c || (97 <=? c) && (c <=? 102).

Definition flags_g : flags := {| ignoreCase := false; multiline := false |}.
Definition flags_gi : flags := {| ignoreCase := true; multiline := false |}.
Definition flags_i : flags := {| ignoreCase := true; multiline := false |}.
Definition flags_gm : flags := {| ignoreCase := false; multiline := true |}.

End Regex.

(** ** The CSS engine (html-css.js) *)

Module CSS.
Import Regex.

(** [/\/\*[\s\S]*?\*\//g] *)
Definition re_comment : re := seq_of [text "/*"; lazy_star anything; text "*/"].

(** [/\s+/g] *)
Definition re_spaces : re := plus space.

(** [/\s*([{}:;,])\s*/g] *)
Definition re_punctuation : re :=
  seq_of [star space; Grp 1 (set "{}:;,"); star space].

(** [applyMinimalCSSCompression] *)
Definition applyMinimalCSSCompression (css : jstr) (ops : list Entry)
    (customOptions : Options) : jstr * list Entry :=
  let minified := css in
  let '(minified, ops) :=
    if opt_not_false customOptions "removeComments" then
      let before := length minified in
      let minified := replace flags_g re_comment [] minified in
      (minified,
       push_if_shorter before minified
         (op4 "remove_css_comments" (VInt 1) false "low") ops)
    else (minified, ops) in
  let before := length minified in
  let minified :=
    trim (replace flags_g re_punctuation [G 1]
            (replace flags_g re_spaces [T " "] minified)) in
  (minified,
   push_if_shorter before minified
     (op4 "remove_whitespace" (VNat (before - length minified)) false "low")
     ops).

(** [/#([0-9a-f])\1([0-9a-f])\2([0-9a-f])\3/gi] *)
Definition re_color : re :=
  seq_of [Chr 35; Grp 1 (Cls false is_hex); Ref 1;
          Grp 2 (Cls false is_hex); Ref 2;
          Grp 3 (Cls false is_hex); Ref 3].

(** [/\b0(px|em|rem|%|vh|vw|ch|ex|cm|mm|in|pt|pc)/g] *)
Definition re_zero_unit : re :=
  seq_of [Wordb; Chr 48;
          Grp 1 (alt_of (map text ["px"; "em"; "rem"; "%"; "vh"; "vw"; "ch";
                                   "ex"; "cm"; "mm"; "in"; "pt"; "pc"]%string))].

(** [(\d+px)] as group [i] *)
Definition px (i : nat) : re := Grp i (seq_of [plus digit; text "px"]).

(** [/P:(\d+px)\s+(\d+px);P-S:(\d+px);/g] for a property [P] and a
    side [S] *)
Definition re_shorthand (property side : string) : re :=
  seq_of [text property; Chr 58; px 1; plus space; px 2; Chr 59;
          text property; Chr 45; text side; Chr 58; px 3; Chr 59].

(** [mergeDuplicateProperties] *)
Definition mergeDuplicateProperties (css : jstr) : jstr :=
  let css := replace flags_g (re_shorthand "margin" "left")
               [T "margin:"; G 1; T " "; G 2; T " "; G 1; T " "; G 3; T ";"]
               css in
  let css := replace flags_g (re_shorthand "margin" "right")
               [T "margin:"; G 1; T " "; G 3; T " "; G 1; T " "; G 2; T ";"]
               css in
  let css := replace flags_g (re_shorthand "padding" "left")
               [T "padding:"; G 1; T " "; G 2; T " "; G 1; T " "; G 3; T ";"]
               css in
  replace flags_g (re_shorthand "padding" "right")
    [T "padding:"; G 1; T " "; G 3; T " "; G 1; T " "; G 2; T ";"] css.

(** [(?=\s*[;}])] *)
Definition before_end : re := Ahead false (seq_of [star space; set ";}"]).

(** [/:\s*(\S+)\s+\1\s+\1\s+\1(?=\s*[;}])/g] *)
Definition re_four_same : re :=
  seq_of [Chr 58; star space; Grp 1 (plus not_space); plus space; Ref 1;
          plus space; Ref 1; plus space; Ref 1; before_end].

(** [/:\s*(\S+)\s+(\S+)\s+\1\s+\2(?=\s*[;}])/g] *)
Definition re_two_pairs : re :=
  seq_of [Chr 58; star space; Grp 1 (plus not_space); plus space;
          Grp 2 (plus not_space); plus space; Ref 1; plus space; Ref 2;
          before_end].

(** [/([^{]+)\{([^}]+)\}/g] *)
Definition re_block : re :=
  seq_of [Grp 1 (plus (not_set "{")); Chr 123; Grp 2 (plus (not_set "}"));
          Chr 125].

Definition block (selector props : jstr) : jstr :=
  selector ++ [123] ++ props ++ [125].

(** [mergeIdenticalSelectors] *)
Definition mergeIdenticalSelectors (css : jstr) : jstr :=
  let selectorMap :=
    fold_left
      (fun m (g : nat -> jstr) =>
         let selector := trim (g 1%nat) in
         let properties := trim (g 2%nat) in
         match map_get selector m with
         | Some old => map_set selector (old ++ [59] ++ properties) m
         | None => map_set selector properties m
         end)
      (exec_all flags_g re_block css) [] in
  let merged := concat (map (fun '(sel, props) => block sel props) selectorMap) in
  if (length merged <? length css)%nat then merged else css.

(** [removeDuplicateProperties] *)
Definition removeDuplicateProperties (css : jstr) : jstr :=
  replace_with flags_g re_block
    (fun _ g =>
       let selector := g 1%nat in
       let properties := g 2%nat in
       let props := filter (fun p => trim p <> []) (split 59 properties) in
       let propMap :=
         fold_left
           (fun m prop =>
              match split 58 prop with
              | (c :: key) :: _ => map_set (trim (c :: key)) (trim prop) m
              | _ => m
              end)
           props [] in
       block selector (join [59] (map snd propMap)))
    css.

(** [applyModerateCSSCompression] *)
Definition applyModerateCSSCompression (css : jstr) (ops : list Entry)
    (customOptions : Options) : jstr * list Entry :=
  let '(minified, ops) := applyMinimalCSSCompression css ops customOptions in
  let beforeColors := length minified in
  let minified := replace flags_gi re_color [T "#"; G 1; G 2; G 3] minified in
  let ops := push_if_shorter beforeColors minified
               (op4 "shorten_color_codes" (VInt 1) true "low") ops in
  let beforeUnits := length minified in
  let minified := replace flags_g re_zero_unit [T "0"] minified in
  let ops := push_if_shorter beforeUnits minified
               (op4 "remove_zero_units" (VInt 1) true "low") ops in
  let beforeMerge := length minified in
  let minified := mergeDuplicateProperties minified in
  let ops := push_if_shorter beforeMerge minified
               (op4 "merge_duplicate_properties" (VInt 1) true "low") ops in
  let beforeShorten := length minified in
  let minified :=
    replace flags_g re_two_pairs [T ":"; G 1; T " "; G 2]
      (replace flags_g re_four_same [T ":"; G 1] minified) in
  let ops := push_if_shorter beforeShorten minified
               (op4 "shorten_repeated_values" (VInt 1) true "low") ops in
  let beforeSelectors := length minified in
  let minified := mergeIdenticalSelectors minified in
  let ops := push_if_shorter beforeSelectors minified
               (op4 "merge_identical_selectors" (VInt 1) true "low") ops in
  let beforeDuplicates := length minified in
  let minified := removeDuplicateProperties minified in
  let ops := push_if_shorter beforeDuplicates minified
               (op4 "remove_duplicate_properties" (VInt 1) false "low") ops in
  (minified, ops).

(** [applyAggressiveCSSCompression] *)
Definition applyAggressiveCSSCompression (css : jstr) (ops : list Entry)
    (customOptions : Options) : jstr * list Entry :=
  let '(minified, ops) := applyModerateCSSCompression css ops customOptions in
  let ops :=
    if opt_truthy customOptions "removeUnused" then
      ops ++ [(op4 "remove_unused_css" (VInt 0) false "high", Unguarded)]
    else ops in
  let ops :=
    if opt_truthy customOptions "mergeDuplicates" then
      ops ++ [(op4 "merge_duplicate_selectors" (VInt 0) false "medium",
               Unguarded)]
    else ops in
  (minified, ops).

(** The [switch (lossLevel)] shared by the text engines. *)
Definition by_level (minimal moderate aggressive :
                       jstr -> list Entry -> Options -> jstr * list Entry)
    : Engine := fun content lossLevel customOptions =>
  let originalSize := strlen content in
  let result : exn + jstr * list Entry :=
    if String.eqb lossLevel "minimal" then
      inr (minimal content [] customOptions)
    else if String.eqb lossLevel "moderate" then
      inr (moderate content [] customOptions)
    else if String.eqb lossLevel "aggressive" then
      inr (aggressive content [] customOptions)
    else inl (JsError (lit "Invalid loss level")) in
  match result with
  | inl e => inl e
  | inr (compressed, operations) =>
      inr {| compressed := compressed;
             log := operations;
             originalSize := originalSize;
             compressedSize := strlen compressed |}
  end.

(** [compressCSS] *)
Definition compressCSS : Engine :=
  by_level applyMinimalCSSCompression applyModerateCSSCompression
           applyAggressiveCSSCompression.

End CSS.

(** ** The HTML engine (html-css.js) *)

Module HTML.
Import Regex.

(** [/<!--[\s\S]*?-->/g] *)
Definition re_comment : re :=
  seq_of [text "<!--"; lazy_star anything; text "-->"].

(** [/>\s+</g] *)
Definition re_between_tags : re := seq_of [Chr 62; plus space; Chr 60].

(** [/\s{2,}/g] *)
Definition re_spaces : re := at_least 2 space.

(** [applyMinimalHTMLCompression] *)
Definition applyMinimalHTMLCompression (html : jstr) (ops : list Entry)
    (customOptions : Options) : jstr * list Entry :=
  let minified := html in
  let '(minified, ops) :=
    if opt_not_false customOptions "removeComments" then
      let before := length minified in
      let minified := replace flags_g re_comment [] minified in
      (minified,
       push_if_shorter before minified
         (op4 "remove_html_comments" (VInt 1) false "low") ops)
    else (minified, ops) in
  let before := length minified in
  let minified :=
    trim (replace flags_g re_spaces [T " "]
            (replace flags_g re_between_tags [T "><"] minified)) in
  (minified,
   push_if_shorter before minified
     (op4 "remove_whitespace" (VNat (before - length minified)) false "low")
     ops).

(** [/<!DOCTYPE\s+html[^>]*>/i] *)
Definition re_doctype : re :=
  seq_of [text "<!DOCTYPE"; plus space; text "html"; star (not_set ">");
          Chr 62].

(** An opening tag name, white space, and the attribute [type] with
    the given value between double quotes; flags [gi]. *)
Definition re_default_type (tag value : string) : re :=
  seq_of [text tag; plus space; text "type="; Chr 34; text value; Chr 34].

Definition boolean_attributes : list string :=
  ["checked"; "disabled"; "selected"; "readonly"; "required"; "autofocus";
   "autoplay"; "controls"; "loop"; "muted"; "default"; "multiple"; "open"].

(** A white-space character, one of the boolean attribute names
    (group 1), an equals sign and any value between two quote
    characters [q]; flag [g]. *)
Definition re_boolean (q : N) : re :=
  seq_of [space; Grp 1 (alt_of (map text boolean_attributes)); Chr 61; Chr q;
          star (Cls true (N.eqb q)); Chr q].

(** The opening of a tag, any characters but [>] (group 1), a
    white-space character and the attribute [type] with the given
    value between double quotes; flags [gi]. *)
Definition re_type_default (tag value : string) : re :=
  seq_of [text tag; Grp 1 (star (not_set ">")); space; text "type="; Chr 34;
          text value; Chr 34].

(** A white-space character, a name of lower-case letters and hyphens
    (group 1), an equals sign and a value of letters, digits and
    hyphens (group 2) between double quotes; flag [g]. *)
Definition re_quoted_value : re :=
  seq_of [space; Grp 1 (plus (Cls false (fun c => is_lower c || (c =? 45))));
          Chr 61; Chr 34;
          Grp 2 (plus (Cls false
                         (fun c => is_alpha c || is_digit c || (c =? 45))));
          Chr 34].

(** The closing tags that are dropped, each with the tag that must
    follow it; the replacement is that following tag. *)
Definition optional_closing_tags : list (string * string) :=
  [("</li>", "<li>"); ("</li>", "</ul>"); ("</li>", "</ol>"); ("</p>", "<p>");
   ("</option>", "<option>"); ("</option>", "</select>"); ("</td>", "<td>");
   ("</td>", "</tr>"); ("</tr>", "<tr>"); ("</th>", "<th>"); ("</dt>", "<dt>");
   ("</dd>", "<dd>")].

(** [/CLOSING\s*NEXT/gi] *)
Definition re_adjacent (closing next : string) : re :=
  seq_of [text closing; star space; text next].

(** [applyModerateHTMLCompression] *)
Definition applyModerateHTMLCompression (html : jstr) (ops : list Entry)
    (customOptions : Options) : jstr * list Entry :=
  let '(minified, ops) := applyMinimalHTMLCompression html ops customOptions in
  let beforeDoctype := length minified in
  let minified := replace_first flags_i re_doctype [T "<!DOCTYPE html>"] minified in
  let ops := push_if_shorter beforeDoctype minified
               (op4 "normalize_doctype" (VInt 1) true "low") ops in
  let beforeType := length minified in
  let minified :=
    replace flags_gi (re_default_type "<style" "text/css") [T "<style"]
      (replace flags_gi (re_default_type "<script" "text/javascript")
         [T "<script"] minified) in
  let ops := push_if_shorter beforeType minified
               (op4 "remove_default_type_attributes" (VInt 1) true "low") ops in
  let beforeBoolean := length minified in
  let minified :=
    replace flags_g (re_boolean 39) [T " "; G 1]
      (replace flags_g (re_boolean 34) [T " "; G 1] minified) in
  let ops := push_if_shorter beforeBoolean minified
               (op4 "collapse_boolean_attributes" (VInt 1) true "low") ops in
  let beforeDefaults := length minified in
  let minified :=
    replace flags_gi (re_type_default "<button" "submit") [T "<button"; G 1]
      (replace flags_gi (re_type_default "<input" "text") [T "<input"; G 1]
         minified) in
  let ops := push_if_shorter beforeDefaults minified
               (op4 "remove_default_attributes" (VInt 1) true "low") ops in
  let beforeQuotes := length minified in
  let minified :=
    replace flags_g re_quoted_value [T " "; G 1; T "="; G 2] minified in
  let ops := push_if_shorter beforeQuotes minified
               (op4 "remove_optional_quotes" (VInt 1) true "low") ops in
  let beforeClosing := length minified in
  let minified :=
    fold_left
      (fun minified '(closing, next) =>
         replace flags_gi (re_adjacent closing next) [T next] minified)
      optional_closing_tags minified in
  let ops := push_if_shorter beforeClosing minified
               (op4 "remove_optional_closing_tags" (VInt 1) true "low") ops in
  (minified, ops).

(** [/<meta[^>]*>/gi] *)
Definition re_meta : re := seq_of [text "<meta"; star (not_set ">"); Chr 62].

(** A script element whose opening tag contains the given word, up to
    the first closing script tag; flags [gi]. *)
Definition re_script_with (w : string) : re :=
  seq_of [text "<script"; star (not_set ">"); text w; star (not_set ">");
          Chr 62; lazy_star anything; text "</script>"].

(** [applyAggressiveHTMLCompression] *)
Definition applyAggressiveHTMLCompression (html : jstr) (ops : list Entry)
    (customOptions : Options) : jstr * list Entry :=
  let '(minified, ops) := applyModerateHTMLCompression html ops customOptions in
  let '(minified, ops) :=
    if opt_truthy customOptions "removeMetadata" then
      let before := length minified in
      let minified := replace flags_gi re_meta [] minified in
      (minified,
       push_if_shorter before minified
         (op4 "remove_meta_tags" (VInt 1) false "medium") ops)
    else (minified, ops) in
  let '(minified, ops) :=
    if opt_truthy customOptions "removeAnalytics" then
      let before := length minified in
      let minified := replace flags_gi (re_script_with "analytics") [] minified in
      let minified := replace flags_gi (re_script_with "gtag") [] minified in
      (minified,
       push_if_shorter before minified
         (op4 "remove_analytics_scripts" (VInt 1) false "medium") ops)
    else (minified, ops) in
  let ops :=
    if opt_truthy customOptions "inlineStyles" then
      ops ++ [(op4 "inline_styles" (VInt 0) false "medium", Unguarded)]
    else ops in
  (minified, ops).

(** [compressHTML] *)
Definition compressHTML : Engine :=
  CSS.by_level applyMinimalHTMLCompression applyModerateHTMLCompression
               applyAggressiveHTMLCompression.

End HTML.

(** ** The SQL engine (sql.js) *)

Module SQL.
Import Regex.

Definition alias_chars : jstr := lit "abcdefghijklmnopqrstuvwxyz".

(** [getShortAlias]: the loop prepends [chars[num % 26]] to [name]. *)
Equations? getShortAlias_loop (num : N) (name : jstr) : jstr
  by wf (N.to_nat num) lt :=
  getShortAlias_loop num name with N.eq_dec (num / 26) 0 => {
    | left _ := default [] ((fun c => [c]) <$> alias_chars !! N.to_nat (num mod 26))
                ++ name;
    | right _ :=
        getShortAlias_loop (num / 26)
          (default [] ((fun c => [c]) <$> alias_chars !! N.to_nat (num mod 26))
           ++ name) }.
Proof.
  assert (num / 26 < num).
  { apply N.div_lt; [ | lia ].
    destruct (N.eq_dec num 0) as [-> | ]; [ | lia ].
    exfalso; apply n; reflexivity. }
  lia.
Qed.

Definition getShortAlias (index : N) : jstr := getShortAlias_loop index [].

(** [/--.*$/gm] *)
Definition re_line_comment : re := seq_of [text "--"; star dot; Eol].

(** [/\/\*[\s\S]*?\*\//g] *)
Definition re_block_comment : re :=
  seq_of [text "/*"; lazy_star anything; text "*/"].

(** [/\s*([(),;])\s*/g] *)
Definition re_delimiter : re :=
  seq_of [star space; Grp 1 (set "(),;"); star space].

(** [applyMinimalSQLCompression] *)
Definition applyMinimalSQLCompression (sql : jstr) (ops : list Entry)
    (customOptions : Options) : jstr * list Entry :=
  let compressed := sql in
  let '(compressed, ops) :=
    if opt_not_false customOptions "removeComments" then
      let before := length compressed in
      let compressed := replace flags_gm re_line_comment [] compressed in
      let compressed := replace flags_g re_block_comment [] compressed in
      (compressed,
       push_if_shorter before compressed
         (op4 "remove_comments" (VInt 1) false "low") ops)
    else (compressed, ops) in
  let before := length compressed in
  let compressed :=
    trim (replace flags_g re_delimiter [G 1]
            (replace flags_g (plus space) [T " "] compressed)) in
  (compressed,
   push_if_shorter before compressed
     (op4 "remove_whitespace" (VNat (before - length compressed)) false "low")
     ops).

Definition keywords : list string :=
  ["SELECT"; "FROM"; "WHERE"; "INSERT"; "UPDATE"; "DELETE"; "CREATE"; "DROP";
   "TABLE"; "DATABASE"; "INDEX"; "VIEW"; "JOIN"; "INNER"; "LEFT"; "RIGHT";
   "ON"; "AND"; "OR"; "NOT"; "NULL"; "AS"; "ORDER"; "BY"; "GROUP"; "HAVING";
   "LIMIT"; "OFFSET"; "DISTINCT"; "COUNT"; "SUM"; "AVG"; "MAX"; "MIN"]%string.

(** [new RegExp(`\\b${w}\\b`, ...)] *)
Definition re_whole_word (w : jstr) : re := seq_of [Wordb; text_of w; Wordb].

(** [/\bEXPLAIN\s+/gi] *)
Definition re_explain : re := seq_of [Wordb; text "EXPLAIN"; plus space].

(** [/\s+AS\s+(ID)/gi], [ID] being a letter or underscore followed by
    word characters *)
Definition re_alias : re :=
  seq_of [plus space; text "AS"; plus space;
          Grp 1 (seq_of [Cls false (fun c => is_alpha c || (c =? 95));
                         star (Cls false is_word)])].

(** [/\b(left|right|full)\s+outer\s+join\b/gi] *)
Definition re_outer_join : re :=
  seq_of [Wordb; Grp 1 (alt_of [text "left"; text "right"; text "full"]);
          plus space; text "outer"; plus space; text "join"; Wordb].

(** [/\bpublic\./gi] *)
Definition re_public : re := seq_of [Wordb; text "public."].

(** [/\s+cascade\b/gi] *)
Definition re_cascade : re := seq_of [plus space; text "cascade"; Wordb].

(** [/insert into\s+(\w+)\s*\([^)]*\)\s*values\s*\(([^)]+)\);insert into\s+\1\s*\([^)]*\)\s*values\s*\(/gi] *)
Definition re_insert_pair : re :=
  seq_of [text "insert into"; plus space; Grp 1 (plus word); star space;
          Chr 40; star (not_set ")"); Chr 41; star space; text "values";
          star space; Chr 40; Grp 2 (plus (not_set ")")); text ");";
          text "insert into"; plus space; Ref 1; star space;
          Chr 40; star (not_set ")"); Chr 41; star space; text "values";
          star space; Chr 40].

(** The [do ... while (compressed.length < previousLength)] loop of the
    INSERT combination; it runs at most once per character. *)
Fixpoint combine_loop (n : nat) (compressed : jstr) (combined : nat)
    : jstr * nat :=
  match n with
  | O => (compressed, combined)
  | S n' =>
      let previousLength := length compressed in
      let combined :=
        (combined + count_matches flags_gi re_insert_pair compressed)%nat in
      let compressed :=
        replace flags_gi re_insert_pair
          [T "insert into "; G 1; T " values("; G 2; T "),("] compressed in
      if (length compressed <? previousLength)%nat
      then combine_loop n' compressed combined
      else (compressed, combined)
  end.

(** [applyModerateSQLCompression] *)
Definition applyModerateSQLCompression (sql : jstr) (ops : list Entry)
    (customOptions : Options) : jstr * list Entry :=
  let '(compressed, ops) := applyMinimalSQLCompression sql ops customOptions in
  (* Lowercase the keywords *)
  let before := length compressed in
  let compressed :=
    fold_left
      (fun compressed keyword =>
         replace_with flags_gi (re_whole_word (lit keyword))
           (fun _ _ => toLowerCase (lit keyword)) compressed)
      keywords compressed in
  let ops :=
    push_if_shorter before compressed
      (op4 "lowercase_keywords" (VNat (length keywords)) true "low") ops in
  (* Remove EXPLAIN *)
  let '(compressed, ops) :=
    if opt_not_false customOptions "removeExplain" then
      let beforeExplain := length compressed in
      let compressed := replace flags_gi re_explain [] compressed in
      (compressed,
       push_if_shorter beforeExplain compressed
         (op4 "remove_explain" (VInt 1) false "low") ops)
    else (compressed, ops) in
  (* Shorten aliases *)
  let '(compressed, ops) :=
    if opt_not_false customOptions "shortenAliases" then
      let '(aliasMap, _) :=
        fold_left
          (fun '(aliasMap, aliasCounter) (g : nat -> jstr) =>
             let originalAlias := g 1%nat in
             match map_get originalAlias aliasMap with
             | None =>
                 if (2 <? length originalAlias)%nat then
                   (map_set originalAlias (getShortAlias aliasCounter) aliasMap,
                    aliasCounter + 1)
                 else (aliasMap, aliasCounter)
             | Some _ => (aliasMap, aliasCounter)
             end)
          (exec_all flags_gi re_alias compressed)
          ([] : list (jstr * jstr), 0) in
      let compressed :=
        fold_left
          (fun compressed '(longAlias, shortAlias) =>
             replace_with flags_g (re_whole_word longAlias)
               (fun _ _ => shortAlias) compressed)
          aliasMap compressed in
      (compressed,
       if (0 <? length aliasMap)%nat then
         ops ++ [(op4 "shorten_aliases" (VNat (length aliasMap)) false "medium",
                  counted (length aliasMap))]
       else ops)
    else (compressed, ops) in
  (* Remove optional keywords *)
  let '(compressed, ops) :=
    if opt_not_false customOptions "removeOptionalKeywords" then
      let beforeOptional := length compressed in
      let compressed := replace flags_gi re_outer_join [G 1; T " join"] compressed in
      let compressed := replace flags_gi re_public [] compressed in
      let compressed := replace flags_gi re_cascade [] compressed in
      (compressed,
       push_if_shorter beforeOptional compressed
         (op4 "remove_optional_keywords" (VInt 1) false "medium") ops)
    else (compressed, ops) in
  (* Combine INSERT statements *)
  let '(compressed, ops) :=
    if opt_not_false customOptions "combineInserts" then
      let '(compressed, combined) :=
        combine_loop (S (length compressed)) compressed 0 in
      (compressed,
       if (0 <? combined)%nat then
         ops ++ [(op4 "combine_insert_statements" (VNat combined) false "medium",
                  counted combined)]
       else ops)
    else (compressed, ops) in
  (compressed, ops).

(** [/\bcreate\s+(table|database|index|view)\s+[^;]+;?/gi] and its
    DROP twin *)
Definition re_schema (verb : string) : re :=
  seq_of [Wordb; text verb; plus space;
          Grp 1 (alt_of [text "table"; text "database"; text "index";
                         text "view"]);
          plus space; plus (not_set ";"); opt (Chr 59)].

(** [/\balter\s+table\s+[^;]+;?/gi] *)
Definition re_alter : re :=
  seq_of [Wordb; text "alter"; plus space; text "table"; plus space;
          plus (not_set ";"); opt (Chr 59)].

(** [/\b(begin|start\s+transaction|commit|rollback)\s*;?/gi] *)
Definition re_transaction : re :=
  seq_of [Wordb;
          Grp 1 (alt_of [text "begin";
                         seq_of [text "start"; plus space; text "transaction"];
                         text "commit"; text "rollback"]);
          star space; opt (Chr 59)].

(** [/,?\s*(primary key|foreign key|unique|check)\s*\([^)]*\)/gi] *)
Definition re_table_constraint : re :=
  seq_of [opt (Chr 44); star space;
          Grp 1 (alt_of [text "primary key"; text "foreign key";
                         text "unique"; text "check"]);
          star space; Chr 40; star (not_set ")"); Chr 41].

(** [/\s+(primary key|foreign key|unique|check|not null|default\s+[^,)]+)/gi] *)
Definition re_column_constraint : re :=
  seq_of [plus space;
          Grp 1 (alt_of [text "primary key"; text "foreign key";
                         text "unique"; text "check"; text "not null";
                         seq_of [text "default"; plus space;
                                 plus (not_set ",)")]])].

(** [/insert into\s+(\w+)[^)]*\)\s*values\s*(\([^;]+\));/gi] *)
Definition re_multi_insert : re :=
  seq_of [text "insert into"; plus space; Grp 1 (plus word);
          star (not_set ")"); Chr 41; star space; text "values"; star space;
          Grp 2 (seq_of [Chr 40; plus (not_set ";"); Chr 41]); Chr 59].

(** [/\),\s*\(/] *)
Definition re_tuple_gap : re := seq_of [text "),"; star space; Chr 40].

Definition is_data_statement (stmt : jstr) : bool :=
  let trimmed := toLowerCase (trim stmt) in
  startsWith (lit "insert") trimmed || startsWith (lit "update") trimmed
  || startsWith (lit "select") trimmed || startsWith (lit "delete") trimmed.

(** [applyAggressiveSQLCompression] *)
Definition applyAggressiveSQLCompression (sql : jstr) (ops : list Entry)
    (customOptions : Options) : jstr * list Entry :=
  let '(compressed, ops) := applyModerateSQLCompression sql ops customOptions in
  (* Remove CREATE, DROP and ALTER statements *)
  let '(compressed, ops) :=
    if opt_not_false customOptions "removeSchemaChanges" then
      let beforeRemove := length compressed in
      let compressed := replace flags_gi (re_schema "create") [] compressed in
      let compressed := replace flags_gi (re_schema "drop") [] compressed in
      let compressed := replace flags_gi re_alter [] compressed in
      (compressed,
       push_if_shorter beforeRemove compressed
         (op4 "remove_schema_changes" (VInt 1) false "high") ops)
    else (compressed, ops) in
  (* Keep only data statements *)
  let '(compressed, ops) :=
    if opt_truthy customOptions "keepDataOnly" then
      let statements :=
        filter (fun s => trim s <> []) (split 59 compressed) in
      let dataStatements :=
        filter (fun stmt => is_data_statement stmt = true) statements in
      if (length dataStatements <? length statements)%nat then
        (join [59] dataStatements
         ++ (if (0 <? length dataStatements)%nat then [59] else []),
         ops ++ [([("type", VStr (lit "keep_data_statements_only"));
                   ("kept", VNat (length dataStatements));
                   ("removed",
                    VNat (length statements - length dataStatements));
                   ("reversible", VBool false);
                   ("impact", VStr (lit "high"))],
                  Shrunk (length statements) (length dataStatements))])
      else (compressed, ops)
    else (compressed, ops) in
  (* Remove transaction statements *)
  let '(compressed, ops) :=
    if opt_not_false customOptions "removeTransactions" then
      let beforeTrans := length compressed in
      let compressed := replace flags_gi re_transaction [] compressed in
      (compressed,
       push_if_shorter beforeTrans compressed
         (op4 "remove_transactions" (VInt 1) false "high") ops)
    else (compressed, ops) in
  (* Remove constraints *)
  let '(compressed, ops) :=
    if opt_truthy customOptions "removeConstraints" then
      let beforeConstraints := length compressed in
      let compressed := replace flags_gi re_table_constraint [] compressed in
      let compressed := replace flags_gi re_column_constraint [] compressed in
      (compressed,
       push_if_shorter beforeConstraints compressed
         (op4 "remove_constraints" (VInt 1) false "high") ops)
    else (compressed, ops) in
  (* Sample the rows of INSERT statements *)
  let '(compressed, ops) :=
    if opt_truthy customOptions "sampleInserts" then
      let beforeSample := length compressed in
      let sampleRate := opt_or customOptions "insertSampleRate" (VInt 5) in
      let compressed :=
        replace_with flags_gi re_multi_insert
          (fun m g =>
             let valueGroups := split_re flags_g re_tuple_gap (g 2%nat) in
             let sampled :=
               CSV.filter_index
                 (fun index => rem_is_zero index (to_number sampleRate))
                 valueGroups in
             if (length sampled <? length valueGroups)%nat then
               lit "insert into " ++ g 1%nat ++ lit " values "
               ++ join (lit "),(") sampled ++ [59]
             else m)
          compressed in
      (compressed,
       push_if_shorter beforeSample compressed
         [("type", VStr (lit "sample_insert_rows"));
          ("sampleRate", sampleRate);
          ("reversible", VBool false);
          ("impact", VStr (lit "high"))] ops)
    else (compressed, ops) in
  (compressed, ops).

(** [compressSQL] *)
Definition compressSQL : Engine :=
  CSS.by_level applyMinimalSQLCompression applyModerateSQLCompression
               applyAggressiveSQLCompression.

End SQL.

(** ** The XML engine (xml-yaml.js) *)

Module XML.
Import Regex.

(** [/<!--[\s\S]*?-->/g] *)
Definition re_comment : re :=
  seq_of [text "<!--"; lazy_star anything; text "-->"].

(** [/>\s+</g] *)
Definition re_between_tags : re := seq_of [Chr 62; plus space; Chr 60].

(** [/\s{2,}/g] *)
Definition re_spaces : re := at_least 2 space.

(** [applyMinimalXMLCompression] *)
Definition applyMinimalXMLCompression (xml : jstr) (ops : list Entry)
    (customOptions : Options) : jstr * list Entry :=
  let compressed := xml in
  let '(compressed, ops) :=
    if opt_not_false customOptions "removeComments" then
      let before := length compressed in
      let compressed := replace flags_g re_comment [] compressed in
      (compressed,
       push_if_shorter before compressed
         (op4 "remove_comments" (VInt 1) false "low") ops)
    else (compressed, ops) in
  let '(compressed, ops) :=
    if opt_not_false customOptions "removeWhitespace" then
      let before := length compressed in
      let compressed :=
        trim (replace flags_g re_spaces [T " "]
                (replace flags_g re_between_tags [T "><"] compressed)) in
      (compressed,
       push_if_shorter before compressed
         (op4 "remove_whitespace" (VNat (before - length compressed)) false
              "low") ops)
    else (compressed, ops) in
  (compressed, ops).

(** [/<\?xml[^?]*\?>/g] *)
Definition re_declaration : re :=
  seq_of [text "<?xml"; star (not_set "?"); text "?>"].

(** [/<!DOCTYPE[^>]*>/gi] *)
Definition re_doctype : re :=
  seq_of [text "<!DOCTYPE"; star (not_set ">"); Chr 62].

(** The opening of a CDATA section, its content up to the first
    closing bracket pair (group 1, lazy), and the closing. *)
Definition re_cdata : re :=
  seq_of [text "<![CDATA["; Grp 1 (lazy_star anything); text "]]>"].

(** A letter followed by word characters, colons and hyphens:
    [[a-zA-Z][\w:-]*] *)
Definition tag_name : re :=
  seq_of [Cls false is_alpha;
          star (Cls false (fun c => is_word c || (c =? 58) || (c =? 45)))].

(** An opening tag (its name is group 1), optional white space, and
    the closing tag of the same name. *)
Definition re_empty_element : re :=
  seq_of [Chr 60; Grp 1 tag_name; star (not_set ">"); Chr 62; star space;
          text "</"; Ref 1; Chr 62].

(** The [do ... while (compressed.length < prevLength)] loop of the
    removal of empty elements; it runs at most once per character. *)
Fixpoint remove_empty_loop (n : nat) (compressed : jstr) : jstr :=
  match n with
  | O => compressed
  | S n' =>
      let prevLength := length compressed in
      let compressed := replace flags_g re_empty_element [] compressed in
      if (length compressed <? prevLength)%nat
      then remove_empty_loop n' compressed
      else compressed
  end.

(** A word (group 1), an equals sign, and the same word between double
    quotes (group 2). *)
Definition re_boolean : re :=
  seq_of [Grp 1 (plus word); Chr 61; Chr 34; Grp 2 (Ref 1); Chr 34].

(** An equals sign and a value of letters, digits, underscores and
    hyphens (group 1) between double quotes. *)
Definition re_quoted_value : re :=
  seq_of [Chr 61; Chr 34;
          Grp 1 (plus (Cls false (fun c => is_word c || (c =? 45))));
          Chr 34].

(** An equals sign and, between double quotes, a number with an
    optional minus sign and at least three decimals (group 1). *)
Definition re_long_number : re :=
  seq_of [Chr 61; Chr 34;
          Grp 1 (seq_of [opt (Chr 45); plus digit; Chr 46; at_least 3 digit]);
          Chr 34].

(** White space, [xmlns] with an optional colon and letters (group
    1), and a value between double quotes; flags [gi]. *)
Definition re_xmlns : re :=
  seq_of [plus space; text "xmlns";
          opt (Grp 1 (seq_of [Chr 58; plus (Cls false is_lower)]));
          Chr 61; Chr 34; star (Cls true (N.eqb 34));
          Chr 34].

(** White space and the attribute [version] with a value between
    double quotes; flags [gi]. *)
Definition re_version : re :=
  seq_of [plus space; text "version="; Chr 34;
          star (Cls true (N.eqb 34)); Chr 34].

(** [applyModerateXMLCompression] *)
Definition applyModerateXMLCompression (xml : jstr) (ops : list Entry)
    (customOptions : Options) : jstr * list Entry :=
  let '(compressed, ops) := applyMinimalXMLCompression xml ops customOptions in
  let beforeDecl := length compressed in
  let compressed := replace flags_g re_declaration [] compressed in
  let ops := push_if_shorter beforeDecl compressed
               (op4 "remove_xml_declaration" (VInt 1) true "low") ops in
  let beforeDoctype := length compressed in
  let compressed := replace flags_gi re_doctype [] compressed in
  let ops := push_if_shorter beforeDoctype compressed
               (op4 "remove_doctype" (VInt 1) true "low") ops in
  let '(compressed, ops) :=
    if opt_not_false customOptions "removeCDATA" then
      let beforeCDATA := length compressed in
      let compressed := replace flags_g re_cdata [G 1] compressed in
      (compressed,
       push_if_shorter beforeCDATA compressed
         (op4 "remove_cdata" (VInt 1) true "low") ops)
    else (compressed, ops) in
  let '(compressed, ops) :=
    if opt_not_false customOptions "removeEmpty" then
      let beforeEmpty := length compressed in
      let compressed := remove_empty_loop (S (length compressed)) compressed in
      (compressed,
       push_if_shorter beforeEmpty compressed
         (op4 "remove_empty_elements" (VInt 1) true "low") ops)
    else (compressed, ops) in
  let beforeBool := length compressed in
  let compressed := replace flags_g re_boolean [G 1] compressed in
  let ops := push_if_shorter beforeBool compressed
               (op4 "collapse_boolean_attributes" (VInt 1) true "low") ops in
  let '(compressed, ops) :=
    if opt_not_false customOptions "removeQuotes" then
      let beforeQuotes := length compressed in
      let compressed := replace flags_g re_quoted_value [T "="; G 1] compressed in
      (compressed,
       push_if_shorter beforeQuotes compressed
         (op4 "remove_attribute_quotes" (VInt 1) true "low") ops)
    else (compressed, ops) in
  let '(compressed, ops) :=
    if opt_not_false customOptions "roundNumbers" then
      let beforeNumbers := length compressed in
      let compressed :=
        replace_with flags_g re_long_number
          (fun _ g => [61; 34] ++ toFixed 2 (parseFloat (g 1%nat)) ++ [34])
          compressed in
      (compressed,
       push_if_shorter beforeNumbers compressed
         [("type", VStr (lit "round_numeric_values")); ("decimals", VInt 2);
          ("count", VInt 1); ("reversible", VBool false);
          ("impact", VStr (lit "low"))] ops)
    else (compressed, ops) in
  let '(compressed, ops) :=
    if opt_truthy customOptions "removeOptionalAttrs" then
      let beforeAttrs := length compressed in
      let compressed := replace flags_gi re_xmlns [] compressed in
      let compressed := replace flags_gi re_version [] compressed in
      (compressed,
       push_if_shorter beforeAttrs compressed
         (op4 "remove_optional_attributes" (VInt 1) true "medium") ops)
    else (compressed, ops) in
  (compressed, ops).

(** [<], an optional slash, and a tag name (group 1); flag [g]. *)
Definition re_tag : re := seq_of [Chr 60; opt (Chr 47); Grp 1 tag_name].

(** The pattern built from [longTag]: [<], an optional slash (group
    1), the tag name, and a space or [>] (group 2); flag [g].  A tag
    name holds no character that is special in a pattern. *)
Definition re_named_tag (longTag : jstr) : re :=
  seq_of [Chr 60; Grp 1 (opt (Chr 47)); text_of longTag; Grp 2 (set " >")].

(** [applyAggressiveXMLCompression] *)
Definition applyAggressiveXMLCompression (xml : jstr) (ops : list Entry)
    (customOptions : Options) : jstr * list Entry :=
  let '(compressed, ops) := applyModerateXMLCompression xml ops customOptions in
  if opt_truthy customOptions "shortenTags" then
    let tags :=
      CSV.uniq []
        (map (fun g : nat -> jstr => g 1%nat)
             (exec_all flags_g re_tag compressed)) in
    let tagMap :=
      imap (fun tagCounter tag =>
              (tag, lit "t" ++ digits_of_N (N.of_nat tagCounter)))
           (filter (fun tag => (3 <? length tag)%nat = true) tags) in
    let compressed :=
      fold_left
        (fun compressed '(longTag, shortTag) =>
           replace_with flags_g (re_named_tag longTag)
             (fun _ g => [60] ++ g 1%nat ++ shortTag ++ g 2%nat) compressed)
        tagMap compressed in
    (compressed,
     if (0 <? length tagMap)%nat then
       ops ++ [([("type", VStr (lit "shorten_tag_names"));
                 ("count", VNat (length tagMap));
                 ("mapping", VObj (map (fun '(k, v) => (k, VStr v)) tagMap));
                 ("reversible", VBool true);
                 ("impact", VStr (lit "high"))],
                counted (length tagMap))]
     else ops)
  else (compressed, ops).

(** [compressXML] *)
Definition compressXML : Engine :=
  CSS.by_level applyMinimalXMLCompression applyModerateXMLCompression
               applyAggressiveXMLCompression.

End XML.

(** ** The YAML engine (xml-yaml.js) *)

Module YAML.
Import Regex.

(** [/#.*$/gm] *)
Definition re_comment : re := seq_of [Chr 35; star dot; Eol].

(** [/\n{3,}/g] *)
Definition re_blank_lines : re := at_least 3 (Chr 10).

(** [/[ \t]+$/gm] *)
Definition re_trailing : re :=
  seq_of [plus (Cls false (fun c => (c =? 32) || (c =? 9))); Eol].

(** [applyMinimalYAMLCompression] *)
Definition applyMinimalYAMLCompression (yaml : jstr) (ops : list Entry)
    (customOptions : Options) : jstr * list Entry :=
  let compressed := yaml in
  let '(compressed, ops) :=
    if opt_not_false customOptions "removeComments" then
      let before := length compressed in
      let compressed := replace flags_gm re_comment [] compressed in
      (compressed,
       push_if_shorter before compressed
         (op4 "remove_comments" (VInt 1) false "low") ops)
    else (compressed, ops) in
  let before := length compressed in
  let compressed := replace_with flags_g re_blank_lines (fun _ _ => [10; 10])
                      compressed in
  let ops := push_if_shorter before compressed
               (op4 "remove_extra_blank_lines" (VInt 1) false "low") ops in
  let beforeTrailing := length compressed in
  let compressed := replace flags_gm re_trailing [] compressed in
  let ops := push_if_shorter beforeTrailing compressed
               (op4 "remove_trailing_whitespace" (VInt 1) false "low") ops in
  (compressed, ops).

(** [/^---\s*$/gm] and the same with three dots *)
Definition re_marker (m : string) : re := seq_of [Bol; text m; star space; Eol].

(** [/:\s*\|\s*\n\s+(.+)$/gm], and the same with [>] for the bar *)
Definition re_block_scalar (indicator : N) : re :=
  seq_of [Chr 58; star space; Chr indicator; star space; Chr 10; plus space;
          Grp 1 (plus dot); Eol].

(** One or more of [a-zA-Z0-9_-] *)
Definition simple_scalar : re :=
  plus (Cls false (fun c => is_word c || (c =? 45))).

(** [/:\s*Q(S)Q\s*$/gm] for a quote character [Q] and the simple
    scalar [S] *)
Definition re_quoted (q : N) : re :=
  seq_of [Chr 58; star space; Chr q; Grp 1 simple_scalar; Chr q; star space;
          Eol].

(** [/:\s*W\s*$/gm] for a word [W] *)
Definition re_value (w : re) : re :=
  seq_of [Chr 58; star space; w; star space; Eol].

(** The leading white space of a line: [line.match(/^\s*/)[0]]. *)
Fixpoint leading_space (line : jstr) : jstr :=
  match line with
  | c :: l => if is_ws c then c :: leading_space l else []
  | [] => []
  end.

Definition flow_item (indent : jstr) (arrayItems : list jstr) : jstr :=
  indent ++ [91] ++ join (lit ", ") arrayItems ++ [93].

(** The [forEach] over the lines of the flow-style conversion; the
    state is [result], [inArray], [arrayItems] and [indent]. *)
Definition flow_step (st : list jstr * bool * list jstr * jstr) (line : jstr)
    : list jstr * bool * list jstr * jstr :=
  let '(result, inArray, arrayItems, indent) := st in
  let trimmed := trim line in
  if startsWith (lit "- ") trimmed then
    let '(indent, arrayItems) :=
      if inArray then (indent, arrayItems) else (leading_space line, []) in
    (result, true, arrayItems ++ [skipn 2 trimmed], indent)
  else
    let result :=
      if inArray then result ++ [flow_item indent arrayItems] else result in
    (result ++ [line], false, [], indent).

Definition to_flow_style (compressed : jstr) : jstr :=
  let '(result, inArray, arrayItems, indent) :=
    fold_left flow_step (split 10 compressed) ([], false, [], []) in
  let result :=
    if inArray then result ++ [flow_item indent arrayItems] else result in
  join [10] result.

(** [applyModerateYAMLCompression] *)
Definition applyModerateYAMLCompression (yaml : jstr) (ops : list Entry)
    (customOptions : Options) : jstr * list Entry :=
  let '(compressed, ops) := applyMinimalYAMLCompression yaml ops customOptions in
  let beforeMarkers := length compressed in
  let compressed := replace flags_gm (re_marker "---") [] compressed in
  let compressed := replace flags_gm (re_marker "...") [] compressed in
  let ops := push_if_shorter beforeMarkers compressed
               (op4 "remove_document_markers" (VInt 1) true "low") ops in
  let '(compressed, ops) :=
    if opt_not_false customOptions "inlineStrings" then
      let beforeInline := length compressed in
      let compressed :=
        replace flags_gm (re_block_scalar 124) [T ": "; Raw [34]; G 1; Raw [34]]
                compressed in
      let compressed :=
        replace flags_gm (re_block_scalar 62) [T ": "; Raw [34]; G 1; Raw [34]]
                compressed in
      (compressed,
       push_if_shorter beforeInline compressed
         (op4 "inline_short_strings" (VInt 1) true "low") ops)
    else (compressed, ops) in
  let '(compressed, ops) :=
    if opt_not_false customOptions "removeQuotes" then
      let beforeQuotes := length compressed in
      let compressed := replace flags_gm (re_quoted 34) [T ": "; G 1] compressed in
      let compressed := replace flags_gm (re_quoted 39) [T ": "; G 1] compressed in
      (compressed,
       push_if_shorter beforeQuotes compressed
         (op4 "remove_unnecessary_quotes" (VInt 1) true "low") ops)
    else (compressed, ops) in
  let beforeNull := length compressed in
  let compressed := replace flags_gm (re_value (text "null")) [T ": ~"] compressed in
  let ops := push_if_shorter beforeNull compressed
               (op4 "shorten_null_values" (VInt 1) true "low") ops in
  let compressed :=
    replace flags_gm (re_value (text "true")) [T ": !!bool true"] compressed in
  let compressed :=
    replace flags_gm (re_value (text "false")) [T ": !!bool false"] compressed in
  let compressed :=
    replace flags_gm
      (re_value (seq_of [text "!!bool ";
                         Grp 1 (alt_of [text "true"; text "false"])]))
      [T ": "; G 1] compressed in
  let '(compressed, ops) :=
    if opt_truthy customOptions "useFlowStyle" then
      (to_flow_style compressed,
       ops ++ [(op4 "convert_to_flow_style" (VInt 1) true "medium", Unguarded)])
    else (compressed, ops) in
  (compressed, ops).

(** The key pattern of the aggressive tier: at the start of a line,
    white space (group 1), a letter or underscore followed by word
    characters or hyphens (group 2), a colon, not followed by white
    space and a block-scalar indicator. *)
Definition re_key : re :=
  seq_of [Bol; Grp 1 (star space);
          Grp 2 (seq_of [Cls false (fun c => is_alpha c || (c =? 95));
                         star (Cls false (fun c => is_word c || (c =? 45)))]);
          Chr 58; Ahead true (seq_of [star space; set "|>"])].

(** The pattern built from [longKey]: start of line, white space
    (group 1), the key, a colon; flags [gm]. *)
Definition re_named_key (longKey : jstr) : re :=
  seq_of [Bol; Grp 1 (star space); text_of longKey; Chr 58].

(** [applyAggressiveYAMLCompression] *)
Definition applyAggressiveYAMLCompression (yaml : jstr) (ops : list Entry)
    (customOptions : Options) : jstr * list Entry :=
  let '(compressed, ops) := applyModerateYAMLCompression yaml ops customOptions in
  if opt_truthy customOptions "shortenKeys" then
    let keys :=
      CSV.uniq []
        (filter (fun key => (5 <? length key)%nat = true)
                (map (fun g : nat -> jstr => g 2%nat)
                     (exec_all flags_gm re_key compressed))) in
    let keyMap :=
      imap (fun keyCounter key =>
              (key, lit "k" ++ digits_of_N (N.of_nat keyCounter))) keys in
    let compressed :=
      fold_left
        (fun compressed '(longKey, shortKey) =>
           replace_with flags_gm (re_named_key longKey)
             (fun _ g => g 1%nat ++ shortKey ++ [58]) compressed)
        keyMap compressed in
    (compressed,
     if (0 <? length keyMap)%nat then
       ops ++ [([("type", VStr (lit "shorten_keys"));
                 ("count", VNat (length keyMap));
                 ("mapping", VObj (map (fun '(k, v) => (k, VStr v)) keyMap));
                 ("reversible", VBool true);
                 ("impact", VStr (lit "high"))],
                counted (length keyMap))]
     else ops)
  else (compressed, ops).

(** [compressYAML] *)
Definition compressYAML : Engine :=
  CSS.by_level applyMinimalYAMLCompression applyModerateYAMLCompression
               applyAggressiveYAMLCompression.

End YAML.

(** ** The minimal tiers of the JavaScript, SVG and text engines

    Of these three engines the minimal tier is embedded: the function
    that [compressJavaScript], [compressSVG] and [compressText] (the
    engine of the types Text and Markdown) run for the level
    [minimal]. *)

Module JavaScript.
Import Regex.

(** [/\/\/.*$/gm] *)
Definition re_line_comment : re := seq_of [text "//"; star dot; Eol].

(** [/\/\*[\s\S]*?\*\//g] *)
Definition re_block_comment : re :=
  seq_of [text "/*"; lazy_star anything; text "*/"].

(** [/\s+/g] *)
Definition re_spaces : re := plus space.

(** [/\s*([{}();,:])\s*/g] *)
Definition re_punctuation : re :=
  seq_of [star space; Grp 1 (set "{}();,:"); star space].


End JavaScript.

Module SVG.
Import Regex.

(** [/<\?xml[^?]*\?>\s*/g] *)
Definition re_declaration : re :=
  seq_of [text "<?xml"; star (not_set "?"); text "?>"; star space].

(** [/<!--[\s\S]*?-->/g] *)
Definition re_comment : re :=
  seq_of [text "<!--"; lazy_star anything; text "-->"].



(** [/<!DOCTYPE[^>]*>/gi] *)
Definition re_doctype : re :=
  seq_of [text "<!DOCTYPE"; star (not_set ">"); Chr 62].

(** [/>\s+</g] *)
Definition re_between_tags : re := seq_of [Chr 62; plus space; Chr 60].

(** [/\s{2,}/g] *)
Definition re_spaces : re := at_least 2 space.


End SVG.

Module Text.
Import Regex.

(** [/\n{3,}/g] *)
Definition re_blank_lines : re := at_least 3 (Chr 10).

(** [/[ \t]+$/gm] *)
Definition re_trailing : re :=
  seq_of [plus (Cls false (fun c => (c =? 32) || (c =? 9))); Eol].



End Text.

(** ** The preview engine (preview.js) *)

Module Preview.

Inductive Level := minimal | moderate | aggressive.

Definition level_name (l : Level) : string :=
  match l with
  | minimal => "minimal"
  | moderate => "moderate"
  | aggressive => "aggressive"
  end.

(** One entry of [results].  The display string [sizeFormatted] is left
    out; [level_compressed] is absent and [error] present exactly when
    the tier failed. *)
Record LevelResult := mkLevelResult {
  size : N;
  reduction : jsnum;
  level_operations : list Operation;
  level_compressed : option jstr;
  error : option jstr
}.

Record Results := mkResults {
  res_minimal : LevelResult;
  res_moderate : LevelResult;
  res_aggressive : LevelResult
}.

Definition result_at (r : Results) (l : Level) : LevelResult :=
  match l with
  | minimal => res_minimal r
  | moderate => res_moderate r
  | aggressive => res_aggressive r
  end.

Record EffectiveLevels := mkEffective {
  eff_minimal : bool;
  eff_moderate : bool;
  eff_aggressive : bool
}.

Record Recommendation := mkRecommendation {
  level : Level;
  effectiveLevels : EffectiveLevels;
  reason : jstr
}.

Record PreviewResult := mkPreview {
  preview_originalSize : N;
  results : Results;
  recommendation : Recommendation
}.

(** [(originalSize - compressedSize) / originalSize * 100] *)
Definition percent_reduction (originalSize compressedSize : N) : jsnum :=
  if originalSize =? 0 then
    if compressedSize =? 0 then NaN else Inf true
  else
    Fin (Qred ((inject_Z (Z.of_N originalSize) - inject_Z (Z.of_N compressedSize))
               / inject_Z (Z.of_N originalSize) * 100)).

(** The body of the loop over the three levels: the [try] branch and
    the [catch] branch. *)
Definition run_level (compressFunc : Engine) (content : jstr)
    (customOptions : Options) (originalSize : N) (l : Level) : LevelResult :=
  match compressFunc content (level_name l) customOptions with
  | inr result =>
      {| size := compressedSize result;
         reduction := percent_reduction originalSize (compressedSize result);
         level_operations := operations result;
         level_compressed := Some (compressed result);
         error := None |}
  | inl e =>
      {| size := originalSize;
         reduction := Fin 0;
         level_operations := [];
         level_compressed := None;
         error := Some (exn_message e) |}
  end.

(** [getRecommendationReason] *)
Definition getRecommendationReason (r : Results) (l : Level) : jstr :=
  let reduction := or_zero (reduction (result_at r l)) in
  let name := lit (level_name l) in
  if gt reduction 70 then
    name ++ lit " level achieves excellent " ++ toFixed 1 reduction
         ++ lit "% reduction"
  else if gt reduction 50 then
    name ++ lit " level provides strong " ++ toFixed 1 reduction
         ++ lit "% compression"
  else if gt reduction 30 then
    name ++ lit " level offers balanced " ++ toFixed 1 reduction
         ++ lit "% reduction"
  else if gt reduction 10 then
    name ++ lit " level gives modest " ++ toFixed 1 reduction
         ++ lit "% savings"
  else lit "Limited compression opportunity for this file".

Section Analyze.

(** The table [compressionEngines], from file-type label to engine. *)
Variable compressionEngines : jstr -> option Engine.

(** [analyzeFile] *)
Definition analyzeFile (content fileType : jstr) (customOptions : Options)
    : exn + PreviewResult :=
  match compressionEngines fileType with
  | None => inl (JsError (lit "Unsupported file type: " ++ fileType))
  | Some compressFunc =>
      let originalSize := utf8_length content in
      let run := run_level compressFunc content customOptions originalSize in
      let results :=
        {| res_minimal := run minimal;
           res_moderate := run moderate;
           res_aggressive := run aggressive |} in
      let effectiveLevels :=
        {| eff_minimal := gt (reduction (res_minimal results)) 5;
           eff_moderate := gt (reduction (res_moderate results)) 5;
           eff_aggressive := gt (reduction (res_aggressive results)) 5 |} in
      let recommendedLevel :=
        if gt (reduction (res_aggressive results)) 50
           && eff_aggressive effectiveLevels then aggressive
        else if gt (reduction (res_moderate results)) 30
                && eff_moderate effectiveLevels then moderate
        else if eff_minimal effectiveLevels then minimal
        else moderate in
      inr {| preview_originalSize := originalSize;
             results := results;
             recommendation :=
               {| level := recommendedLevel;
                  effectiveLevels := effectiveLevels;
                  reason := getRecommendationReason results recommendedLevel |} |}
  end.

End Analyze.

End Preview.

(** * Properties *)

Module Properties.
Import CSV JSON Preview Regex SQL.

Definition text_lines (l : list string) : jstr := join [newline] (map lit l).

(** ** Key-shortening codes *)

(** C6.  The first 62 ranks get the characters of the alphabet in
    order, but the overflow counter restarts at the first character of
    the alphabet: rank 62 yields a bar followed by the digit zero and
    rank 63 a bar followed by the digit one, where the claim (and the
    comment above [generateShortKey]) announce the letters a and b. *)
Theorem generateShortKey_overflow_restarts_at_zero :
  map generateShortKey (map N.of_nat (seq 0 62)) = map (fun c => [c]) chars
  /\ map generateShortKey [0; 1; 9; 10; 61; 62; 63; 72; 124]
     = map lit ["0"; "1"; "9"; "a"; "Z"; "|0"; "|1"; "|a"; "|01"]%string.
Proof. split; vm_compute; reflexivity. Qed.

(** ** The CSV scenario *)

Definition scenario2 : jstr :=
  text_lines ["id,country"; "1,USA"; "2,USA"; "3,Canada"; "4,Mexico"; "5,USA"].

(** The header cell the claim expects for the delta-encoded column:
    [id], an opening parenthesis, U+0394 and a closing parenthesis. *)
Definition id_delta_expected : jstr := lit "id" ++ [40; 916; 41].

(** C5.  On the scenario input at the moderate tier with default
    options the country column is dictionary-encoded with the codes
    Canada 0, Mexico 1, USA 2 and the id column is delta-encoded with
    the values 1, +1.00, +1.00, +1.00, +1.00, as claimed; but the
    header of the id column is suffixed with the characters U+00CE
    U+201D between parentheses, not with the Greek capital delta. *)
Theorem scenario2_moderate_output :
  exists r,
    compressCSV scenario2 "moderate" ∅ = inr r
    /\ map fields_of (split newline (compressed r))
       = [ [lit "id" ++ [40; 206; 8221; 41]; lit "country(D)"];
           [lit "1"; lit "2"]; [lit "+1.00"; lit "2"]; [lit "+1.00"; lit "0"];
           [lit "+1.00"; lit "1"]; [lit "+1.00"; lit "2"] ]
    /\ reverseDictionary 1 (skipn 1 (split newline scenario2))
       = [lit "Canada"; lit "Mexico"; lit "USA"]
    /\ head (fields_of (compressed r)) <> Some id_delta_expected.
Proof.
  eexists. split; [ vm_compute; reflexivity | ].
  split; [ vm_compute; reflexivity | ].
  split; [ vm_compute; reflexivity | ].
  vm_compute. discriminate.
Qed.

(** ** Delta encoding and its inverse *)

(** Cumulative sum of the emitted cells of a column: the base value of
    row 0, then each delta added in turn. *)
Fixpoint running_sums (acc : jsnum) (deltas : list jsnum) : list jsnum :=
  match deltas with
  | [] => []
  | d :: rest => add acc d :: running_sums (add acc d) rest
  end.

Definition reconstruct (cells : list jstr) : list jsnum :=
  match map parseFloat cells with
  | [] => []
  | base :: deltas => base :: running_sums base deltas
  end.

Definition drifting_column : jstr :=
  text_lines ["x"; "0"; "1"; "1.00390625"; "1.0078125"; "1.01171875";
              "1.015625"].

Definition within_hundredth (original rebuilt : jsnum) : bool :=
  negb (gt (abs (sub original rebuilt)) (1 # 100)).

(** Whether the only column of [content], once compressed at the
    moderate tier, is rebuilt within one hundredth by the cumulative
    sum of its emitted cells. *)
Definition round_trips (content : jstr) (customOptions : Options)
    : option bool :=
  match compressCSV content "moderate" customOptions with
  | inr r =>
      let original := map parseFloat (skipn 1 (split newline content)) in
      let rebuilt := reconstruct (skipn 1 (split newline (compressed r))) in
      Some ((length original =? length rebuilt)%nat
            && forallb (fun '(a, b) => within_hundredth a b)
                       (combine original rebuilt))
  | inl _ => None
  end.

(** C3.  With number rounding switched off the deltas are still
    emitted with two decimals, so the cumulative sum drifts: on the
    column 0, 1, 1 + 1/256, 1 + 2/256, 1 + 3/256, 1 + 4/256 the emitted
    cells are 0, +1.00, +0.00, +0.00, +0.00, +0.00, their cumulative
    sum ends at 1, and the last original value 1.015625 is missed by
    1/64, more than one hundredth.  With the default options the same
    column is rounded first and is rebuilt within one hundredth. *)
Theorem delta_encoding_drifts_without_rounding :
  (exists r,
      compressCSV drifting_column "moderate" {[ "roundNumbers" := VBool false ]}
      = inr r
      /\ split newline (compressed r)
         = [lit "x" ++ delta_suffix; lit "0"; lit "+1.00"; lit "+0.00";
            lit "+0.00"; lit "+0.00"; lit "+0.00"]
      /\ reconstruct (skipn 1 (split newline (compressed r)))
         = [Fin 0; Fin 1; Fin 1; Fin 1; Fin 1; Fin 1]
      /\ map parseFloat (skipn 1 (split newline drifting_column))
         = [Fin 0; Fin 1; Fin (257 # 256); Fin (129 # 128); Fin (259 # 256);
            Fin (65 # 64)]
      /\ gt (abs (sub (Fin (65 # 64)) (Fin 1))) (1 # 100) = true)
  /\ round_trips drifting_column {[ "roundNumbers" := VBool false ]}
     = Some false
  /\ round_trips drifting_column ∅ = Some true.
Proof.
  split; [ | split; vm_compute; reflexivity ].
  eexists. split; [ vm_compute; reflexivity | ].
  repeat split; vm_compute; reflexivity.
Qed.

(** ** The preview engine *)

(** The entries of the table [compressionEngines] whose engines are
    embedded in this file. *)
Definition embedded_engines (fileType : jstr) : option Engine :=
  if str_eqb fileType (lit "CSV") then Some compressCSV
  else if str_eqb fileType (lit "HTML") then Some HTML.compressHTML
  else if str_eqb fileType (lit "CSS") then Some CSS.compressCSS
  else if str_eqb fileType (lit "SQL") then Some SQL.compressSQL
  else if str_eqb fileType (lit "XML") then Some XML.compressXML
  else if str_eqb fileType (lit "YAML") then Some YAML.compressYAML
  else None.

(** Two rows that start with U+00E9: seven code units, nine bytes. *)
Definition accented_rows : jstr := [233; 44; 120; 10; 233; 44; 121].

(** The compressed size that an engine reports is a count of UTF-16
    code units. *)
Definition sized_in_code_units (x : exn + CompressionResult) : Prop :=
  match x with
  | inr r => compressedSize r = strlen (compressed r)
  | inl _ => True
  end.

Lemma by_level_sized f1 f2 f3 content level o :
  sized_in_code_units (CSS.by_level f1 f2 f3 content level o).
Proof.
  unfold CSS.by_level.
  destruct (String.eqb level "minimal"); [ destruct (f1 _ _ _); reflexivity | ].
  destruct (String.eqb level "moderate"); [ destruct (f2 _ _ _); reflexivity | ].
  destruct (String.eqb level "aggressive"); [ destruct (f3 _ _ _); reflexivity | ].
  exact I.
Qed.

Lemma compressCSV_sized content level o :
  sized_in_code_units (compressCSV content level o).
Proof.
  unfold compressCSV.
  destruct (filter _ _) as [ | header dataLines ]; [ exact I | ].
  destruct (String.eqb level "minimal").
  { destruct (applyMinimalCSVCompression _ _ _ _) as [[h d] ops]. reflexivity. }
  destruct (String.eqb level "moderate").
  { destruct (applyModerateCSVCompression _ _ _ _) as [[h d] ops]. reflexivity. }
  destruct (String.eqb level "aggressive"); [ | exact I ].
  destruct (applyAggressiveCSVCompression _ _ _ _) as [ e | [[h d] ops] ];
    [ exact I | reflexivity ].
Qed.

Lemma compressJSON_sized data level o :
  sized_in_code_units (compressJSON data level o).
Proof.
  unfold compressJSON.
  destruct (String.eqb level "minimal").
  { destruct (applyMinimalCompression _ _ _). reflexivity. }
  destruct (String.eqb level "moderate").
  { destruct (applyModerateCompression _ _ _). reflexivity. }
  destruct (String.eqb level "aggressive"); [ | exact I ].
  destruct (applyAggressiveCompression _ _ _). reflexivity.
Qed.

(** C7.  The original size is a byte length, but the compressed size
    is the engine's [compressed.length], a count of UTF-16 code units:
    every tier that succeeds is reported with the size that the engine
    returned, and every embedded engine returns the length of the
    compressed text in code units.  On two rows that start with U+00E9
    the minimal tier returns the text unchanged, nine bytes, and the
    preview still reports a reduction of 200/9 percent where the byte
    lengths give zero. *)
Theorem preview_reduction_mixes_bytes_and_code_units :
  (forall (content : jstr) (data : jsval) (level : string) (o : Options),
      sized_in_code_units (HTML.compressHTML content level o)
      /\ sized_in_code_units (CSS.compressCSS content level o)
      /\ sized_in_code_units (SQL.compressSQL content level o)
      /\ sized_in_code_units (XML.compressXML content level o)
      /\ sized_in_code_units (YAML.compressYAML content level o)
      /\ sized_in_code_units (compressCSV content level o)
      /\ sized_in_code_units (compressJSON data level o))
  /\ (forall (f : Engine) (content : jstr) (o : Options) (l : Level),
         match f content (level_name l) o with
         | inr r =>
             let row := run_level f content o (utf8_length content) l in
             size row = compressedSize r
             /\ reduction row
                = percent_reduction (utf8_length content) (compressedSize r)
         | inl _ => True
         end)
  /\ (exists p,
         analyzeFile embedded_engines accented_rows (lit "CSV") ∅ = inr p
         /\ level_compressed (res_minimal (results p)) = Some accented_rows
         /\ preview_originalSize p = 9
         /\ utf8_length accented_rows = 9
         /\ size (res_minimal (results p)) = 7
         /\ reduction (res_minimal (results p)) = Fin (200 # 9)
         /\ percent_reduction (utf8_length accented_rows)
                              (utf8_length accented_rows) = Fin 0).
Proof.
  split; [ | split ].
  - intros content data level o.
    repeat split; try apply by_level_sized.
    + apply compressCSV_sized.
    + apply compressJSON_sized.
  - intros f content o l. unfold run_level.
    destruct (f content (level_name l) o); [ exact I | ].
    split; reflexivity.
  - eexists. split; [ vm_compute; reflexivity | ].
    repeat split; vm_compute; reflexivity.
Qed.

Definition exceeds (x : jsnum) (q : Q) : Prop := gt x q = true.

Lemma gt_or_zero x q : (0 <= q)%Q -> gt (or_zero x) q = gt x q.
Proof.
  intros Hq. destruct x as [ | neg | r ]; unfold or_zero, gt; try reflexivity.
  - unfold Qltb. apply Qle_bool_iff in Hq. rewrite Hq. reflexivity.
  - destruct (Qeq_bool r 0) eqn:E; [ | reflexivity ].
    apply Qeq_bool_iff in E. unfold Qltb. f_equal.
    destruct (Qle_bool 0 q) eqn:E1, (Qle_bool r q) eqn:E2; try reflexivity.
    + apply Qle_bool_iff in E1. rewrite <- E in E1.
      apply Qle_bool_iff in E1. congruence.
    + apply Qle_bool_iff in E2. rewrite E in E2.
      apply Qle_bool_iff in E2. congruence.
Qed.

Lemma gt_mono x p q : (p <= q)%Q -> gt x p = false -> gt x q = false.
Proof.
  intros Hpq. destruct x as [ | neg | r ]; simpl; try tauto.
  unfold Qltb. rewrite !negb_false_iff, !Qle_bool_iff.
  intros H. eapply Qle_trans; eassumption.
Qed.

Lemma limited_reason (r : Results) (l : Level) :
  gt (reduction (result_at r l)) 10 = false ->
  getRecommendationReason r l
  = lit "Limited compression opportunity for this file".
Proof.
  intros H10. unfold getRecommendationReason.
  rewrite !gt_or_zero by (unfold Qle; simpl; lia).
  rewrite (gt_mono _ 10 70), (gt_mono _ 10 50), (gt_mono _ 10 30), H10;
    try assumption; try (unfold Qle; simpl; lia).
  reflexivity.
Qed.

(** The reduction that the preview computes from the run of the engine
    at a level: the percentage of the sizes when the run returns, 0
    when it throws. *)
Definition run_reduction (compressFunc : Engine) (content : jstr)
    (customOptions : Options) (l : Level) : jsnum :=
  match compressFunc content (level_name l) customOptions with
  | inr r => percent_reduction (utf8_length content) (compressedSize r)
  | inl _ => Fin 0
  end.

(** C4.  The preview returns, the reduction it reports for a level is
    the one computed from the run of the engine at that level, a level
    is effective exactly when that reduction exceeds 5, the recommended
    level follows the first matching rule of the policy applied to
    these reductions, and the reason is the fixed sentence when the
    reduction of the recommended level does not exceed 10, so also
    when no reduction does. *)
Theorem recommendation_policy
    (table : jstr -> option Engine) (content fileType : jstr)
    (customOptions : Options) (compressFunc : Engine) :
  table fileType = Some compressFunc ->
  let red := run_reduction compressFunc content customOptions in
  let rule_aggressive := exceeds (red aggressive) 50 /\ exceeds (red aggressive) 5 in
  let rule_moderate := exceeds (red moderate) 30 /\ exceeds (red moderate) 5 in
  let rule_minimal := exceeds (red minimal) 5 in
  exists p,
    analyzeFile table content fileType customOptions = inr p
    /\ (forall l, reduction (result_at (results p) l) = red l)
    /\ effectiveLevels (recommendation p)
       = {| eff_minimal := gt (red minimal) 5;
            eff_moderate := gt (red moderate) 5;
            eff_aggressive := gt (red aggressive) 5 |}
    /\ (rule_aggressive -> level (recommendation p) = aggressive)
    /\ (~ rule_aggressive -> rule_moderate ->
        level (recommendation p) = moderate)
    /\ (~ rule_aggressive -> ~ rule_moderate -> rule_minimal ->
        level (recommendation p) = minimal)
    /\ (~ rule_aggressive -> ~ rule_moderate -> ~ rule_minimal ->
        level (recommendation p) = moderate)
    /\ (~ exceeds (red (level (recommendation p))) 10 ->
        reason (recommendation p)
        = lit "Limited compression opportunity for this file")
    /\ ((forall l, ~ exceeds (red l) 10) ->
        reason (recommendation p)
        = lit "Limited compression opportunity for this file").
Proof.
  intros Hf. cbv zeta. unfold analyzeFile. rewrite Hf. eexists.
  split; [ reflexivity | ].
  assert (Hred : forall l,
             reduction (run_level compressFunc content customOptions
                                  (utf8_length content) l)
             = run_reduction compressFunc content customOptions l).
  { intros l. unfold run_level, run_reduction.
    destruct (compressFunc content (level_name l) customOptions); reflexivity. }
  cbn [results recommendation level effectiveLevels reason result_at
       res_minimal res_moderate res_aggressive
       eff_minimal eff_moderate eff_aggressive].
  rewrite !Hred.
  set (rn := run_reduction compressFunc content customOptions minimal).
  set (rm := run_reduction compressFunc content customOptions moderate).
  set (ra := run_reduction compressFunc content customOptions aggressive).
  unfold exceeds.
  split.
  { intros l. destruct l; cbn [result_at res_minimal res_moderate res_aggressive];
      apply Hred. }
  split; [ reflexivity | ].
  split.
  { intros [-> ->]. reflexivity. }
  split.
  { intros Ha [-> ->].
    destruct (gt ra 50 && gt ra 5) eqn:E; [ | reflexivity ].
    apply andb_prop in E. tauto. }
  split.
  { intros Ha Hm ->.
    destruct (gt ra 50 && gt ra 5) eqn:E; [ apply andb_prop in E; tauto | ].
    destruct (gt rm 30 && gt rm 5) eqn:E'; [ apply andb_prop in E'; tauto | ].
    reflexivity. }
  split.
  { intros Ha Hm Hn.
    destruct (gt ra 50 && gt ra 5) eqn:E; [ apply andb_prop in E; tauto | ].
    destruct (gt rm 30 && gt rm 5) eqn:E'; [ reflexivity | ].
    destruct (gt rn 5) eqn:E''; [ tauto | reflexivity ]. }
  assert (Hlimited :
            forall l,
              gt (run_reduction compressFunc content customOptions l) 10 <> true ->
              getRecommendationReason
                {| res_minimal := run_level compressFunc content customOptions
                                            (utf8_length content) minimal;
                   res_moderate := run_level compressFunc content customOptions
                                             (utf8_length content) moderate;
                   res_aggressive := run_level compressFunc content customOptions
                                               (utf8_length content) aggressive |} l
              = lit "Limited compression opportunity for this file").
  { intros l Hl. apply limited_reason.
    destruct l; cbn [result_at res_minimal res_moderate res_aggressive];
      rewrite Hred; apply not_true_is_false; exact Hl. }
  split.
  { intros H. apply Hlimited. exact H. }
  intros Hall. apply Hlimited. apply Hall.
Qed.

(** C9.  Each level's entry of the preview is computed from the
    outcome of the engine at that level alone: a level whose run throws
    reports the original size, a reduction of 0, no operations and the
    error message, and the two other entries are what their own runs
    give.  The analysis itself returns. *)
Theorem tier_failures_are_isolated
    (table : jstr -> option Engine) (content fileType : jstr)
    (customOptions : Options) (compressFunc : Engine) :
  table fileType = Some compressFunc ->
  exists p,
    analyzeFile table content fileType customOptions = inr p
    /\ forall l,
        match compressFunc content (level_name l) customOptions with
        | inl e =>
            result_at (results p) l
            = {| size := utf8_length content;
                 reduction := Fin 0;
                 level_operations := [];
                 level_compressed := None;
                 error := Some (exn_message e) |}
        | inr r =>
            result_at (results p) l
            = {| size := compressedSize r;
                 reduction :=
                   percent_reduction (utf8_length content) (compressedSize r);
                 level_operations := operations r;
                 level_compressed := Some (compressed r);
                 error := None |}
        end.
Proof.
  intros Hf. unfold analyzeFile. rewrite Hf. eexists. split; [ reflexivity | ].
  intros l. simpl.
  destruct l; simpl; unfold run_level;
    destruct (compressFunc content _ customOptions); reflexivity.
Qed.

(** ** The discipline of the operation log *)

(** An entry is guarded when the test recorded with it holds. *)
Definition guarded (e : Entry) : Prop :=
  match snd e with
  | Shrunk before after => (after < before)%nat
  | Counted n => gt n 0 = true
  | Unguarded => False
  end.

(** The entries that the engines append without measuring anything. *)
Definition unguarded_types : list jstr :=
  map lit ["inline_styles"; "remove_unused_css"; "merge_duplicate_selectors";
           "convert_to_flow_style"; "remove_non_essential_columns";
           "statistical_sampling"]%string.

Definition entry_ok (e : Entry) : Prop :=
  guarded e \/ (snd e = Unguarded /\ In (op_type (fst e)) unguarded_types).

Definition disciplined (x : exn + CompressionResult) : Prop :=
  match x with
  | inr r => Forall entry_ok (log r)
  | inl _ => True
  end.

Lemma push_ok (ops : list Entry) (e : Entry) :
  Forall entry_ok ops -> entry_ok e -> Forall entry_ok (ops ++ [e]).
Proof.
  intros H He. apply Forall_app. split; [ assumption | ].
  constructor; [ assumption | constructor ].
Qed.

Lemma push_if_shorter_ok before after op ops :
  Forall entry_ok ops -> Forall entry_ok (push_if_shorter before after op ops).
Proof.
  intros H. unfold push_if_shorter.
  destruct (length after <? before)%nat eqn:E; [ | assumption ].
  apply push_ok; [ assumption | ]. left. apply Nat.ltb_lt in E. exact E.
Qed.

Lemma counted_ok (op : Operation) (n : nat) :
  (0 <? n)%nat = true -> entry_ok (op, counted n).
Proof.
  intros E. left. unfold guarded, counted, gt, Qltb. simpl.
  apply Nat.ltb_lt in E. rewrite negb_true_iff.
  destruct (Qle_bool (inject_Z (Z.of_nat n)) 0) eqn:E'; [ | reflexivity ].
  apply Qle_bool_iff in E'. unfold Qle in E'. simpl in E'. lia.
Qed.

Lemma shrunk_ok (op : Operation) (before after : nat) :
  (after <? before)%nat = true -> entry_ok (op, Shrunk before after).
Proof. intros E. left. apply Nat.ltb_lt in E. exact E. Qed.

Lemma exceeded_ok (op : Operation) (x : jsnum) (w : nat) :
  ltb x (of_nat w) = true -> entry_ok (op, Counted (sub (of_nat w) x)).
Proof.
  intros E. left. unfold guarded. simpl.
  destruct x as [ | neg | q ]; simpl in *; try discriminate.
  - rewrite E. reflexivity.
  - unfold Qltb in *. rewrite negb_true_iff in *.
    destruct (Qle_bool (Qred _) 0) eqn:E'; [ | reflexivity ].
    apply Qle_bool_iff in E'. rewrite Qred_correct in E'.
    assert (Hle : (inject_Z (Z.of_nat w) <= q)%Q).
    { apply Qplus_le_l with (z := (- q)%Q). rewrite Qplus_opp_r. exact E'. }
    apply Qle_bool_iff in Hle. congruence.
Qed.

Lemma unguarded_ok (op : Operation) :
  In (op_type op) unguarded_types -> entry_ok (op, Unguarded).
Proof. intros H. right. split; [ reflexivity | exact H ]. Qed.

(** Splits the conditionals of a tier, one test at a time. *)
Ltac split_tier :=
  cbv zeta;
  repeat match goal with
    | |- context [if ?b then _ else _] => destruct b eqn:?
    | |- context [match ?x with [] => _ | _ :: _ => _ end] => destruct x eqn:?
    | |- context [let '(_, _) := ?x in _] =>
        lazymatch x with
        | (let '(_, _) := _ in _) => fail
        | _ => destruct x as [? ?]
        end
    end; cbn [fst snd].

Ltac close_log :=
  cbn [fst snd];
  repeat first
    [ assumption
    | apply push_if_shorter_ok
    | apply push_ok; [ | first [ apply counted_ok; assumption
                               | apply shrunk_ok; assumption
                               | apply exceeded_ok; assumption
                               | apply unguarded_ok; vm_compute; tauto ] ] ].

(** Proves that the log is in order after the next stage of a tier,
    then moves past that stage. *)
Ltac stage_by tac :=
  match goal with
  | |- context [let '(_, _) := ?x in _] =>
      lazymatch x with
      | (let '(_, _) := _ in _) => fail
      | _ =>
          let H := fresh "Hst" in
          assert (H : Forall entry_ok (snd x));
          [ split_tier; close_log; tac
          | destruct x as [? ?]; cbn [snd] in H ]
      end
  end.

Ltac stage := stage_by idtac.

Ltac staged := cbv zeta; repeat stage; split_tier; close_log.

Lemma css_minimal_ok css ops o :
  Forall entry_ok ops ->
  Forall entry_ok (snd (CSS.applyMinimalCSSCompression css ops o)).
Proof.
  intros H. unfold CSS.applyMinimalCSSCompression.
  destruct (opt_not_false o "removeComments"); close_log.
Qed.

Lemma css_moderate_ok css ops o :
  Forall entry_ok ops ->
  Forall entry_ok (snd (CSS.applyModerateCSSCompression css ops o)).
Proof.
  intros H. unfold CSS.applyModerateCSSCompression.
  pose proof (css_minimal_ok css ops o H) as Hm.
  destruct (CSS.applyMinimalCSSCompression css ops o) as [m ops']. close_log.
Qed.

Lemma css_aggressive_ok css ops o :
  Forall entry_ok ops ->
  Forall entry_ok (snd (CSS.applyAggressiveCSSCompression css ops o)).
Proof.
  intros H. unfold CSS.applyAggressiveCSSCompression.
  pose proof (css_moderate_ok css ops o H) as Hm.
  destruct (CSS.applyModerateCSSCompression css ops o) as [m ops'].
  destruct (opt_truthy o "removeUnused"), (opt_truthy o "mergeDuplicates");
    close_log.
Qed.

Lemma by_level_ok (f1 f2 f3 : jstr -> list Entry -> Options -> jstr * list Entry)
    content level o :
  (forall c, Forall entry_ok (snd (f1 c [] o))) ->
  (forall c, Forall entry_ok (snd (f2 c [] o))) ->
  (forall c, Forall entry_ok (snd (f3 c [] o))) ->
  disciplined (CSS.by_level f1 f2 f3 content level o).
Proof.
  intros H1 H2 H3. unfold CSS.by_level.
  destruct (String.eqb level "minimal").
  { specialize (H1 content). destruct (f1 content [] o). exact H1. }
  destruct (String.eqb level "moderate").
  { specialize (H2 content). destruct (f2 content [] o). exact H2. }
  destruct (String.eqb level "aggressive").
  { specialize (H3 content). destruct (f3 content [] o). exact H3. }
  exact I.
Qed.

Lemma html_minimal_ok html ops o :
  Forall entry_ok ops ->
  Forall entry_ok (snd (HTML.applyMinimalHTMLCompression html ops o)).
Proof.
  intros H. unfold HTML.applyMinimalHTMLCompression. split_tier; close_log.
Qed.

Lemma html_moderate_ok html ops o :
  Forall entry_ok ops ->
  Forall entry_ok (snd (HTML.applyModerateHTMLCompression html ops o)).
Proof.
  intros H. unfold HTML.applyModerateHTMLCompression.
  pose proof (html_minimal_ok html ops o H) as Hm.
  destruct (HTML.applyMinimalHTMLCompression html ops o) as [m ops'].
  cbn [snd] in Hm. close_log.
Qed.

Lemma html_aggressive_ok html ops o :
  Forall entry_ok ops ->
  Forall entry_ok (snd (HTML.applyAggressiveHTMLCompression html ops o)).
Proof.
  intros H. unfold HTML.applyAggressiveHTMLCompression.
  pose proof (html_moderate_ok html ops o H) as Hm.
  destruct (HTML.applyModerateHTMLCompression html ops o) as [m ops'].
  cbn [snd] in Hm. staged.
Qed.

Lemma xml_minimal_ok xml ops o :
  Forall entry_ok ops ->
  Forall entry_ok (snd (XML.applyMinimalXMLCompression xml ops o)).
Proof.
  intros H. unfold XML.applyMinimalXMLCompression. staged.
Qed.

Lemma xml_moderate_ok xml ops o :
  Forall entry_ok ops ->
  Forall entry_ok (snd (XML.applyModerateXMLCompression xml ops o)).
Proof.
  intros H. unfold XML.applyModerateXMLCompression.
  pose proof (xml_minimal_ok xml ops o H) as Hm.
  destruct (XML.applyMinimalXMLCompression xml ops o) as [m ops'].
  cbn [snd] in Hm. staged.
Qed.

Lemma xml_aggressive_ok xml ops o :
  Forall entry_ok ops ->
  Forall entry_ok (snd (XML.applyAggressiveXMLCompression xml ops o)).
Proof.
  intros H. unfold XML.applyAggressiveXMLCompression.
  pose proof (xml_moderate_ok xml ops o H) as Hm.
  destruct (XML.applyModerateXMLCompression xml ops o) as [m ops'].
  cbn [snd] in Hm. staged.
Qed.

Lemma sql_minimal_ok sql ops o :
  Forall entry_ok ops ->
  Forall entry_ok (snd (SQL.applyMinimalSQLCompression sql ops o)).
Proof.
  intros H. unfold SQL.applyMinimalSQLCompression. split_tier; close_log.
Qed.

Lemma sql_moderate_ok sql ops o :
  Forall entry_ok ops ->
  Forall entry_ok (snd (SQL.applyModerateSQLCompression sql ops o)).
Proof.
  intros H. unfold SQL.applyModerateSQLCompression.
  pose proof (sql_minimal_ok sql ops o H) as Hm.
  destruct (SQL.applyMinimalSQLCompression sql ops o) as [m ops'].
  cbn [snd] in Hm. staged.
Qed.

Lemma sql_aggressive_ok sql ops o :
  Forall entry_ok ops ->
  Forall entry_ok (snd (SQL.applyAggressiveSQLCompression sql ops o)).
Proof.
  intros H. unfold SQL.applyAggressiveSQLCompression.
  pose proof (sql_moderate_ok sql ops o H) as Hm.
  destruct (SQL.applyModerateSQLCompression sql ops o) as [m ops'].
  cbn [snd] in Hm. staged.
Qed.

Lemma yaml_minimal_ok yaml ops o :
  Forall entry_ok ops ->
  Forall entry_ok (snd (YAML.applyMinimalYAMLCompression yaml ops o)).
Proof.
  intros H. unfold YAML.applyMinimalYAMLCompression. split_tier; close_log.
Qed.

Lemma yaml_moderate_ok yaml ops o :
  Forall entry_ok ops ->
  Forall entry_ok (snd (YAML.applyModerateYAMLCompression yaml ops o)).
Proof.
  intros H. unfold YAML.applyModerateYAMLCompression.
  pose proof (yaml_minimal_ok yaml ops o H) as Hm.
  destruct (YAML.applyMinimalYAMLCompression yaml ops o) as [m ops'].
  cbn [snd] in Hm. staged.
Qed.

Lemma yaml_aggressive_ok yaml ops o :
  Forall entry_ok ops ->
  Forall entry_ok (snd (YAML.applyAggressiveYAMLCompression yaml ops o)).
Proof.
  intros H. unfold YAML.applyAggressiveYAMLCompression.
  pose proof (yaml_moderate_ok yaml ops o H) as Hm.
  destruct (YAML.applyModerateYAMLCompression yaml ops o) as [m ops'].
  cbn [snd] in Hm. staged.
Qed.

Lemma csv_minimal_ok header dataLines ops o :
  Forall entry_ok ops ->
  Forall entry_ok (snd (applyMinimalCSVCompression header dataLines ops o)).
Proof.
  intros H. unfold applyMinimalCSVCompression. split_tier; close_log.
Qed.

Lemma csv_moderate_ok header dataLines ops o :
  Forall entry_ok ops ->
  Forall entry_ok (snd (applyModerateCSVCompression header dataLines ops o)).
Proof.
  intros H. unfold applyModerateCSVCompression.
  pose proof (csv_minimal_ok header dataLines ops o H) as Hm.
  destruct (applyMinimalCSVCompression header dataLines ops o) as [[h d] ops'].
  cbn [snd] in Hm. staged.
Qed.

Lemma remove_outliers_in_ok colIndex st :
  Forall entry_ok (snd st) ->
  Forall entry_ok (snd (remove_outliers_in colIndex st)).
Proof.
  intros H. destruct st as [d ops]. unfold remove_outliers_in.
  cbn [snd] in H. split_tier; close_log.
Qed.

Lemma remove_outliers_ok cols st :
  Forall entry_ok (snd st) ->
  Forall entry_ok
    (snd (fold_left (fun st colIndex => remove_outliers_in colIndex st) cols st)).
Proof.
  revert st. induction cols as [ | c cols IH ]; intros st H; simpl.
  - exact H.
  - apply IH. apply remove_outliers_in_ok. exact H.
Qed.


Lemma csv_aggressive_ok header dataLines ops o :
  Forall entry_ok ops ->
  match applyAggressiveCSVCompression header dataLines ops o with
  | inr r => Forall entry_ok (snd r)
  | inl _ => True
  end.
Proof.
  intros H. unfold applyAggressiveCSVCompression.
  pose proof (csv_moderate_ok header dataLines ops o H) as Hm.
  destruct (applyModerateCSVCompression header dataLines ops o) as [[h d] ops'].
  cbn [snd] in Hm. cbv zeta.
  stage. stage.
  match goal with
  | |- match (match ?x with inl _ => _ | inr _ => _ end) with _ => _ end =>
      assert (Hne : match x with
                    | inl _ => True
                    | inr r => Forall entry_ok (snd r)
                    end);
      [ | destruct x as [ e | [d2 ops2] ]; [ exact I | cbn [snd] in Hne ] ]
  end.
  { split_tier; try exact I; repeat case_match; try exact I;
    try match goal with
        | H : inl _ = inr _ |- _ => discriminate H
        | H : inr _ = inr _ |- _ => injection H as <-
        end;
    close_log. }
  stage_by ltac:(apply remove_outliers_ok; close_log). stage. exact Hst2.
Qed.

Lemma log_count_ok type extra count reversible impact ops :
  Forall entry_ok ops ->
  Forall entry_ok (log_count type extra count reversible impact ops).
Proof.
  intros H. unfold log_count. split_tier; close_log.
Qed.

Lemma json_minimal_ok data ops o :
  Forall entry_ok ops ->
  Forall entry_ok (snd (applyMinimalCompression data ops o)).
Proof.
  intros H. unfold applyMinimalCompression. split_tier;
    repeat (apply log_count_ok); assumption.
Qed.

Lemma json_moderate_ok data ops o :
  Forall entry_ok ops ->
  Forall entry_ok (snd (applyModerateCompression data ops o)).
Proof.
  intros H. unfold applyModerateCompression.
  pose proof (json_minimal_ok data ops o H) as Hm.
  destruct (applyMinimalCompression data ops o) as [d ops'].
  cbn [snd] in Hm. split_tier; repeat (apply log_count_ok); close_log.
Qed.

Lemma json_aggressive_ok data ops o :
  Forall entry_ok ops ->
  Forall entry_ok (snd (applyAggressiveCompression data ops o)).
Proof.
  intros H. unfold applyAggressiveCompression.
  pose proof (json_moderate_ok data ops o H) as Hm.
  destruct (applyModerateCompression data ops o) as [d ops'].
  cbn [snd] in Hm. split_tier; repeat (apply log_count_ok); close_log.
Qed.

Lemma compressCSV_disciplined content level o :
  disciplined (compressCSV content level o).
Proof.
  unfold compressCSV.
  destruct (filter _ _) as [ | header dataLines ]; [ exact I | ].
  destruct (String.eqb level "minimal").
  { pose proof (csv_minimal_ok header dataLines [] o (List.Forall_nil _)) as Hm.
    destruct (applyMinimalCSVCompression header dataLines [] o) as [[h d] ops].
    exact Hm. }
  destruct (String.eqb level "moderate").
  { pose proof (csv_moderate_ok header dataLines [] o (List.Forall_nil _)) as Hm.
    destruct (applyModerateCSVCompression header dataLines [] o) as [[h d] ops].
    exact Hm. }
  destruct (String.eqb level "aggressive"); [ | exact I ].
  pose proof (csv_aggressive_ok header dataLines [] o (List.Forall_nil _)) as Hm.
  destruct (applyAggressiveCSVCompression header dataLines [] o)
    as [ e | [[h d] ops] ]; [ exact I | exact Hm ].
Qed.

Lemma compressJSON_disciplined data level o :
  disciplined (compressJSON data level o).
Proof.
  unfold compressJSON.
  destruct (String.eqb level "minimal").
  { pose proof (json_minimal_ok (clone data) [] o (List.Forall_nil _)) as Hm.
    destruct (applyMinimalCompression (clone data) [] o). exact Hm. }
  destruct (String.eqb level "moderate").
  { pose proof (json_moderate_ok (clone data) [] o (List.Forall_nil _)) as Hm.
    destruct (applyModerateCompression (clone data) [] o). exact Hm. }
  destruct (String.eqb level "aggressive"); [ | exact I ].
  pose proof (json_aggressive_ok (clone data) [] o (List.Forall_nil _)) as Hm.
  destruct (applyAggressiveCompression (clone data) [] o). exact Hm.
Qed.

(** The tests around the pushes.  In the HTML, CSS, SQL, XML, YAML, CSV
    and JSON engines the test recorded with an entry holds, for every
    entry but those of six types that are appended without a test: the
    style inlining placeholder of the aggressive HTML tier, the two
    placeholders of the aggressive CSS tier, the flow-style conversion
    of YAML, and the removal of non-essential columns and the
    statistical sampling of CSV.  This is a statement about the tests
    in the code only; what the entries say about the content is stated
    for the minimal tiers at the end of the development. *)
Lemma log_discipline
    (content : jstr) (data : jsval) (level : string) (customOptions : Options) :
  disciplined (HTML.compressHTML content level customOptions)
  /\ disciplined (CSS.compressCSS content level customOptions)
  /\ disciplined (SQL.compressSQL content level customOptions)
  /\ disciplined (XML.compressXML content level customOptions)
  /\ disciplined (YAML.compressYAML content level customOptions)
  /\ disciplined (compressCSV content level customOptions)
  /\ disciplined (compressJSON data level customOptions).
Proof.
  repeat split.
  - apply by_level_ok; intros c.
    + apply html_minimal_ok; constructor.
    + apply html_moderate_ok; constructor.
    + apply html_aggressive_ok; constructor.
  - apply by_level_ok; intros c.
    + apply css_minimal_ok; constructor.
    + apply css_moderate_ok; constructor.
    + apply css_aggressive_ok; constructor.
  - apply by_level_ok; intros c.
    + apply sql_minimal_ok; constructor.
    + apply sql_moderate_ok; constructor.
    + apply sql_aggressive_ok; constructor.
  - apply by_level_ok; intros c.
    + apply xml_minimal_ok; constructor.
    + apply xml_moderate_ok; constructor.
    + apply xml_aggressive_ok; constructor.
  - apply by_level_ok; intros c.
    + apply yaml_minimal_ok; constructor.
    + apply yaml_moderate_ok; constructor.
    + apply yaml_aggressive_ok; constructor.
  - apply compressCSV_disciplined.
  - apply compressJSON_disciplined.
Qed.



(** ** Recorded mappings *)

(** An entry that holds no field named [mapping]. *)
Definition unmapped (e : Entry) : Prop := op_field "mapping" (fst e) = None.

Lemma push_unmapped (ops : list Entry) (e : Entry) :
  Forall unmapped ops -> unmapped e -> Forall unmapped (ops ++ [e]).
Proof.
  intros H He. apply Forall_app. split; [ assumption | ].
  constructor; [ assumption | constructor ].
Qed.

Lemma push_if_shorter_unmapped before after op ops :
  op_field "mapping" op = None ->
  Forall unmapped ops -> Forall unmapped (push_if_shorter before after op ops).
Proof.
  intros Hop H. unfold push_if_shorter.
  destruct (length after <? before)%nat; [ | assumption ].
  apply push_unmapped; [ assumption | exact Hop ].
Qed.

Lemma log_count_unmapped type extra count reversible impact ops :
  op_field "mapping" extra = None ->
  Forall unmapped ops ->
  Forall unmapped (log_count type extra count reversible impact ops).
Proof.
  intros He H. unfold log_count.
  destruct (0 <? count)%nat; [ | assumption ].
  apply push_unmapped; [ assumption | ].
  unfold unmapped. cbn [fst app op_field String.eqb Ascii.eqb Bool.eqb].
  induction extra as [ | [k v] extra IH ]; [ reflexivity | ].
  cbn [app op_field] in *. destruct (String.eqb k "mapping"); [ discriminate | ].
  apply IH. exact He.
Qed.

Ltac close_unmapped :=
  cbn [fst snd];
  repeat first
    [ assumption
    | apply push_if_shorter_unmapped; [ reflexivity | ]
    | apply log_count_unmapped; [ reflexivity | ]
    | apply push_unmapped; [ | reflexivity ] ].

Ltac stage_unmapped tac :=
  match goal with
  | |- context [let '(_, _) := ?x in _] =>
      lazymatch x with
      | (let '(_, _) := _ in _) => fail
      | _ =>
          let H := fresh "Hst" in
          assert (H : Forall unmapped (snd x));
          [ split_tier; close_unmapped; tac
          | destruct x as [? ?]; cbn [snd] in H ]
      end
  end.

Ltac staged_unmapped :=
  cbv zeta; repeat (stage_unmapped idtac); split_tier; close_unmapped.

Lemma csv_minimal_unmapped header dataLines ops o :
  Forall unmapped ops ->
  Forall unmapped (snd (applyMinimalCSVCompression header dataLines ops o)).
Proof.
  intros H. unfold applyMinimalCSVCompression. split_tier; close_unmapped.
Qed.

Lemma csv_moderate_unmapped header dataLines ops o :
  Forall unmapped ops ->
  Forall unmapped (snd (applyModerateCSVCompression header dataLines ops o)).
Proof.
  intros H. unfold applyModerateCSVCompression.
  pose proof (csv_minimal_unmapped header dataLines ops o H) as Hm.
  destruct (applyMinimalCSVCompression header dataLines ops o) as [[h d] ops'].
  cbn [snd] in Hm. staged_unmapped.
Qed.

Lemma remove_outliers_in_unmapped colIndex st :
  Forall unmapped (snd st) ->
  Forall unmapped (snd (remove_outliers_in colIndex st)).
Proof.
  intros H. destruct st as [d ops]. unfold remove_outliers_in.
  cbn [snd] in H. split_tier; close_unmapped.
Qed.

Lemma remove_outliers_unmapped cols st :
  Forall unmapped (snd st) ->
  Forall unmapped
    (snd (fold_left (fun st colIndex => remove_outliers_in colIndex st) cols st)).
Proof.
  revert st. induction cols as [ | c cols IH ]; intros st H; simpl.
  - exact H.
  - apply IH. apply remove_outliers_in_unmapped. exact H.
Qed.

Lemma csv_aggressive_unmapped header dataLines ops o :
  Forall unmapped ops ->
  match applyAggressiveCSVCompression header dataLines ops o with
  | inr r => Forall unmapped (snd r)
  | inl _ => True
  end.
Proof.
  intros H. unfold applyAggressiveCSVCompression.
  pose proof (csv_moderate_unmapped header dataLines ops o H) as Hm.
  destruct (applyModerateCSVCompression header dataLines ops o) as [[h d] ops'].
  cbn [snd] in Hm. cbv zeta.
  stage_unmapped idtac. stage_unmapped idtac.
  match goal with
  | |- match (match ?x with inl _ => _ | inr _ => _ end) with _ => _ end =>
      assert (Hne : match x with
                    | inl _ => True
                    | inr r => Forall unmapped (snd r)
                    end);
      [ | destruct x as [ e | [d2 ops2] ]; [ exact I | cbn [snd] in Hne ] ]
  end.
  { split_tier; try exact I; repeat case_match; try exact I;
    try match goal with
        | H : inl _ = inr _ |- _ => discriminate H
        | H : inr _ = inr _ |- _ => injection H as <-
        end;
    close_unmapped. }
  stage_unmapped ltac:(apply remove_outliers_unmapped; close_unmapped).
  stage_unmapped idtac. exact Hst2.
Qed.

Lemma json_minimal_unmapped data ops o :
  Forall unmapped ops ->
  Forall unmapped (snd (applyMinimalCompression data ops o)).
Proof.
  intros H. unfold applyMinimalCompression. split_tier; close_unmapped.
Qed.

Lemma json_moderate_unmapped data ops o :
  Forall unmapped ops ->
  Forall unmapped (snd (applyModerateCompression data ops o)).
Proof.
  intros H. unfold applyModerateCompression.
  pose proof (json_minimal_unmapped data ops o H) as Hm.
  destruct (applyMinimalCompression data ops o) as [d ops'].
  cbn [snd] in Hm. split_tier; close_unmapped.
Qed.

Lemma json_aggressive_unmapped data ops o :
  Forall unmapped ops ->
  Forall unmapped (snd (applyAggressiveCompression data ops o)).
Proof.
  intros H. unfold applyAggressiveCompression.
  pose proof (json_moderate_unmapped data ops o H) as Hm.
  destruct (applyModerateCompression data ops o) as [d ops'].
  cbn [snd] in Hm. split_tier; close_unmapped.
Qed.

Definition records_no_mapping (x : exn + CompressionResult) : Prop :=
  match x with
  | inr r => Forall (fun op => op_field "mapping" op = None) (operations r)
  | inl _ => True
  end.

Lemma unmapped_operations (l : list Entry) :
  Forall unmapped l ->
  Forall (fun op => op_field "mapping" op = None) (map fst l).
Proof.
  intros H. apply Forall_map. exact H.
Qed.

Lemma compressCSV_unmapped content level o :
  records_no_mapping (compressCSV content level o).
Proof.
  unfold compressCSV.
  destruct (filter _ _) as [ | header dataLines ]; [ exact I | ].
  destruct (String.eqb level "minimal").
  { pose proof (csv_minimal_unmapped header dataLines [] o (List.Forall_nil _)) as Hm.
    destruct (applyMinimalCSVCompression header dataLines [] o) as [[h d] ops].
    apply unmapped_operations. exact Hm. }
  destruct (String.eqb level "moderate").
  { pose proof (csv_moderate_unmapped header dataLines [] o (List.Forall_nil _)) as Hm.
    destruct (applyModerateCSVCompression header dataLines [] o) as [[h d] ops].
    apply unmapped_operations. exact Hm. }
  destruct (String.eqb level "aggressive"); [ | exact I ].
  pose proof (csv_aggressive_unmapped header dataLines [] o (List.Forall_nil _)) as Hm.
  destruct (applyAggressiveCSVCompression header dataLines [] o)
    as [ e | [[h d] ops] ]; [ exact I | ].
  apply unmapped_operations. exact Hm.
Qed.

Lemma compressJSON_unmapped data level o :
  records_no_mapping (compressJSON data level o).
Proof.
  unfold compressJSON.
  destruct (String.eqb level "minimal").
  { pose proof (json_minimal_unmapped (clone data) [] o (List.Forall_nil _)) as Hm.
    destruct (applyMinimalCompression (clone data) [] o).
    apply unmapped_operations. exact Hm. }
  destruct (String.eqb level "moderate").
  { pose proof (json_moderate_unmapped (clone data) [] o (List.Forall_nil _)) as Hm.
    destruct (applyModerateCompression (clone data) [] o).
    apply unmapped_operations. exact Hm. }
  destruct (String.eqb level "aggressive"); [ | exact I ].
  pose proof (json_aggressive_unmapped (clone data) [] o (List.Forall_nil _)) as Hm.
  destruct (applyAggressiveCompression (clone data) [] o).
  apply unmapped_operations. exact Hm.
Qed.

Definition one_key_object : jsval := VObj [(lit "name", VStr (lit "x"))].

Definition long_yaml_key : jstr := text_lines ["configuration: 1"].

(** The sibling engine for YAML does record the mapping of the keys it
    shortens. *)
Lemma yaml_shorten_keys_records_mapping :
  exists r,
    YAML.compressYAML long_yaml_key "aggressive" {[ "shortenKeys" := VBool true ]}
    = inr r
    /\ compressed r = lit "k0: 1"
    /\ map (op_field "mapping") (operations r)
       = [Some (VObj [(lit "configuration", VStr (lit "k0"))])].
Proof.
  eexists. split; [ vm_compute; reflexivity | ].
  split; vm_compute; reflexivity.
Qed.

(** C1.  The entries logged for key shortening (JSON) and for
    dictionary encoding (CSV) carry no mapping at all.  Whatever the
    input, the tier and the options, no entry of the log of either
    engine holds a field named [mapping]; and on concrete inputs the
    key [name] is replaced by the code 0 and the countries by the
    codes 0, 1, 2, while the logged objects only hold the fields listed
    below, without any key-to-code map or code-to-value dictionary. *)
Theorem reversible_entries_record_no_mapping :
  (forall (data : jsval) (content : jstr) (level : string) (o : Options),
      records_no_mapping (compressJSON data level o)
      /\ records_no_mapping (compressCSV content level o))
  /\ (exists r,
         compressJSON one_key_object "moderate" ∅ = inr r
         /\ compressed r = stringify (VObj [(lit "0", VStr (lit "x"))])
         /\ map (map fst) (operations r)
            = [["type"; "count"; "reversible"; "impact"]]%string
         /\ map op_type (operations r) = [lit "shorten_keys"])
  /\ (exists r,
         compressCSV scenario2 "moderate" ∅ = inr r
         /\ map (map fst) (filter (fun op => has_type "dictionary_encoding" op = true)
                                  (operations r))
            = [["type"; "columns"; "unique_values_saved"; "reversible";
                "impact"; "description"]]%string
         /\ map (fun l => fields_of l !! 1%nat) (skipn 1 (split newline (compressed r)))
            = map (fun c => Some (lit c)) ["2"; "2"; "0"; "1"; "2"]%string).
Proof.
  split; [ | split ].
  - intros data content level o. split.
    + apply compressJSON_unmapped.
    + apply compressCSV_unmapped.
  - eexists. split; [ vm_compute; reflexivity | ].
    repeat split; vm_compute; reflexivity.
  - eexists. split; [ vm_compute; reflexivity | ].
    repeat split; vm_compute; reflexivity.
Qed.

(** ** Blank lines in the CSV engine *)

Lemma split_not_nil sep s : split sep s <> [].
Proof.
  destruct s as [ | c s ]; simpl; [ discriminate | ].
  destruct (c =? sep); [ discriminate | ].
  destruct (split sep s); discriminate.
Qed.

Lemma join_cons sep x l :
  l <> [] -> join sep (x :: l) = x ++ sep ++ join sep l.
Proof. destruct l; [ congruence | reflexivity ]. Qed.

Lemma join_split sep s : join [sep] (split sep s) = s.
Proof.
  induction s as [ | c s IH ]; simpl; [ reflexivity | ].
  destruct (c =? sep) eqn:E.
  - apply N.eqb_eq in E. subst c.
    rewrite join_cons by apply split_not_nil. simpl. rewrite IH. reflexivity.
  - pose proof (split_not_nil sep s) as Hne.
    destruct (split sep s) as [ | f fs ]; [ congruence | ].
    destruct fs as [ | g fs ].
    + simpl in *. rewrite IH. reflexivity.
    + rewrite join_cons by discriminate. rewrite join_cons in IH by discriminate.
      simpl. rewrite <- IH. reflexivity.
Qed.

Lemma split_no_sep sep s : Forall (fun f => ~ In sep f) (split sep s).
Proof.
  induction s as [ | c s IH ]; simpl.
  - constructor; [ intros [] | constructor ].
  - destruct (c =? sep) eqn:E.
    + constructor; [ intros [] | exact IH ].
    + apply N.eqb_neq in E.
      destruct (split sep s) as [ | f fs ].
      * constructor; [ | constructor ]. intros [ H | [] ]. congruence.
      * inversion IH as [ | ? ? Hf Hfs ]; subst.
        constructor; [ | exact Hfs ]. intros [ H | H ]; [ congruence | tauto ].
Qed.

Lemma split_whole sep x : ~ In sep x -> split sep x = [x].
Proof.
  induction x as [ | c x IH ]; intros H; simpl; [ reflexivity | ].
  destruct (c =? sep) eqn:E.
  - apply N.eqb_eq in E. subst. exfalso. apply H. left. reflexivity.
  - rewrite IH; [ reflexivity | ]. intros Hin. apply H. right. exact Hin.
Qed.

Lemma split_app_sep sep x rest :
  ~ In sep x -> split sep (x ++ sep :: rest) = x :: split sep rest.
Proof.
  induction x as [ | c x IH ]; intros H; simpl.
  - rewrite N.eqb_refl. reflexivity.
  - destruct (c =? sep) eqn:E.
    + apply N.eqb_eq in E. subst. exfalso. apply H. left. reflexivity.
    + rewrite IH; [ reflexivity | ]. intros Hin. apply H. right. exact Hin.
Qed.

Lemma split_join sep ls :
  ls <> [] -> Forall (fun f => ~ In sep f) ls -> split sep (join [sep] ls) = ls.
Proof.
  induction ls as [ | x ls IH ]; intros Hne H; [ congruence | ].
  inversion H as [ | ? ? Hx Hls ]; subst.
  destruct ls as [ | y ls ].
  - simpl. apply split_whole. exact Hx.
  - rewrite join_cons by discriminate.
    change (x ++ [sep] ++ join [sep] (y :: ls))
      with (x ++ sep :: join [sep] (y :: ls)).
    rewrite split_app_sep by exact Hx. rewrite IH; [ reflexivity | discriminate | exact Hls ].
Qed.

(** A string has a character that is not white space. *)
Definition has_ink (s : jstr) : bool := existsb (fun c => negb (is_ws c)) s.

Lemma has_ink_trimStart s : has_ink (trimStart s) = has_ink s.
Proof.
  induction s as [ | c s IH ]; simpl; [ reflexivity | ].
  destruct (is_ws c) eqn:E; simpl; rewrite ?E; [ exact IH | reflexivity ].
Qed.

Lemma trimStart_ink s : trimStart s = [] \/ has_ink (trimStart s) = true.
Proof.
  induction s as [ | c s IH ]; simpl; [ left; reflexivity | ].
  destruct (is_ws c) eqn:E; [ exact IH | ].
  right. simpl. rewrite E. reflexivity.
Qed.

Lemma has_ink_rev s : has_ink (rev s) = has_ink s.
Proof.
  unfold has_ink. induction s as [ | c s IH ]; [ reflexivity | ].
  simpl. rewrite existsb_app, IH. simpl.
  rewrite orb_false_r. apply orb_comm.
Qed.

Lemma has_ink_trim s : has_ink (trim s) = has_ink s.
Proof.
  unfold trim, trimEnd.
  rewrite has_ink_rev, has_ink_trimStart, has_ink_rev, has_ink_trimStart.
  reflexivity.
Qed.

Lemma nonblank_ink s : nonblank s = has_ink s.
Proof.
  rewrite <- has_ink_trim. unfold nonblank.
  destruct (trim s) as [ | c t ] eqn:E; [ reflexivity | ].
  unfold trim, trimEnd in E.
  destruct (trimStart_ink (rev (trimStart s))) as [ H | H ].
  - rewrite H in E. discriminate.
  - rewrite <- has_ink_rev in H. rewrite E in H. symmetry. exact H.
Qed.

Lemma has_ink_join fs :
  has_ink (join [comma] fs) = (1 <? length fs)%nat || existsb has_ink fs.
Proof.
  induction fs as [ | f fs IH ]; [ reflexivity | ].
  destruct fs as [ | g fs ].
  - simpl. rewrite orb_false_r. reflexivity.
  - rewrite join_cons by discriminate. unfold has_ink at 1.
    rewrite !existsb_app. fold (has_ink f). fold (has_ink (join [comma] (g :: fs))).
    rewrite IH. simpl. destruct (has_ink f); reflexivity.
Qed.

Lemma has_ink_trim_line l : has_ink (trim_line l) = has_ink l.
Proof.
  unfold trim_line, line_of, fields_of.
  rewrite <- (join_split comma l) at 2.
  rewrite !has_ink_join. rewrite length_map. f_equal.
  induction (split comma l) as [ | f fs IH ]; [ reflexivity | ].
  simpl. rewrite has_ink_trim, IH. reflexivity.
Qed.

Lemma In_trimStart c s : In c (trimStart s) -> In c s.
Proof.
  induction s as [ | d s IH ]; simpl; [ tauto | ].
  destruct (is_ws d); simpl; tauto.
Qed.

Lemma In_trim c s : In c (trim s) -> In c s.
Proof.
  unfold trim, trimEnd. intros H.
  apply In_trimStart. apply in_rev. apply In_trimStart. apply in_rev. exact H.
Qed.

Lemma In_join c sep l :
  In c (join sep l) -> In c sep \/ exists f, In f l /\ In c f.
Proof.
  induction l as [ | x l IH ]; [ intros [] | ].
  destruct l as [ | y l ].
  - simpl. intros H. right. exists x. split; [ left; reflexivity | exact H ].
  - rewrite join_cons by discriminate. rewrite !in_app_iff.
    intros [ H | [ H | H ] ].
    + right. exists x. split; [ left; reflexivity | exact H ].
    + left. exact H.
    + destruct (IH H) as [ H' | [f [Hf Hc]] ]; [ left; exact H' | ].
      right. exists f. split; [ right; exact Hf | exact Hc ].
Qed.

Lemma In_split c sep s f : In f (split sep s) -> In c f -> In c s.
Proof.
  revert f. induction s as [ | d s IH ]; simpl; intros f.
  - intros [ <- | [] ] [].
  - destruct (d =? sep).
    + intros [ <- | H ] Hc; [ destruct Hc | ]. right. eapply IH; eassumption.
    + pose proof (split_not_nil sep s) as Hne.
      destruct (split sep s) as [ | g gs ]; [ congruence | ].
      intros [ <- | H ] Hc.
      * destruct Hc as [ -> | Hc ]; [ left; reflexivity | ].
        right. apply (IH g); [ left; reflexivity | exact Hc ].
      * right. apply (IH f); [ right; exact H | exact Hc ].
Qed.

(** A line of the output: not blank, and without a line break. *)
Definition proper_line (l : jstr) : Prop :=
  nonblank l = true /\ ~ In newline l.

Lemma trim_line_proper l : proper_line l -> proper_line (trim_line l).
Proof.
  intros [Hn Hl]. split.
  - rewrite nonblank_ink in *. rewrite has_ink_trim_line. exact Hn.
  - intros H. unfold trim_line, line_of in H.
    apply In_join in H. destruct H as [ H | [f [Hf Hc]] ].
    + destruct H as [ H | [] ]. discriminate H.
    + apply in_map_iff in Hf. destruct Hf as [g [<- Hg]].
      apply Hl. eapply In_split; [ exact Hg | ]. apply In_trim. exact Hc.
Qed.

Lemma input_lines_proper content :
  Forall proper_line (filter (fun line => nonblank line = true)
                             (split newline content)).
Proof.
  apply Forall_forall. intros l Hl.
  apply list_elem_of_filter in Hl.
  destruct Hl as [Hn Hin]. split; [ exact Hn | ].
  pose proof (split_no_sep newline content) as H.
  rewrite Forall_forall in H. apply H. exact Hin.
Qed.

Lemma minimal_lines_proper header dataLines ops o :
  Forall proper_line dataLines ->
  fst (fst (applyMinimalCSVCompression header dataLines ops o)) = header
  /\ Forall proper_line
       (snd (fst (applyMinimalCSVCompression header dataLines ops o))).
Proof.
  intros H. unfold applyMinimalCSVCompression.
  assert (Hmap : forall ls, Forall proper_line ls ->
                            Forall proper_line (map trim_line ls)).
  { intros ls Hls. apply Forall_map. eapply Forall_impl; [ exact Hls | ].
    intros l. apply trim_line_proper. }
  assert (Hf : forall (p : jstr -> bool),
             Forall proper_line (filter (fun l => p l = false) dataLines)).
  { intros p. apply Forall_forall. intros l Hl.
    apply list_elem_of_filter in Hl.
    rewrite Forall_forall in H. apply H. tauto. }
  split_tier; split; try reflexivity; apply Hmap; auto.
Qed.

Lemma output_lines_proper ls :
  ls <> [] -> Forall proper_line ls ->
  Forall (fun l => nonblank l = true) (split newline (join [newline] ls)).
Proof.
  intros Hne H. rewrite split_join.
  - eapply Forall_impl; [ exact H | ]. intros l [Hl _]. exact Hl.
  - exact Hne.
  - eapply Forall_impl; [ exact H | ]. intros l [_ Hl]. exact Hl.
Qed.
Definition input_lines (content : jstr) : list jstr :=
  filter (fun line => nonblank line = true) (split newline content).

Lemma filter_all_true (ls : list jstr) :
  Forall (fun l => nonblank l = true) ls ->
  filter (fun line => nonblank line = true) ls = ls.
Proof.
  induction ls as [ | l ls IH ]; intros H; [ reflexivity | ].
  inversion H as [ | ? ? Hl Hls ]; subst.
  rewrite filter_cons. destruct (decide (nonblank l = true)); [ | contradiction ].
  rewrite IH by exact Hls. reflexivity.
Qed.

Lemma input_lines_fixpoint content :
  input_lines content <> [] ->
  input_lines (join [newline] (input_lines content)) = input_lines content.
Proof.
  intros Hne. unfold input_lines at 1.
  pose proof (input_lines_proper content) as H. fold (input_lines content) in H.
  rewrite split_join.
  - apply filter_all_true. eapply Forall_impl; [ exact H | ].
    intros l [Hl _]. exact Hl.
  - exact Hne.
  - eapply Forall_impl; [ exact H | ]. intros l [_ Hl]. exact Hl.
Qed.

(** The options that the CSV engine reads as switches. *)
Definition boolean_options : list string :=
  ["removeEmptyRows"; "deduplicateRows"; "roundNumbers"; "deltaEncoding";
   "dictionaryEncoding"; "removeLowVarianceColumns"; "truncateText";
   "keepFirstNColumns"; "sampleRows"; "removeNonEssentialColumns";
   "removeOutliers"; "statisticalSampling"]%string.

Definition all_switched_off (o : Options) : Prop :=
  Forall (fun k => o !! k = Some (VBool false)) boolean_options.

Ltac switch_off H :=
  unfold all_switched_off, boolean_options in H;
  repeat match goal with
    | Hf : Forall _ (_ :: _) |- _ =>
        let Hk := fresh "Hk" in
        apply Forall_cons in Hf; destruct Hf as [Hk Hf]
    end;
  unfold opt_not_false, opt_truthy;
  repeat match goal with
    | Hk : ?o !! ?k = Some (VBool false) |- context [?o !! ?k] => rewrite Hk
    end.

Lemma moderate_switched_off header dataLines ops o :
  all_switched_off o ->
  applyModerateCSVCompression header dataLines ops o
  = applyMinimalCSVCompression header dataLines ops o.
Proof.
  intros H. unfold applyModerateCSVCompression.
  destruct (applyMinimalCSVCompression header dataLines ops o) as [[h d] ops'].
  switch_off H. cbn [truthy andb]. destruct d; reflexivity.
Qed.

Lemma aggressive_switched_off header dataLines ops o :
  all_switched_off o ->
  applyAggressiveCSVCompression header dataLines ops o
  = inr (applyMinimalCSVCompression header dataLines ops o).
Proof.
  intros H. unfold applyAggressiveCSVCompression.
  rewrite moderate_switched_off by exact H.
  destruct (applyMinimalCSVCompression header dataLines ops o) as [[h d] ops'].
  switch_off H. cbn [truthy andb]. destruct d; reflexivity.
Qed.

(** C10 (as amended).  The lines made of white space only are dropped
    before anything else and leave no trace: the compressed text and
    the log are those obtained from the input without these lines.  At
    the minimal tier, and at every tier when all the switches are
    explicitly off, no line of the compressed text is blank. *)
Theorem blank_lines_dropped_silently
    (content : jstr) (level : string) (customOptions : Options)
    (r : CompressionResult) :
  compressCSV content level customOptions = inr r ->
  (exists r',
      compressCSV (join [newline] (input_lines content)) level customOptions
      = inr r'
      /\ compressed r' = compressed r /\ log r' = log r)
  /\ (level = "minimal" \/ all_switched_off customOptions ->
      Forall (fun l => nonblank l = true) (split newline (compressed r))).
Proof.
  intros Hr. split.
  - unfold compressCSV in *. fold (input_lines content) in Hr.
    fold (input_lines (join [newline] (input_lines content))).
    rewrite input_lines_fixpoint
      by (destruct (input_lines content); [ discriminate | discriminate ]).
    destruct (input_lines content) as [ | header dataLines ]; [ discriminate | ].
    destruct (if String.eqb level "minimal" then _ else _)
      as [ e | [[h d] ops] ]; [ discriminate | ].
    injection Hr as <-. eexists. split; [ reflexivity | ]. split; reflexivity.
  - intros Hcase. unfold compressCSV in Hr. fold (input_lines content) in Hr.
    pose proof (input_lines_proper content) as Hp.
    fold (input_lines content) in Hp.
    destruct (input_lines content) as [ | header dataLines ]; [ discriminate | ].
    apply Forall_cons in Hp. destruct Hp as [Hh Hd].
    pose proof (minimal_lines_proper header dataLines [] customOptions Hd)
      as [Hfst Hsnd].
    assert (Hmin : forall x : exn + jstr * list jstr * list Entry,
               x = inr (applyMinimalCSVCompression header dataLines []
                          customOptions) ->
               match x return exn + CompressionResult with
               | inl e => inl e
               | inr (h, d, operations) =>
                   inr {| compressed := join [newline] (h :: d);
                          log := operations;
                          originalSize := strlen content;
                          compressedSize := strlen (join [newline] (h :: d)) |}
               end = inr r ->
               Forall (fun l => nonblank l = true)
                      (split newline (compressed r))).
    { clear Hr. intros x -> Hx.
      destruct (applyMinimalCSVCompression header dataLines [] customOptions)
        as [[h d] ops].
      cbn [fst snd] in Hfst, Hsnd. subst h.
      assert (Hc : compressed r = join [newline] (header :: d))
        by (injection Hx as <-; reflexivity).
      rewrite Hc. apply output_lines_proper; [ discriminate | ].
      constructor; assumption. }
    destruct Hcase as [ -> | Hoff ]; [ exact (Hmin _ eq_refl Hr) | ].
    destruct (String.eqb level "minimal"); [ exact (Hmin _ eq_refl Hr) | ].
    destruct (String.eqb level "moderate").
    { rewrite moderate_switched_off in Hr by exact Hoff.
      exact (Hmin _ eq_refl Hr). }
    destruct (String.eqb level "aggressive"); [ | discriminate ].
    rewrite aggressive_switched_off in Hr by exact Hoff.
    exact (Hmin _ eq_refl Hr).
Qed.

Definition blank_rows_input : jstr :=
  text_lines ["name,score"; ""; "  ann , 1 "; "   "; "bob,2"].

(** C10, counterexample.  At the moderate tier with default options a
    single column of equal values is dropped as a low-variance column,
    which leaves an empty line after the header. *)
Lemma low_variance_removal_leaves_blank_line :
  exists r,
    compressCSV (text_lines ["a"; "1"; "1"]) "moderate" ∅ = inr r
    /\ split newline (compressed r) = [lit "a"; []]
    /\ ~ Forall (fun l => nonblank l = true) (split newline (compressed r)).
Proof.
  eexists. split; [ vm_compute; reflexivity | ].
  split; [ vm_compute; reflexivity | ].
  intros H. vm_compute in H. inversion H as [ | ? ? _ H' ]; subst.
  inversion H' as [ | ? ? Hb _ ]; subst. discriminate Hb.
Qed.

(** ** Opt-out rewrites of the aggressive SQL tier *)

(** The removal of the CREATE, DROP and ALTER statements. *)
Definition remove_schema_changes (compressed : jstr) : jstr :=
  replace flags_gi re_alter []
    (replace flags_gi (re_schema "drop") []
       (replace flags_gi (re_schema "create") [] compressed)).

(** The removal of the transaction statements. *)
Definition remove_transactions (compressed : jstr) : jstr :=
  replace flags_gi re_transaction [] compressed.

Definition schema_and_transactions : jstr :=
  lit "CREATE TABLE t (id INT); BEGIN; INSERT INTO t (id) VALUES (1); COMMIT;".

(** C8, counterexample.  With an empty options map the aggressive tier
    removes the CREATE statement and the BEGIN and COMMIT statements,
    and logs both removals; the moderate tier keeps them. *)
Lemma empty_options_remove_schema_and_transactions :
  exists r m,
    compressSQL schema_and_transactions "aggressive" ∅ = inr r
    /\ compressSQL schema_and_transactions "moderate" ∅ = inr m
    /\ compressed m
       = lit "create table t(id INT);BEGIN;insert INTO t(id)VALUES(1);COMMIT;"
    /\ compressed r = lit "insert INTO t(id)VALUES(1);"
    /\ map op_type (operations r)
       = map lit ["remove_whitespace"; "remove_schema_changes";
                  "remove_transactions"]%string.
Proof.
  do 2 eexists. split; [ vm_compute; reflexivity | ].
  split; [ vm_compute; reflexivity | ].
  repeat split; vm_compute; reflexivity.
Qed.

(** The three opt-in rewrites of the aggressive tier, as they act on
    the text. *)
Definition keep_data_only (customOptions : Options) (compressed : jstr)
    : jstr :=
  if opt_truthy customOptions "keepDataOnly" then
    let statements := filter (fun s => trim s <> []) (split 59 compressed) in
    let dataStatements :=
      filter (fun stmt => is_data_statement stmt = true) statements in
    if (length dataStatements <? length statements)%nat then
      join [59] dataStatements
      ++ (if (0 <? length dataStatements)%nat then [59] else [])
    else compressed
  else compressed.

Definition strip_constraints (customOptions : Options) (compressed : jstr)
    : jstr :=
  if opt_truthy customOptions "removeConstraints" then
    replace flags_gi re_column_constraint []
      (replace flags_gi re_table_constraint [] compressed)
  else compressed.

Definition sample_inserts (customOptions : Options) (compressed : jstr)
    : jstr :=
  if opt_truthy customOptions "sampleInserts" then
    let sampleRate := opt_or customOptions "insertSampleRate" (VInt 5) in
    replace_with flags_gi re_multi_insert
      (fun m g =>
         let valueGroups := split_re flags_g re_tuple_gap (g 2%nat) in
         let sampled :=
           CSV.filter_index
             (fun index => rem_is_zero index (to_number sampleRate))
             valueGroups in
         if (length sampled <? length valueGroups)%nat then
           lit "insert into " ++ g 1%nat ++ lit " values "
           ++ join (lit "),(") sampled ++ [59]
         else m)
      compressed
  else compressed.

(** The log holds an entry of the type [t]. *)
Definition logged (t : string) (ops : list Entry) : bool :=
  existsb (fun e => has_type t (fst e)) ops.

Lemma logged_push t ops e :
  logged t (ops ++ [e]) = logged t ops || has_type t (fst e).
Proof.
  unfold logged. rewrite existsb_app. cbn [existsb]. rewrite orb_false_r.
  reflexivity.
Qed.

Lemma logged_push_if_shorter t before after op ops :
  logged t (push_if_shorter before after op ops)
  = logged t ops || (has_type t op && (length after <? before)%nat).
Proof.
  unfold push_if_shorter. destruct (length after <? before)%nat.
  - rewrite logged_push, andb_true_r. reflexivity.
  - rewrite andb_false_r, orb_false_r. reflexivity.
Qed.

(** Rewrites [logged] through the pushes of a tier and evaluates the
    comparison of the types. *)
Ltac eval_logged :=
  cbn [fst snd];
  repeat first [ rewrite logged_push_if_shorter | rewrite logged_push ];
  cbn [fst snd];
  repeat match goal with
    | |- context [has_type ?t ?op] =>
        let b := eval lazy in (has_type t op) in
        change (has_type t op) with b
    end;
  rewrite ?andb_false_l, ?andb_true_l, ?orb_false_r, ?orb_false_l.

Ltac stage_lacks t :=
  match goal with
  | |- context [let '(_, _) := ?x in _] =>
      lazymatch x with
      | (let '(_, _) := _ in _) => fail
      | _ =>
          let H := fresh "Hst" in
          assert (H : logged t (snd x) = false);
          [ split_tier; eval_logged; assumption
          | destruct x as [? ?]; cbn [snd] in H ]
      end
  end.

Lemma sql_minimal_lacks (t : string) sql ops o :
  t = "remove_schema_changes"%string \/ t = "remove_transactions"%string ->
  logged t ops = false ->
  logged t (snd (applyMinimalSQLCompression sql ops o)) = false.
Proof.
  intros [-> | ->] H; unfold applyMinimalSQLCompression;
    split_tier; eval_logged; assumption.
Qed.

Lemma sql_moderate_lacks (t : string) sql ops o :
  t = "remove_schema_changes"%string \/ t = "remove_transactions"%string ->
  logged t ops = false ->
  logged t (snd (applyModerateSQLCompression sql ops o)) = false.
Proof.
  intros Ht H. unfold applyModerateSQLCompression.
  pose proof (sql_minimal_lacks t sql ops o Ht H) as Hm.
  destruct (applyMinimalSQLCompression sql ops o) as [m ops'].
  cbn [snd] in Hm. cbv zeta.
  destruct Ht as [-> | ->].
  - repeat (stage_lacks "remove_schema_changes"%string).
    split_tier; eval_logged; assumption.
  - repeat (stage_lacks "remove_transactions"%string).
    split_tier; eval_logged; assumption.
Qed.


Lemma opt_not_false_off (o : Options) (k : string) :
  opt_not_false o k = false <-> o !! k = Some (VBool false).
Proof.
  unfold opt_not_false.
  destruct (o !! k) as [ [ | [ | ] | | | | ] | ]; split; congruence.
Qed.

Lemma opt_not_false_on (o : Options) (k : string) :
  opt_not_false o k = true <-> o !! k <> Some (VBool false).
Proof.
  rewrite <- opt_not_false_off. destruct (opt_not_false o k); split; congruence.
Qed.

(** The text that the aggressive tier returns. *)
Lemma sql_aggressive_text sql ops o :
  fst (applyAggressiveSQLCompression sql ops o)
  = sample_inserts o
      (strip_constraints o
         ((if opt_not_false o "removeTransactions" then remove_transactions
           else fun c => c)
            (keep_data_only o
               ((if opt_not_false o "removeSchemaChanges"
                 then remove_schema_changes else fun c => c)
                  (fst (applyModerateSQLCompression sql ops o)))))).
Proof.
  unfold applyAggressiveSQLCompression, sample_inserts, strip_constraints,
    keep_data_only, remove_transactions, remove_schema_changes.
  destruct (applyModerateSQLCompression sql ops o) as [m ops']. cbn [fst].
  destruct (opt_not_false o "removeSchemaChanges"),
    (opt_truthy o "keepDataOnly"),
    (opt_not_false o "removeTransactions"),
    (opt_truthy o "removeConstraints"),
    (opt_truthy o "sampleInserts"); cbv zeta;
    repeat match goal with
      | |- context [if ?b then _ else _] => destruct b
      end; reflexivity.
Qed.


Ltac split_options o :=
  destruct (opt_not_false o "removeSchemaChanges"),
    (opt_truthy o "keepDataOnly"),
    (opt_not_false o "removeTransactions"),
    (opt_truthy o "removeConstraints"),
    (opt_truthy o "sampleInserts"); cbv zeta;
  repeat match goal with
    | |- context [if (length ?a <? length ?b)%nat then (_, _) else (_, _)] =>
        destruct (length a <? length b)%nat
    end.

(** Whether the aggressive tier logs the removal of the schema
    changes. *)
Lemma sql_aggressive_logs_schema sql o :
  let base := fst (applyModerateSQLCompression sql [] o) in
  logged "remove_schema_changes" (snd (applyAggressiveSQLCompression sql [] o))
  = opt_not_false o "removeSchemaChanges"
    && (length (remove_schema_changes base) <? length base)%nat.
Proof.
  cbv zeta.
  pose proof (sql_moderate_lacks "remove_schema_changes" sql [] o
                (or_introl eq_refl) eq_refl) as Hm.
  unfold applyAggressiveSQLCompression, remove_schema_changes.
  destruct (applyModerateSQLCompression sql [] o) as [m ops']. cbn [fst snd] in *.
  split_options o; eval_logged; rewrite Hm; reflexivity.
Qed.

(** Whether the aggressive tier logs the removal of the transaction
    statements. *)
Lemma sql_aggressive_logs_transactions sql o :
  let base := fst (applyModerateSQLCompression sql [] o) in
  let d :=
    keep_data_only o
      ((if opt_not_false o "removeSchemaChanges" then remove_schema_changes
        else fun c => c) base) in
  logged "remove_transactions" (snd (applyAggressiveSQLCompression sql [] o))
  = opt_not_false o "removeTransactions"
    && (length (remove_transactions d) <? length d)%nat.
Proof.
  cbv zeta.
  pose proof (sql_moderate_lacks "remove_transactions" sql [] o
                (or_intror eq_refl) eq_refl) as Hm.
  unfold applyAggressiveSQLCompression, remove_schema_changes,
    remove_transactions, keep_data_only.
  destruct (applyModerateSQLCompression sql [] o) as [m ops']. cbn [fst snd] in *.
  split_options o; eval_logged; rewrite Hm; reflexivity.
Qed.


(** *** An option that is absent reads as switched on *)

Lemma opt_not_false_insert_ne (o : Options) (k k' : string) v :
  k <> k' -> opt_not_false (<[k := v]> o) k' = opt_not_false o k'.
Proof. intros H. unfold opt_not_false. rewrite lookup_insert_ne by exact H. reflexivity. Qed.

Lemma opt_truthy_insert_ne (o : Options) (k k' : string) v :
  k <> k' -> opt_truthy (<[k := v]> o) k' = opt_truthy o k'.
Proof. intros H. unfold opt_truthy. rewrite lookup_insert_ne by exact H. reflexivity. Qed.

Lemma opt_or_insert_ne (o : Options) (k k' : string) v d :
  k <> k' -> opt_or (<[k := v]> o) k' d = opt_or o k' d.
Proof. intros H. unfold opt_or. rewrite lookup_insert_ne by exact H. reflexivity. Qed.

Lemma opt_not_false_insert_true (o : Options) (k : string) :
  o !! k <> Some (VBool false) ->
  opt_not_false (<[k := VBool true]> o) k = opt_not_false o k.
Proof.
  intros H. apply opt_not_false_on in H. rewrite H.
  unfold opt_not_false. rewrite lookup_insert_eq. reflexivity.
Qed.

Ltac other_options :=
  rewrite ?opt_not_false_insert_ne, ?opt_truthy_insert_ne, ?opt_or_insert_ne
    by discriminate.

Lemma sql_aggressive_default_on sql ops (o : Options) (k : string) :
  k = "removeSchemaChanges"%string \/ k = "removeTransactions"%string ->
  o !! k <> Some (VBool false) ->
  applyAggressiveSQLCompression sql ops (<[k := VBool true]> o)
  = applyAggressiveSQLCompression sql ops o.
Proof.
  intros Hk Hon.
  pose proof (opt_not_false_insert_true o k Hon) as Ek.
  unfold applyAggressiveSQLCompression, applyModerateSQLCompression,
    applyMinimalSQLCompression.
  destruct Hk as [-> | ->]; rewrite Ek; other_options; reflexivity.
Qed.


(** C8 (as amended).  The two removals are opt-out, for every input
    and every options map.  The text that the aggressive tier returns
    is the text of the moderate tier after the removal of the schema
    statements, the opt-in filter of the data statements, the removal
    of the transaction statements and the two other opt-in rewrites,
    where each of the two removals is left out exactly when its option
    is the boolean false.  The log holds the entry of a removal exactly
    when its option is not the boolean false and the removal shortened
    the text it received.  An option that is absent, or that holds
    anything but false, gives the result of the option set to true;
    with an empty options map both removals run, and nothing else
    after the moderate tier. *)
Theorem schema_and_transaction_removal_opt_out
    (sql : jstr) (customOptions : Options) :
  let off (k : string) := customOptions !! k = Some (VBool false) in
  let base := fst (applyModerateSQLCompression sql [] customOptions) in
  let result := applyAggressiveSQLCompression sql [] customOptions in
  let data := keep_data_only customOptions in
  let rest c :=
    sample_inserts customOptions (strip_constraints customOptions c) in
  (~ off "removeSchemaChanges" -> ~ off "removeTransactions" ->
   fst result = rest (remove_transactions (data (remove_schema_changes base))))
  /\ (off "removeSchemaChanges" -> ~ off "removeTransactions" ->
      fst result = rest (remove_transactions (data base)))
  /\ (~ off "removeSchemaChanges" -> off "removeTransactions" ->
      fst result = rest (data (remove_schema_changes base)))
  /\ (off "removeSchemaChanges" -> off "removeTransactions" ->
      fst result = rest (data base))
  /\ (logged "remove_schema_changes" (snd result) = true
      <-> ~ off "removeSchemaChanges"
          /\ (length (remove_schema_changes base) < length base)%nat)
  /\ (forall d,
         (off "removeSchemaChanges" -> d = data base) ->
         (~ off "removeSchemaChanges" ->
          d = data (remove_schema_changes base)) ->
         (logged "remove_transactions" (snd result) = true
          <-> ~ off "removeTransactions"
              /\ (length (remove_transactions d) < length d)%nat))
  /\ (forall k : string,
         k = "removeSchemaChanges"%string \/ k = "removeTransactions"%string ->
         ~ off k ->
         applyAggressiveSQLCompression sql []
           (<[k := VBool true]> customOptions)
         = result)
  /\ fst (applyAggressiveSQLCompression sql [] ∅)
     = remove_transactions
         (remove_schema_changes (fst (applyModerateSQLCompression sql [] ∅))).
Proof.
  cbv zeta.
  pose proof (sql_aggressive_text sql [] customOptions) as Ht.
  pose proof (opt_not_false_off customOptions "removeSchemaChanges") as Hs0.
  pose proof (opt_not_false_on customOptions "removeSchemaChanges") as Hs1.
  pose proof (opt_not_false_off customOptions "removeTransactions") as Ht0.
  pose proof (opt_not_false_on customOptions "removeTransactions") as Ht1.
  split; [ intros Hs Hr; apply Hs1 in Hs; apply Ht1 in Hr;
           rewrite Hs, Hr in Ht; exact Ht | ].
  split; [ intros Hs Hr; apply Hs0 in Hs; apply Ht1 in Hr;
           rewrite Hs, Hr in Ht; exact Ht | ].
  split; [ intros Hs Hr; apply Hs1 in Hs; apply Ht0 in Hr;
           rewrite Hs, Hr in Ht; exact Ht | ].
  split; [ intros Hs Hr; apply Hs0 in Hs; apply Ht0 in Hr;
           rewrite Hs, Hr in Ht; exact Ht | ].
  split.
  { rewrite sql_aggressive_logs_schema. cbv zeta.
    rewrite andb_true_iff, Hs1, Nat.ltb_lt. reflexivity. }
  split.
  { intros d Hoff Hon.
    rewrite sql_aggressive_logs_transactions. cbv zeta.
    assert (Hd : keep_data_only customOptions
                   ((if opt_not_false customOptions "removeSchemaChanges"
                     then remove_schema_changes else fun c => c)
                      (fst (applyModerateSQLCompression sql [] customOptions)))
                 = d).
    { destruct (opt_not_false customOptions "removeSchemaChanges") eqn:E.
      - symmetry. apply Hon. apply Hs1. reflexivity.
      - symmetry. apply Hoff. apply Hs0. reflexivity. }
    rewrite Hd, andb_true_iff, Ht1, Nat.ltb_lt. reflexivity. }
  split; [ intros k Hk Hon; apply sql_aggressive_default_on; assumption | ].
  rewrite sql_aggressive_text. reflexivity.
Qed.

Definition data_only : Options := {[ "keepDataOnly" := VBool true ]}.

Lemma schema_and_transaction_removal_opt_out_witness :
  fst (applyAggressiveSQLCompression schema_and_transactions [] data_only)
  = lit "insert INTO t(id)VALUES(1);"
  /\ logged "remove_schema_changes"
       (snd (applyAggressiveSQLCompression schema_and_transactions [] data_only))
     = true.
Proof.
  destruct (schema_and_transaction_removal_opt_out schema_and_transactions
              data_only) as (Htext & _ & _ & _ & Hlog & _).
  split.
  - rewrite Htext; [ vm_compute; reflexivity | | ]; vm_compute; discriminate.
  - apply Hlog. split; [ vm_compute; discriminate | vm_compute; lia ].
Defined.

(** ** Instances *)

Definition loose_css : jstr := lit "a   {  b :  c  }".
Definition short_css : jstr := lit "a { color: #aabbcc; margin: 0px; }".
Definition loose_sql : jstr := lit "SELECT  a  FROM  t ;".

Ltac holds := first [ split; vm_compute; reflexivity | vm_compute; reflexivity ].
Ltac fails :=
  let H := fresh in
  first [ intros [H _]; vm_compute in H; discriminate H
        | intros [_ H]; vm_compute in H; discriminate H
        | intros H; vm_compute in H; discriminate H ].

Lemma recommendation_policy_witness :
  (exists p,
      analyzeFile embedded_engines loose_css (lit "CSS") ∅ = inr p
      /\ reduction (result_at (results p) aggressive) = Fin (125 # 2)
      /\ level (recommendation p) = aggressive)
  /\ (exists p,
         analyzeFile embedded_engines short_css (lit "CSS") ∅ = inr p
         /\ reduction (result_at (results p) aggressive) = Fin (600 # 17)
         /\ reduction (result_at (results p) moderate) = Fin (600 # 17)
         /\ level (recommendation p) = moderate)
  /\ (exists p,
         analyzeFile embedded_engines loose_sql (lit "SQL") ∅ = inr p
         /\ reduction (result_at (results p) moderate) = Fin 20
         /\ reduction (result_at (results p) minimal) = Fin 20
         /\ level (recommendation p) = minimal)
  /\ (exists p,
         analyzeFile embedded_engines scenario2 (lit "CSV") ∅ = inr p
         /\ reduction (result_at (results p) minimal) = Fin 0
         /\ level (recommendation p) = moderate
         /\ effectiveLevels (recommendation p)
            = {| eff_minimal := false; eff_moderate := false;
                 eff_aggressive := false |}
         /\ reason (recommendation p)
            = lit "Limited compression opportunity for this file").
Proof.
  split; [ | split; [ | split ] ].
  - destruct (recommendation_policy embedded_engines loose_css (lit "CSS") ∅
                CSS.compressCSS eq_refl)
      as (p & Hp & Hred & _ & Ha & _).
    exists p. split; [ exact Hp | ].
    split; [ rewrite Hred; vm_compute; reflexivity | ].
    apply Ha. holds.
  - destruct (recommendation_policy embedded_engines short_css (lit "CSS") ∅
                CSS.compressCSS eq_refl)
      as (p & Hp & Hred & _ & _ & Hm & _).
    exists p. split; [ exact Hp | ].
    split; [ rewrite Hred; vm_compute; reflexivity | ].
    split; [ rewrite Hred; vm_compute; reflexivity | ].
    apply Hm; [ fails | holds ].
  - destruct (recommendation_policy embedded_engines loose_sql (lit "SQL") ∅
                SQL.compressSQL eq_refl)
      as (p & Hp & Hred & _ & _ & _ & Hn & _).
    exists p. split; [ exact Hp | ].
    split; [ rewrite Hred; vm_compute; reflexivity | ].
    split; [ rewrite Hred; vm_compute; reflexivity | ].
    apply Hn; [ fails | fails | holds ].
  - destruct (recommendation_policy embedded_engines scenario2 (lit "CSV") ∅
                compressCSV eq_refl)
      as (p & Hp & Hred & Heff & _ & _ & _ & Hd & _ & Hr).
    exists p. split; [ exact Hp | ].
    split; [ rewrite Hred; vm_compute; reflexivity | ].
    split; [ apply Hd; fails | ].
    split; [ rewrite Heff; vm_compute; reflexivity | ].
    apply Hr. intros l. destruct l; fails.
Defined.

Definition essential_first_column : Options :=
  {[ "removeNonEssentialColumns" := VBool true;
     "essentialColumnIndices" := VArr [VInt 0] ]}.

Lemma tier_failures_are_isolated_witness :
  embedded_engines (lit "CSV") = Some compressCSV
  /\ exists p,
      analyzeFile embedded_engines (lit "a") (lit "CSV") essential_first_column
      = inr p
      /\ result_at (results p) aggressive
         = {| size := 1;
              reduction := Fin 0;
              level_operations := [];
              level_compressed := None;
              error :=
                Some (lit "Cannot read properties of undefined (reading 'split')") |}
      /\ result_at (results p) minimal
         = {| size := 1;
              reduction := Fin 0;
              level_operations := [];
              level_compressed := Some (lit "a");
              error := None |}
      /\ result_at (results p) moderate = result_at (results p) minimal.
Proof.
  split; [ reflexivity | ].
  destruct (tier_failures_are_isolated embedded_engines (lit "a") (lit "CSV")
              essential_first_column compressCSV eq_refl) as [p [Hp Hl]].
  exists p. split; [ exact Hp | ].
  pose proof (Hl aggressive) as Ha. pose proof (Hl minimal) as Hn.
  pose proof (Hl moderate) as Hm.
  assert (Ea : compressCSV (lit "a") (level_name aggressive) essential_first_column
               = inl (JsTypeError
                        (lit "Cannot read properties of undefined (reading 'split')")))
    by (vm_compute; reflexivity).
  assert (En : compressCSV (lit "a") (level_name minimal) essential_first_column
               = inr {| compressed := lit "a"; log := [];
                        originalSize := 1; compressedSize := 1 |})
    by (vm_compute; reflexivity).
  assert (Em : compressCSV (lit "a") (level_name moderate) essential_first_column
               = inr {| compressed := lit "a"; log := [];
                        originalSize := 1; compressedSize := 1 |})
    by (vm_compute; reflexivity).
  rewrite Ea in Ha. rewrite En in Hn. rewrite Em in Hm.
  split; [ exact Ha | ]. split; [ exact Hn | ].
  rewrite Hm, Hn. reflexivity.
Defined.

Lemma blank_lines_dropped_silently_witness :
  exists r,
    compressCSV blank_rows_input "minimal" ∅ = inr r
    /\ split newline (compressed r)
       = [lit "name,score"; lit "ann,1"; lit "bob,2"]
    /\ Forall (fun l => nonblank l = true) (split newline (compressed r)).
Proof.
  destruct (compressCSV blank_rows_input "minimal" ∅) as [ e | r ] eqn:E;
    [ vm_compute in E; discriminate E | ].
  exists r. split; [ reflexivity | ].
  pose proof (blank_lines_dropped_silently _ _ _ _ E) as [_ H].
  split; [ | apply H; left; reflexivity ].
  vm_compute in E. injection E as <-. vm_compute. reflexivity.
Defined.

End Properties.

(** * Invariants of the engines

    Properties of the functions around the ones above: the helpers of
    the JSON engine, the minimal tiers, the dictionaries and the short
    names, the sampling of rows, and the replacements by pattern. *)

Module Invariants.
Import CSV JSON Preview Regex Properties.

(** ** Induction on values *)

Section ValueInduction.
Variable P : jsval -> Prop.
Hypothesis Hnull : P VNull.
Hypothesis Hbool : forall b, P (VBool b).
Hypothesis Hnum : forall x, P (VNum x).
Hypothesis Hstr : forall s, P (VStr s).
Hypothesis Harr : forall l, Forall P l -> P (VArr l).
Hypothesis Hobj : forall o, Forall (fun kv => P (snd kv)) o -> P (VObj o).

Fixpoint value_ind (v : jsval) : P v :=
  match v with
  | VNull => Hnull
  | VBool b => Hbool b
  | VNum x => Hnum x
  | VStr s => Hstr s
  | VArr l =>
      Harr l ((fix all (l : list jsval) : Forall P l :=
                 match l with
                 | [] => List.Forall_nil _
                 | x :: l' => List.Forall_cons _ x l' (value_ind x) (all l')
                 end) l)
  | VObj o =>
      Hobj o ((fix all (o : list (jstr * jsval))
                 : Forall (fun kv => P (snd kv)) o :=
                 match o with
                 | [] => List.Forall_nil _
                 | (k, x) :: o' =>
                     List.Forall_cons (fun kv => P (snd kv)) (k, x) o'
                       (value_ind x) (all o')
                 end) o)
  end.

End ValueInduction.

(** ** Members of objects *)

(** Every member of every object of the value, at any depth, has a
    value that satisfies [p]. *)
Fixpoint members_all (p : jsval -> bool) (v : jsval) : bool :=
  match v with
  | VArr l => forallb (members_all p) l
  | VObj o =>
      (fix all (o : list (jstr * jsval)) : bool :=
         match o with
         | [] => true
         | (_, x) :: o' => p x && members_all p x && all o'
         end) o
  | _ => true
  end.

Definition is_null (v : jsval) : bool :=
  match v with VNull => true | _ => false end.


Definition not_null (v : jsval) : bool := negb (is_null v).

Lemma removeNulls_arr l :
  removeNulls (VArr l)
  = (VArr (map (fun x => fst (removeNulls x)) l),
     list_sum (map (fun x => snd (removeNulls x)) l)).
Proof. reflexivity. Qed.

(** The members that [removeNulls] keeps and the number it deletes. *)
Fixpoint nulls_members (o : list (jstr * jsval)) : list (jstr * jsval) * nat :=
  match o with
  | [] => ([], 0%nat)
  | (k, x) :: o' =>
      let (r, n) := nulls_members o' in
      match x with
      | VNull => (r, S n)
      | _ => let (x', m) := removeNulls x in ((k, x') :: r, (m + n)%nat)
      end
  end.

Lemma removeNulls_obj o :
  removeNulls (VObj o) = (VObj (fst (nulls_members o)), snd (nulls_members o)).
Proof.
  cbn [removeNulls].
  match goal with
  | |- (let (_, _) := ?f o in _) = _ =>
      assert (E : f o = nulls_members o)
  end.
  { induction o as [ | [k x] o IH ]; [ reflexivity | ].
    cbn [nulls_members]. rewrite <- IH. reflexivity. }
  rewrite E. destruct (nulls_members o). reflexivity.
Qed.

Lemma removeNulls_kind x : is_null (fst (removeNulls x)) = is_null x.
Proof.
  destruct x; try reflexivity. rewrite removeNulls_obj. reflexivity.
Qed.

(** After [removeNulls] no member of any object of the value is null. *)
Lemma removeNulls_clean v :
  members_all not_null (fst (removeNulls v)) = true.
Proof.
  induction v as [ | b | x | s | l IH | o IH ] using value_ind;
    try reflexivity.
  - rewrite removeNulls_arr. cbn [fst members_all].
    rewrite forallb_forall. intros y Hy. apply in_map_iff in Hy.
    destruct Hy as [x [<- Hx]]. rewrite List.Forall_forall in IH. apply IH. exact Hx.
  - rewrite removeNulls_obj. cbn [fst members_all].
    induction o as [ | [k x] o IHo ]; [ reflexivity | ].
    inversion IH as [ | ? ? Hx Ho ]; subst. cbn [snd] in Hx.
    specialize (IHo Ho). cbn [nulls_members].
    destruct (nulls_members o) as [r n]. cbn [fst] in IHo.
    pose proof (removeNulls_kind x) as Hk.
    destruct (removeNulls x) as [x' m]. cbn [fst] in *.
    assert (Hgoal : is_null x = false ->
                    not_null x' && members_all not_null x' && 
                    (fix all (o : list (jstr * jsval)) : bool :=
                       match o with
                       | [] => true
                       | (_, x) :: o' =>
                           not_null x && members_all not_null x && all o'
                       end) r = true).
    { intros Hn. unfold not_null at 1. rewrite Hk, Hn, Hx, IHo. reflexivity. }
    destruct x; try exact IHo; apply Hgoal; reflexivity.
Qed.


Lemma map_fixed {A} (f : A -> A) (l : list A) :
  Forall (fun x => f x = x) l -> map f l = l.
Proof.
  induction 1 as [ | x l Hx Hl IH ]; [ reflexivity | ].
  cbn [map]. rewrite Hx, IH. reflexivity.
Qed.

Lemma list_sum_zero {A} (f : A -> nat) (l : list A) :
  Forall (fun x => f x = 0%nat) l -> list_sum (map f l) = 0%nat.
Proof.
  induction 1 as [ | x l Hx Hl IH ]; [ reflexivity | ].
  cbn [map]. change (list_sum (f x :: map f l)) with (f x + list_sum (map f l))%nat.
  rewrite Hx, IH. reflexivity.
Qed.

Lemma list_sum_zero_inv {A} (f : A -> nat) (l : list A) :
  list_sum (map f l) = 0%nat -> Forall (fun x => f x = 0%nat) l.
Proof.
  induction l as [ | x l IH ]; intros H; constructor;
    cbn [map] in H;
    change (list_sum (f x :: map f l)) with (f x + list_sum (map f l))%nat in H.
  - lia.
  - apply IH. lia.
Qed.

Lemma removeNulls_fixed v :
  members_all not_null v = true -> removeNulls v = (v, 0%nat).
Proof.
  induction v as [ | b | x | s | l IH | o IH ] using value_ind;
    try reflexivity; intros H.
  - rewrite removeNulls_arr. cbn [members_all] in H.
    rewrite forallb_forall in H.
    assert (Hall : Forall (fun x => removeNulls x = (x, 0%nat)) l).
    { apply List.Forall_forall. intros x Hx. rewrite List.Forall_forall in IH.
      apply IH; [ exact Hx | apply H; exact Hx ]. }
    rewrite map_fixed, list_sum_zero; [ reflexivity | | ];
      (eapply List.Forall_impl; [ | exact Hall ]); intros x ->; reflexivity.
  - rewrite removeNulls_obj. cbn [members_all] in H.
    enough (E : nulls_members o = (o, 0%nat)) by (rewrite E; reflexivity).
    induction o as [ | [k x] o IHo ]; [ reflexivity | ].
    inversion IH as [ | ? ? Hx Ho ]; subst. cbn [snd] in Hx.
    apply andb_prop in H. destruct H as [H Hrest].
    apply andb_prop in H. destruct H as [Hn Hm].
    cbn [nulls_members]. rewrite (IHo Ho Hrest), (Hx Hm).
    destruct x; try reflexivity. discriminate Hn.
Qed.


(** The number of members of the objects of a value, at any depth. *)
Fixpoint members_count (v : jsval) : nat :=
  match v with
  | VArr l => list_sum (map members_count l)
  | VObj o =>
      (fix count (o : list (jstr * jsval)) : nat :=
         match o with
         | [] => 0%nat
         | (_, x) :: o' => (S (members_count x) + count o')%nat
         end) o
  | _ => 0%nat
  end.

Lemma list_sum_add {A} (f g : A -> nat) (l : list A) :
  (list_sum (map f l) + list_sum (map g l))%nat
  = list_sum (map (fun x => (f x + g x)%nat) l).
Proof.
  induction l as [ | x l IH ]; [ reflexivity | ].
  cbn [map].
  change (list_sum (?a :: ?r)) with (a + list_sum r)%nat.
  rewrite <- IH. lia.
Qed.

Lemma list_sum_ext {A} (f g : A -> nat) (l : list A) :
  Forall (fun x => f x = g x) l -> list_sum (map f l) = list_sum (map g l).
Proof.
  induction 1 as [ | x l Hx Hl IH ]; [ reflexivity | ].
  cbn [map]. change (list_sum (?a :: ?r)) with (a + list_sum r)%nat.
  rewrite Hx, IH. reflexivity.
Qed.

Lemma removeNulls_count v :
  (members_count (fst (removeNulls v)) + snd (removeNulls v))%nat
  = members_count v.
Proof.
  induction v as [ | b | x | s | l IH | o IH ] using value_ind;
    try reflexivity.
  - rewrite removeNulls_arr. cbn [fst snd members_count].
    rewrite map_map, list_sum_add. apply list_sum_ext. exact IH.
  - rewrite removeNulls_obj. cbn [fst snd members_count].
    induction o as [ | [k x] o IHo ]; [ reflexivity | ].
    inversion IH as [ | ? ? Hx Ho ]; subst. cbn [snd] in Hx.
    specialize (IHo Ho). cbn [nulls_members].
    destruct (nulls_members o) as [r n]. cbn [fst snd] in IHo.
    destruct (removeNulls x) as [x' m] eqn:E. cbn [fst snd] in Hx.
    destruct x; cbn [fst snd]; try lia;
      cbn [removeNulls] in E; try (injection E as <- <-); cbn [members_count] in *;
      try lia.
Qed.

(** The number of null elements of the arrays of a value, at any
    depth. *)
Fixpoint null_elements (v : jsval) : nat :=
  match v with
  | VArr l =>
      list_sum (map (fun x => ((if is_null x then 1 else 0) + null_elements x)%nat) l)
  | VObj o =>
      (fix count (o : list (jstr * jsval)) : nat :=
         match o with
         | [] => 0%nat
         | (_, x) :: o' => (null_elements x + count o')%nat
         end) o
  | _ => 0%nat
  end.

Lemma removeNulls_null_elements v :
  null_elements (fst (removeNulls v)) = null_elements v.
Proof.
  induction v as [ | b | x | s | l IH | o IH ] using value_ind;
    try reflexivity.
  - rewrite removeNulls_arr. cbn [fst null_elements].
    rewrite map_map. apply list_sum_ext.
    eapply List.Forall_impl; [ | exact IH ].
    intros x Hx. cbn beta. rewrite removeNulls_kind, Hx. reflexivity.
  - rewrite removeNulls_obj. cbn [fst null_elements].
    induction o as [ | [k x] o IHo ]; [ reflexivity | ].
    inversion IH as [ | ? ? Hx Ho ]; subst. cbn [snd] in Hx.
    specialize (IHo Ho). cbn [nulls_members].
    destruct (nulls_members o) as [r n]. cbn [fst] in IHo.
    destruct (removeNulls x) as [x' m] eqn:E. cbn [fst] in Hx.
    destruct x; cbn [fst]; rewrite ?IHo; try reflexivity;
      cbn [removeNulls] in E; try (injection E as <- <-); try reflexivity;
      rewrite Hx; reflexivity.
Qed.

(** An array keeps its length, and its null elements their places. *)
Lemma removeNulls_elements l :
  exists l',
    fst (removeNulls (VArr l)) = VArr l'
    /\ length l' = length l
    /\ forall i, l' !! i = Some VNull <-> l !! i = Some VNull.
Proof.
  exists (map (fun x => fst (removeNulls x)) l).
  split; [ rewrite removeNulls_arr; reflexivity | ].
  split; [ apply length_map | ].
  intros i.
  change (map (fun x => fst (removeNulls x)) l)
    with ((fun x => fst (removeNulls x)) <$> l).
  rewrite list_lookup_fmap.
  destruct (l !! i) as [x | ]; cbn; [ | split; discriminate ].
  pose proof (removeNulls_kind x) as Hk.
  split; intros H; injection H as H; f_equal.
  - rewrite H in Hk. destruct x; try discriminate Hk. reflexivity.
  - rewrite H. reflexivity.
Qed.

(** X1.  [removeNulls] leaves no null member in any object, a second
    pass deletes nothing, and the count it returns is zero exactly when
    the value comes back unchanged.  The null elements of arrays are
    kept: their number, at any depth, is the same afterwards, and an
    array keeps its length and has its null elements at the same
    places. *)
Theorem removeNulls_removes_every_null_member (v : jsval) :
  members_all not_null (fst (removeNulls v)) = true
  /\ removeNulls (fst (removeNulls v)) = (fst (removeNulls v), 0%nat)
  /\ (snd (removeNulls v) = 0%nat <-> fst (removeNulls v) = v)
  /\ null_elements (fst (removeNulls v)) = null_elements v
  /\ (forall l,
        v = VArr l ->
        exists l',
          fst (removeNulls v) = VArr l'
          /\ length l' = length l
          /\ forall i, l' !! i = Some VNull <-> l !! i = Some VNull).
Proof.
  split; [ apply removeNulls_clean | ].
  split; [ apply removeNulls_fixed, removeNulls_clean | ].
  split; [ | split; [ apply removeNulls_null_elements
                    | intros l ->; apply removeNulls_elements ] ].
  pose proof (removeNulls_count v) as Hc. split.
  - intros H0. clear Hc.
    induction v as [ | b | x | s | l IH | o IH ] using value_ind;
      try reflexivity.
    + rewrite removeNulls_arr in *. cbn [fst snd] in *. f_equal.
      apply list_sum_zero_inv in H0. apply map_fixed.
      rewrite List.Forall_forall in *. intros x Hx. apply IH; auto.
    + rewrite removeNulls_obj in *. cbn [fst snd] in *. f_equal.
      induction o as [ | [k x] o IHo ]; [ reflexivity | ].
      inversion IH as [ | ? ? Hx Ho ]; subst. cbn [snd] in Hx.
      cbn [nulls_members] in *.
      destruct (nulls_members o) as [r n]. cbn [fst snd] in *.
      destruct (removeNulls x) as [x' m] eqn:E. cbn [fst snd] in Hx.
      destruct x; cbn [fst snd] in *; try discriminate H0;
        (rewrite Hx by lia); (rewrite IHo by (try exact Ho; lia)); reflexivity.
  - intros E. rewrite E in Hc. lia.
Qed.


Definition not_empty (v : jsval) : bool := negb (is_empty_container v).

Lemma removeEmpty_arr l :
  removeEmpty (VArr l)
  = (VArr (map (fun x => fst (removeEmpty x)) l),
     list_sum (map (fun x => snd (removeEmpty x)) l)).
Proof. reflexivity. Qed.

(** The members that [removeEmpty] keeps and the number it deletes. *)
Fixpoint empty_members (o : list (jstr * jsval)) : list (jstr * jsval) * nat :=
  match o with
  | [] => ([], 0%nat)
  | (k, x) :: o' =>
      let (r, n) := empty_members o' in
      let (x', m) := removeEmpty x in
      if is_empty_container x' then (r, S (m + n))
      else ((k, x') :: r, (m + n)%nat)
  end.

Lemma removeEmpty_obj o :
  removeEmpty (VObj o) = (VObj (fst (empty_members o)), snd (empty_members o)).
Proof.
  cbn [removeEmpty].
  match goal with
  | |- (let (_, _) := ?f o in _) = _ =>
      assert (E : f o = empty_members o)
  end.
  { induction o as [ | [k x] o IH ]; [ reflexivity | ].
    cbn [empty_members]. rewrite <- IH. reflexivity. }
  rewrite E. destruct (empty_members o). reflexivity.
Qed.

Lemma removeEmpty_clean v :
  members_all not_empty (fst (removeEmpty v)) = true.
Proof.
  induction v as [ | b | x | s | l IH | o IH ] using value_ind;
    try reflexivity.
  - rewrite removeEmpty_arr. cbn [fst members_all].
    rewrite forallb_forall. intros y Hy. apply in_map_iff in Hy.
    destruct Hy as [x [<- Hx]]. rewrite List.Forall_forall in IH. apply IH. exact Hx.
  - rewrite removeEmpty_obj. cbn [fst members_all].
    induction o as [ | [k x] o IHo ]; [ reflexivity | ].
    inversion IH as [ | ? ? Hx Ho ]; subst. cbn [snd] in Hx.
    specialize (IHo Ho). cbn [empty_members].
    destruct (empty_members o) as [r n]. cbn [fst] in IHo.
    destruct (removeEmpty x) as [x' m]. cbn [fst] in *.
    destruct (is_empty_container x') eqn:E; cbn [fst]; [ exact IHo | ].
    unfold not_empty at 1. rewrite E, Hx, IHo. reflexivity.
Qed.

Lemma removeEmpty_fixed v :
  members_all not_empty v = true -> removeEmpty v = (v, 0%nat).
Proof.
  induction v as [ | b | x | s | l IH | o IH ] using value_ind;
    try reflexivity; intros H.
  - rewrite removeEmpty_arr. cbn [members_all] in H.
    rewrite forallb_forall in H.
    assert (Hall : Forall (fun x => removeEmpty x = (x, 0%nat)) l).
    { apply List.Forall_forall. intros x Hx. rewrite List.Forall_forall in IH.
      apply IH; [ exact Hx | apply H; exact Hx ]. }
    rewrite map_fixed, list_sum_zero; [ reflexivity | | ];
      (eapply List.Forall_impl; [ | exact Hall ]); intros x ->; reflexivity.
  - rewrite removeEmpty_obj. cbn [members_all] in H.
    enough (E : empty_members o = (o, 0%nat)) by (rewrite E; reflexivity).
    induction o as [ | [k x] o IHo ]; [ reflexivity | ].
    inversion IH as [ | ? ? Hx Ho ]; subst. cbn [snd] in Hx.
    apply andb_prop in H. destruct H as [H Hrest].
    apply andb_prop in H. destruct H as [Hn Hm].
    cbn [empty_members]. rewrite (IHo Ho Hrest), (Hx Hm).
    unfold not_empty in Hn. apply negb_true_iff in Hn. rewrite Hn. reflexivity.
Qed.

Lemma empty_container_count x : is_empty_container x = true -> members_count x = 0%nat.
Proof. destruct x as [ | | | | [ | ] | [ | ] ]; try discriminate; reflexivity. Qed.

Lemma removeEmpty_count v :
  (members_count (fst (removeEmpty v)) + snd (removeEmpty v))%nat
  = members_count v.
Proof.
  induction v as [ | b | x | s | l IH | o IH ] using value_ind;
    try reflexivity.
  - rewrite removeEmpty_arr. cbn [fst snd members_count].
    rewrite map_map, list_sum_add. apply list_sum_ext. exact IH.
  - rewrite removeEmpty_obj. cbn [fst snd members_count].
    induction o as [ | [k x] o IHo ]; [ reflexivity | ].
    inversion IH as [ | ? ? Hx Ho ]; subst. cbn [snd] in Hx.
    specialize (IHo Ho). cbn [empty_members].
    destruct (empty_members o) as [r n]. cbn [fst snd] in IHo.
    destruct (removeEmpty x) as [x' m]. cbn [fst snd] in Hx.
    destruct (is_empty_container x') eqn:E; cbn [fst snd].
    + apply empty_container_count in E. lia.
    + lia.
Qed.

(** X2.  [removeEmpty] leaves no member of any object that is an empty
    array or an empty object, also when the member became empty by the
    removal of its own members; a second pass deletes nothing, and the
    count is zero exactly when the value comes back unchanged. *)
Theorem removeEmpty_removes_every_empty_member (v : jsval) :
  members_all not_empty (fst (removeEmpty v)) = true
  /\ removeEmpty (fst (removeEmpty v)) = (fst (removeEmpty v), 0%nat)
  /\ (snd (removeEmpty v) = 0%nat <-> fst (removeEmpty v) = v).
Proof.
  split; [ apply removeEmpty_clean | ].
  split; [ apply removeEmpty_fixed, removeEmpty_clean | ].
  pose proof (removeEmpty_count v) as Hc. split.
  - intros H0. clear Hc.
    induction v as [ | b | x | s | l IH | o IH ] using value_ind;
      try reflexivity.
    + rewrite removeEmpty_arr in *. cbn [fst snd] in *. f_equal.
      apply list_sum_zero_inv in H0. apply map_fixed.
      rewrite List.Forall_forall in *. intros x Hx. apply IH; auto.
    + rewrite removeEmpty_obj in *. cbn [fst snd] in *. f_equal.
      induction o as [ | [k x] o IHo ]; [ reflexivity | ].
      inversion IH as [ | ? ? Hx Ho ]; subst. cbn [snd] in Hx.
      cbn [empty_members] in *.
      destruct (empty_members o) as [r n]. cbn [fst snd] in *.
      destruct (removeEmpty x) as [x' m]. cbn [fst snd] in Hx.
      destruct (is_empty_container x'); cbn [fst snd] in *;
        [ discriminate H0 | ].
      rewrite Hx by lia. rewrite IHo by (try exact Ho; lia). reflexivity.
  - intros E. rewrite E in Hc. lia.
Qed.


(** ** Rewrites of the leaves *)

(** Every element of every array and every member of every object of
    the value, at any depth, satisfies [p]. *)
Fixpoint elements_all (p : jsval -> bool) (v : jsval) : bool :=
  match v with
  | VArr l => forallb (fun x => p x && elements_all p x) l
  | VObj o =>
      (fix all (o : list (jstr * jsval)) : bool :=
         match o with
         | [] => true
         | (_, x) :: o' => p x && elements_all p x && all o'
         end) o
  | _ => true
  end.

Lemma rewrite_leaves_arr leaf l :
  rewrite_leaves leaf (VArr l)
  = (VArr (map (fun x => fst (rewrite_leaf leaf (rewrite_leaves leaf) x)) l),
     list_sum (map (fun x => snd (rewrite_leaf leaf (rewrite_leaves leaf) x)) l)).
Proof. reflexivity. Qed.

Fixpoint leaves_members (leaf : jsval -> option jsval)
    (o : list (jstr * jsval)) : list (jstr * jsval) * nat :=
  match o with
  | [] => ([], 0%nat)
  | (k, x) :: o' =>
      let (r, n) := leaves_members leaf o' in
      let (x', m) := rewrite_leaf leaf (rewrite_leaves leaf) x in
      ((k, x') :: r, (m + n)%nat)
  end.

Lemma rewrite_leaves_obj leaf o :
  rewrite_leaves leaf (VObj o)
  = (VObj (fst (leaves_members leaf o)), snd (leaves_members leaf o)).
Proof.
  cbn [rewrite_leaves].
  match goal with
  | |- (let (_, _) := ?f o in _) = _ =>
      assert (E : f o = leaves_members leaf o)
  end.
  { induction o as [ | [k x] o IH ]; [ reflexivity | ].
    cbn [leaves_members]. rewrite <- IH. reflexivity. }
  rewrite E. destruct (leaves_members leaf o). reflexivity.
Qed.

Section Leaves.
Variable leaf : jsval -> option jsval.
Variable p : jsval -> bool.

(** The result of the rewrite is a leaf that satisfies [p]; a value
    that is left alone, and every container, satisfies [p]. *)
Hypothesis leaf_some :
  forall x x', leaf x = Some x' -> is_object x' = false /\ p x' = true.
Hypothesis leaf_none :
  forall x, leaf x = None -> p x = true.
Hypothesis p_object :
  forall x, is_object x = true -> p x = true.

Lemma rewrite_leaf_clean x :
  elements_all p (fst (rewrite_leaves leaf x)) = true ->
  let y := fst (rewrite_leaf leaf (rewrite_leaves leaf) x) in
  p y && elements_all p y = true.
Proof using leaf_some leaf_none p_object.
  intros IH. unfold rewrite_leaf.
  destruct (leaf x) as [x' | ] eqn:E; cbn [fst].
  - apply leaf_some in E. destruct E as [Ho Hp]. rewrite Hp.
    destruct x'; try reflexivity; discriminate Ho.
  - rewrite IH, andb_true_r.
    assert (Hp : p x = true) by (apply leaf_none; exact E).
    destruct x; try exact Hp.
    + rewrite rewrite_leaves_arr. apply p_object. reflexivity.
    + rewrite rewrite_leaves_obj. apply p_object. reflexivity.
Qed.

Lemma rewrite_leaves_clean v :
  elements_all p (fst (rewrite_leaves leaf v)) = true.
Proof using leaf_some leaf_none p_object.
  induction v as [ | b | x | s | l IH | o IH ] using value_ind;
    try reflexivity.
  - rewrite rewrite_leaves_arr. cbn [fst elements_all].
    rewrite forallb_forall. intros y Hy. apply in_map_iff in Hy.
    destruct Hy as [x [<- Hx]]. rewrite List.Forall_forall in IH.
    apply rewrite_leaf_clean. apply IH. exact Hx.
  - rewrite rewrite_leaves_obj. cbn [fst elements_all].
    induction o as [ | [k x] o IHo ]; [ reflexivity | ].
    inversion IH as [ | ? ? Hx Ho ]; subst. cbn [snd] in Hx.
    specialize (IHo Ho). cbn [leaves_members].
    destruct (leaves_members leaf o) as [r n]. cbn [fst] in IHo.
    pose proof (rewrite_leaf_clean x Hx) as Hy. cbn zeta in Hy.
    destruct (rewrite_leaf leaf (rewrite_leaves leaf) x) as [x' m].
    cbn [fst] in *. rewrite Hy, IHo. reflexivity.
Qed.

(** A count of zero means that nothing was rewritten. *)
Lemma rewrite_leaves_zero v :
  snd (rewrite_leaves leaf v) = 0%nat -> fst (rewrite_leaves leaf v) = v.
Proof using Type.
  assert (Hleaf : forall x,
             (snd (rewrite_leaves leaf x) = 0%nat ->
              fst (rewrite_leaves leaf x) = x) ->
             (snd (rewrite_leaf leaf (rewrite_leaves leaf) x) = 0%nat ->
              fst (rewrite_leaf leaf (rewrite_leaves leaf) x) = x)).
  { intros x IH. unfold rewrite_leaf.
    destruct (leaf x) as [x' | ] eqn:E; cbn [fst snd]; [ discriminate | exact IH ]. }
  induction v as [ | b | x | s | l IH | o IH ] using value_ind;
    try reflexivity.
  - rewrite rewrite_leaves_arr. cbn [fst snd].
    intros H0. f_equal. apply list_sum_zero_inv in H0. apply map_fixed.
    rewrite List.Forall_forall in *. intros x Hx. apply Hleaf; auto.
  - rewrite rewrite_leaves_obj. cbn [fst snd].
    induction o as [ | [k x] o IHo ]; [ reflexivity | ].
    inversion IH as [ | ? ? Hx Ho ]; subst. cbn [snd] in Hx.
    specialize (IHo Ho). pose proof (Hleaf x Hx) as Hx'. clear Hx. rename Hx' into Hx.
    cbn [leaves_members].
    destruct (leaves_members leaf o) as [r n]. cbn [fst snd] in IHo.
    destruct (rewrite_leaf leaf (rewrite_leaves leaf) x) as [x' m].
    cbn [fst snd] in *.
    intros H0. assert (m = 0 /\ n = 0)%nat as [-> ->] by lia.
    rewrite Hx by reflexivity.
    specialize (IHo eq_refl). injection IHo as ->. reflexivity.
Qed.

(** When the rewrite never returns its argument, a value that comes
    back unchanged was counted zero times. *)
Lemma rewrite_leaves_changed v :
  (forall x x', leaf x = Some x' -> x' <> x) ->
  fst (rewrite_leaves leaf v) = v -> snd (rewrite_leaves leaf v) = 0%nat.
Proof using Type.
  intros Hne.
  assert (Hleaf : forall x,
             (fst (rewrite_leaves leaf x) = x ->
              snd (rewrite_leaves leaf x) = 0%nat) ->
             (fst (rewrite_leaf leaf (rewrite_leaves leaf) x) = x ->
              snd (rewrite_leaf leaf (rewrite_leaves leaf) x) = 0%nat)).
  { intros x IH. unfold rewrite_leaf.
    destruct (leaf x) as [x' | ] eqn:E; cbn [fst snd]; [ | exact IH ].
    intros H. apply Hne in E. contradiction. }
  induction v as [ | b | x | s | l IH | o IH ] using value_ind;
    try reflexivity.
  - rewrite rewrite_leaves_arr. cbn [fst snd].
    intros E. injection E as E. apply list_sum_zero.
    induction l as [ | x l IHl ]; constructor;
      inversion IH as [ | ? ? Hx Hl ]; subst; cbn [map] in E;
      injection E as E1 E2.
    + apply Hleaf; assumption.
    + apply IHl; assumption.
  - rewrite rewrite_leaves_obj. cbn [fst snd].
    induction o as [ | [k x] o IHo ]; [ reflexivity | ].
    inversion IH as [ | ? ? Hx Ho ]; subst. cbn [snd] in Hx.
    specialize (IHo Ho). pose proof (Hleaf x Hx) as Hx'. clear Hx. rename Hx' into Hx.
    cbn [leaves_members].
    destruct (leaves_members leaf o) as [r n]. cbn [fst snd] in IHo.
    destruct (rewrite_leaf leaf (rewrite_leaves leaf) x) as [x' m].
    cbn [fst snd] in *.
    intros E. injection E as -> ->.
    rewrite Hx by reflexivity. rewrite IHo by reflexivity. reflexivity.
Qed.

(** When [p] holds only of the values that the rewrite leaves alone, a
    value whose elements all satisfy [p] is a fixed point. *)
Lemma rewrite_leaves_fixed v :
  (forall x, p x = true -> leaf x = None) ->
  elements_all p v = true -> rewrite_leaves leaf v = (v, 0%nat).
Proof using Type.
  intros Hp.
  assert (Hleaf : forall x,
             p x = true ->
             rewrite_leaves leaf x = (x, 0%nat) ->
             rewrite_leaf leaf (rewrite_leaves leaf) x = (x, 0%nat)).
  { intros x Hx IH. unfold rewrite_leaf. rewrite (Hp x Hx). exact IH. }
  induction v as [ | b | x | s | l IH | o IH ] using value_ind;
    try reflexivity; intros H.
  - rewrite rewrite_leaves_arr. cbn [elements_all] in H.
    rewrite forallb_forall in H.
    assert (Hall : Forall (fun x => rewrite_leaf leaf (rewrite_leaves leaf) x
                                    = (x, 0%nat)) l).
    { apply List.Forall_forall. intros x Hx. rewrite List.Forall_forall in IH.
      specialize (H x Hx). apply andb_prop in H. destruct H as [H1 H2].
      apply Hleaf; [ exact H1 | ]. apply IH; assumption. }
    rewrite map_fixed, list_sum_zero; [ reflexivity | | ];
      (eapply List.Forall_impl; [ | exact Hall ]); intros x ->; reflexivity.
  - rewrite rewrite_leaves_obj. cbn [elements_all] in H.
    enough (E : leaves_members leaf o = (o, 0%nat)) by (rewrite E; reflexivity).
    induction o as [ | [k x] o IHo ]; [ reflexivity | ].
    inversion IH as [ | ? ? Hx Ho ]; subst. cbn [snd] in Hx.
    apply andb_prop in H. destruct H as [H Hrest].
    apply andb_prop in H. destruct H as [Hn Hm].
    cbn [leaves_members]. rewrite (IHo Ho Hrest).
    rewrite (Hleaf x Hn (Hx Hm)). reflexivity.
Qed.

End Leaves.


(** ** Trimming *)

Definition edge_ok (s : jstr) : bool :=
  match s with [] => true | c :: _ => negb (is_ws c) end.

Lemma trimStart_edge s : edge_ok (trimStart s) = true.
Proof.
  induction s as [ | c s IH ]; [ reflexivity | ].
  cbn [trimStart]. destruct (is_ws c) eqn:E; [ exact IH | ].
  cbn [edge_ok]. rewrite E. reflexivity.
Qed.

Lemma trimStart_fixed s : edge_ok s = true -> trimStart s = s.
Proof.
  destruct s as [ | c s ]; [ reflexivity | ].
  cbn [edge_ok trimStart]. intros H. apply negb_true_iff in H. rewrite H.
  reflexivity.
Qed.

Lemma trimStart_suffix s : exists w, s = w ++ trimStart s.
Proof.
  induction s as [ | c s [w IH] ]; [ exists []; reflexivity | ].
  cbn [trimStart]. destruct (is_ws c).
  - exists (c :: w). cbn [app]. rewrite <- IH. reflexivity.
  - exists []. reflexivity.
Qed.

Lemma trim_edges s :
  edge_ok (trim s) = true /\ edge_ok (rev (trim s)) = true.
Proof.
  unfold trim, trimEnd. rewrite rev_involutive.
  split; [ | apply trimStart_edge ].
  pose proof (trimStart_edge s) as Ht.
  destruct (trimStart_suffix (rev (trimStart s))) as [w Hw].
  destruct (trimStart (rev (trimStart s))) as [ | c u ] eqn:Eu using rev_ind;
    [ reflexivity | ].
  rewrite rev_app_distr. cbn [rev app edge_ok].
  apply (f_equal (@rev N)) in Hw. rewrite rev_involutive in Hw.
  rewrite Hw in Ht. rewrite !rev_app_distr in Ht. cbn [rev app edge_ok] in Ht.
  exact Ht.
Qed.

Lemma trim_fixed s :
  edge_ok s = true -> edge_ok (rev s) = true -> trim s = s.
Proof.
  intros H1 H2. unfold trim, trimEnd.
  rewrite (trimStart_fixed s H1), (trimStart_fixed (rev s) H2).
  apply rev_involutive.
Qed.

Lemma trim_idempotent s : trim (trim s) = trim s.
Proof. apply trim_fixed; apply trim_edges. Qed.


(** ** The leaf rewrites of the JSON engine *)

Definition trimmed (x : jsval) : bool :=
  match x with VStr s => str_eqb (trim s) s | _ => true end.

Definition trim_leaf (x : jsval) : option jsval :=
  match x with
  | VStr s => if str_eqb (trim s) s then None else Some (VStr (trim s))
  | _ => None
  end.

Lemma trimStrings_leaf : trimStrings = rewrite_leaves trim_leaf.
Proof. reflexivity. Qed.

Lemma trim_leaf_some x x' :
  trim_leaf x = Some x' -> is_object x' = false /\ trimmed x' = true.
Proof.
  destruct x as [ | | | s | | ]; try discriminate. cbn [trim_leaf].
  destruct (str_eqb (trim s) s); [ discriminate | ].
  intros H. injection H as <-. split; [ reflexivity | ].
  cbn [trimmed]. rewrite trim_idempotent. apply str_eqb_eq. reflexivity.
Qed.

Lemma trim_leaf_none x : trim_leaf x = None -> trimmed x = true.
Proof.
  destruct x as [ | | | s | | ]; try reflexivity. cbn [trim_leaf trimmed].
  destruct (str_eqb (trim s) s); [ reflexivity | discriminate ].
Qed.

Lemma trimmed_object x : is_object x = true -> trimmed x = true.
Proof. destruct x; try discriminate; reflexivity. Qed.

Lemma trimmed_leaf x : trimmed x = true -> trim_leaf x = None.
Proof.
  destruct x as [ | | | s | | ]; try reflexivity. cbn [trim_leaf trimmed].
  intros ->. reflexivity.
Qed.

Lemma trim_leaf_changes x x' : trim_leaf x = Some x' -> x' <> x.
Proof.
  destruct x as [ | | | s | | ]; try discriminate. cbn [trim_leaf].
  destruct (str_eqb (trim s) s) eqn:E; [ discriminate | ].
  intros H. injection H as <-. intros H. injection H as H.
  apply str_eqb_eq in H. congruence.
Qed.

(** X3.  After [trimStrings] every string that is an element of an array
    or the value of a member, at any depth, is trimmed; a second pass
    rewrites nothing, and the count is zero exactly when the value comes
    back unchanged. *)
Theorem trimStrings_trims_every_string (v : jsval) :
  elements_all trimmed (fst (trimStrings v)) = true
  /\ trimStrings (fst (trimStrings v)) = (fst (trimStrings v), 0%nat)
  /\ (snd (trimStrings v) = 0%nat <-> fst (trimStrings v) = v).
Proof.
  rewrite trimStrings_leaf.
  assert (Hclean : elements_all trimmed (fst (rewrite_leaves trim_leaf v)) = true).
  { apply rewrite_leaves_clean.
    - exact trim_leaf_some.
    - exact trim_leaf_none.
    - exact trimmed_object. }
  split; [ exact Hclean | ]. split.
  - apply (rewrite_leaves_fixed trim_leaf trimmed); [ exact trimmed_leaf | exact Hclean ].
  - split.
    + apply rewrite_leaves_zero.
    + apply rewrite_leaves_changed. exact trim_leaf_changes.
Qed.

Definition at_most (n : nat) (x : jsval) : bool :=
  match x with VStr s => (length s <=? n)%nat | _ => true end.

Definition truncate_leaf (maxLength : nat) (x : jsval) : option jsval :=
  match x with
  | VStr s =>
      if (maxLength <? length s)%nat
      then Some (VStr (substring0 maxLength s ++ lit "..."))
      else None
  | _ => None
  end.

(** X4.  After [truncateStrings] every string that is an element of an
    array or the value of a member, at any depth, has at most
    [maxLength + 3] code units, and a count of zero means that the
    value comes back unchanged. *)
Theorem truncateStrings_bounds_every_string (maxLength : nat) (v : jsval) :
  elements_all (at_most (maxLength + 3)) (fst (truncateStrings maxLength v))
  = true
  /\ (snd (truncateStrings maxLength v) = 0%nat ->
      fst (truncateStrings maxLength v) = v).
Proof.
  change (truncateStrings maxLength)
    with (rewrite_leaves (truncate_leaf maxLength)).
  split; [ | apply rewrite_leaves_zero ].
  apply rewrite_leaves_clean.
  - intros x x'. destruct x as [ | | | s | | ]; try discriminate.
    cbn [truncate_leaf]. destruct (maxLength <? length s)%nat eqn:E;
      [ | discriminate ].
    intros H. injection H as <-. split; [ reflexivity | ].
    cbn [at_most]. apply Nat.leb_le. apply Nat.ltb_lt in E.
    unfold substring0. rewrite length_app, firstn_length_le by lia.
    cbn. lia.
  - intros x. destruct x as [ | | | s | | ]; try reflexivity.
    cbn [truncate_leaf at_most]. destruct (maxLength <? length s)%nat eqn:E;
      [ discriminate | ].
    intros _. apply Nat.leb_le. apply Nat.ltb_ge in E. lia.
  - intros x. destruct x; try discriminate; reflexivity.
Qed.


(** ** The minimal tier of the JSON engine *)

Lemma removeEmpty_kind x : is_null (fst (removeEmpty x)) = is_null x.
Proof.
  destruct x; try reflexivity. rewrite removeEmpty_obj. reflexivity.
Qed.

Lemma removeEmpty_keeps_not_null v :
  members_all not_null v = true ->
  members_all not_null (fst (removeEmpty v)) = true.
Proof.
  induction v as [ | b | x | s | l IH | o IH ] using value_ind;
    try reflexivity; intros H.
  - rewrite removeEmpty_arr. cbn [fst members_all] in *.
    rewrite forallb_forall in *. intros y Hy. apply in_map_iff in Hy.
    destruct Hy as [x [<- Hx]]. rewrite List.Forall_forall in IH. auto.
  - rewrite removeEmpty_obj. cbn [fst members_all] in *.
    induction o as [ | [k x] o IHo ]; [ reflexivity | ].
    inversion IH as [ | ? ? Hx Ho ]; subst. cbn [snd] in Hx.
    apply andb_prop in H. destruct H as [H Hrest].
    apply andb_prop in H. destruct H as [Hn Hm].
    specialize (IHo Ho Hrest). specialize (Hx Hm). cbn [empty_members].
    destruct (empty_members o) as [r n]. cbn [fst] in IHo.
    pose proof (removeEmpty_kind x) as Hk.
    destruct (removeEmpty x) as [x' m]. cbn [fst] in *.
    destruct (is_empty_container x'); cbn [fst]; [ exact IHo | ].
    unfold not_null in *. rewrite Hk, Hn, Hx, IHo. reflexivity.
Qed.

Section Stable.
Variable leaf : jsval -> option jsval.
Variable q : jsval -> bool.

(** [q] holds of every leaf that the rewrite produces and does not
    tell a container from its rewritten form. *)
Hypothesis q_leaf : forall x x', leaf x = Some x' -> q x' = true /\ is_object x' = false.
Hypothesis q_stable : forall x, q (fst (rewrite_leaves leaf x)) = q x.

Lemma rewrite_leaves_keeps v :
  members_all q v = true ->
  members_all q (fst (rewrite_leaves leaf v)) = true.
Proof using q_leaf q_stable.
  assert (Hleaf : forall x,
             q x = true ->
             members_all q (fst (rewrite_leaves leaf x)) = true ->
             let y := fst (rewrite_leaf leaf (rewrite_leaves leaf) x) in
             q y = true /\ members_all q y = true).
  { intros x Hq IH. unfold rewrite_leaf.
    destruct (leaf x) as [x' | ] eqn:E; cbn [fst].
    - apply q_leaf in E. destruct E as [E1 E2]. split; [ exact E1 | ].
      destruct x'; try reflexivity; discriminate E2.
    - rewrite q_stable. split; assumption. }
  induction v as [ | b | x | s | l IH | o IH ] using value_ind;
    try reflexivity; intros H.
  - rewrite rewrite_leaves_arr. cbn [fst members_all] in *.
    rewrite forallb_forall in *. intros y Hy. apply in_map_iff in Hy.
    destruct Hy as [x [<- Hx]]. rewrite List.Forall_forall in IH.
    unfold rewrite_leaf. destruct (leaf x) as [x' | ] eqn:E; cbn [fst].
    + apply q_leaf in E. destruct E as [_ E2].
      destruct x'; try reflexivity; discriminate E2.
    + auto.
  - rewrite rewrite_leaves_obj. cbn [fst members_all] in *.
    induction o as [ | [k x] o IHo ]; [ reflexivity | ].
    inversion IH as [ | ? ? Hx Ho ]; subst. cbn [snd] in Hx.
    apply andb_prop in H. destruct H as [H Hrest].
    apply andb_prop in H. destruct H as [Hn Hm].
    specialize (IHo Ho Hrest). specialize (Hx Hm). cbn [leaves_members].
    destruct (leaves_members leaf o) as [r n]. cbn [fst] in IHo.
    destruct (Hleaf x Hn Hx) as [H1 H2].
    destruct (rewrite_leaf leaf (rewrite_leaves leaf) x) as [x' m].
    cbn [fst] in *. rewrite H1, H2, IHo. reflexivity.
Qed.

End Stable.

Lemma leaves_members_length leaf o :
  length (fst (leaves_members leaf o)) = length o.
Proof.
  induction o as [ | [k x] o IH ]; [ reflexivity | ].
  cbn [leaves_members]. destruct (leaves_members leaf o) as [r n].
  destruct (rewrite_leaf leaf (rewrite_leaves leaf) x). cbn [fst length] in *.
  rewrite IH. reflexivity.
Qed.

Lemma rewrite_leaves_not_null leaf x :
  not_null (fst (rewrite_leaves leaf x)) = not_null x.
Proof.
  destruct x; try reflexivity. rewrite rewrite_leaves_obj. reflexivity.
Qed.

Lemma rewrite_leaves_not_empty leaf x :
  not_empty (fst (rewrite_leaves leaf x)) = not_empty x.
Proof.
  destruct x as [ | | | | l | o ]; try reflexivity.
  - rewrite rewrite_leaves_arr. cbn [fst]. destruct l; reflexivity.
  - rewrite rewrite_leaves_obj. cbn [fst].
    pose proof (leaves_members_length leaf o) as H.
    destruct (fst (leaves_members leaf o)), o; try discriminate H; reflexivity.
Qed.

Lemma log_count_zero type extra reversible impact ops :
  log_count type extra 0 reversible impact ops = ops.
Proof. reflexivity. Qed.

Lemma trim_leaf_string x x' : trim_leaf x = Some x' -> exists s, x' = VStr s.
Proof.
  destruct x as [ | | | s | | ]; try discriminate. cbn [trim_leaf].
  destruct (str_eqb (trim s) s); [ discriminate | ].
  intros H. injection H as <-. eexists. reflexivity.
Qed.

(** The value that the minimal tier returns. *)
Lemma json_minimal_value data ops o :
  fst (applyMinimalCompression data ops o)
  = fst (trimStrings
           (fst (removeEmpty
                   (if opt_not_false o "removeNulls"
                    then fst (removeNulls data) else data)))).
Proof.
  unfold applyMinimalCompression.
  destruct (opt_not_false o "removeNulls");
    [ destruct (removeNulls data) | ];
    cbn [fst]; destruct (removeEmpty _); cbn [fst];
    destruct (trimStrings _); reflexivity.
Qed.

(** X5.  The minimal tier of the JSON engine is idempotent: run on its
    own result with an empty log, it returns that result and logs
    nothing. *)
Theorem json_minimal_tier_idempotent
    (data : jsval) (ops : list Entry) (customOptions : Options) :
  let once := fst (applyMinimalCompression data ops customOptions) in
  applyMinimalCompression once [] customOptions = (once, []).
Proof.
  cbv zeta. rewrite json_minimal_value.
  set (d1 := if opt_not_false customOptions "removeNulls"
             then fst (removeNulls data) else data).
  set (d3 := fst (trimStrings (fst (removeEmpty d1)))).
  assert (Hempty : members_all not_empty d3 = true).
  { unfold d3. rewrite trimStrings_leaf.
    apply (rewrite_leaves_keeps trim_leaf not_empty).
    - intros x x' Hx. apply trim_leaf_string in Hx. destruct Hx as [s ->].
      split; reflexivity.
    - apply rewrite_leaves_not_empty.
    - apply removeEmpty_clean. }
  assert (Hnull : opt_not_false customOptions "removeNulls" = true ->
                  members_all not_null d3 = true).
  { intros Hon. unfold d3, d1. rewrite Hon, trimStrings_leaf.
    apply (rewrite_leaves_keeps trim_leaf not_null).
    - intros x x' Hx. apply trim_leaf_string in Hx. destruct Hx as [s ->].
      split; reflexivity.
    - apply rewrite_leaves_not_null.
    - apply removeEmpty_keeps_not_null, removeNulls_clean. }
  assert (Htrim : trimStrings d3 = (d3, 0%nat)).
  { rewrite trimStrings_leaf.
    apply (rewrite_leaves_fixed trim_leaf trimmed); [ exact trimmed_leaf | ].
    unfold d3. rewrite trimStrings_leaf. apply rewrite_leaves_clean.
    - exact trim_leaf_some.
    - exact trim_leaf_none.
    - exact trimmed_object. }
  clearbody d3. unfold applyMinimalCompression.
  destruct (opt_not_false customOptions "removeNulls") eqn:Hon.
  - rewrite (removeNulls_fixed d3 (Hnull eq_refl)).
    rewrite (removeEmpty_fixed d3 Hempty), Htrim. reflexivity.
  - rewrite (removeEmpty_fixed d3 Hempty), Htrim. reflexivity.
Qed.

(** ** The minimal tier of the CSV engine *)

Lemma fields_of_trim_line l : fields_of (trim_line l) = map trim (fields_of l).
Proof.
  unfold trim_line, line_of, fields_of. apply split_join.
  - pose proof (split_not_nil comma l) as H.
    destruct (split comma l); [ congruence | discriminate ].
  - apply List.Forall_forall. intros f Hf. apply in_map_iff in Hf.
    destruct Hf as [g [<- Hg]]. intros Hc. apply In_trim in Hc.
    pose proof (split_no_sep comma l) as H. rewrite List.Forall_forall in H.
    exact (H g Hg Hc).
Qed.

Lemma trim_line_idempotent l : trim_line (trim_line l) = trim_line l.
Proof.
  unfold trim_line at 1. rewrite fields_of_trim_line, map_map.
  unfold trim_line. f_equal. apply map_ext. intros f. apply trim_idempotent.
Qed.

Lemma all_fields_empty_trim_line l :
  all_fields_empty (trim_line l) = all_fields_empty l.
Proof.
  unfold all_fields_empty. rewrite fields_of_trim_line.
  induction (fields_of l) as [ | f fs IH ]; [ reflexivity | ].
  cbn [map forallb]. rewrite trim_idempotent, IH. reflexivity.
Qed.

Lemma trim_line_unchanged l :
  count_if changed_by_trim (fields_of (trim_line l)) = 0%nat.
Proof.
  rewrite fields_of_trim_line. unfold count_if.
  induction (fields_of l) as [ | f fs IH ]; [ reflexivity | ].
  cbn [map]. rewrite filter_cons.
  destruct (decide (changed_by_trim (trim f) = true)) as [ H | H ]; [ | exact IH ].
  unfold changed_by_trim in H. rewrite trim_idempotent in H.
  apply negb_true_iff in H.
  assert (E : str_eqb (trim f) (trim f) = true) by (apply str_eqb_eq; reflexivity).
  congruence.
Qed.

(** The rows that the minimal tier returns. *)
Definition minimal_rows (dataLines : list jstr) (o : Options) : list jstr :=
  map trim_line
      (if opt_not_false o "removeEmptyRows"
       then filter (fun l => all_fields_empty l = false) dataLines
       else dataLines).

Lemma minimal_result header dataLines ops o :
  fst (applyMinimalCSVCompression header dataLines ops o)
  = (header, minimal_rows dataLines o).
Proof.
  unfold applyMinimalCSVCompression, minimal_rows.
  destruct (opt_not_false o "removeEmptyRows"); split_tier; reflexivity.
Qed.

Lemma filter_keeps_all {A} (p : A -> Prop) `{forall x, Decision (p x)} (l : list A) :
  Forall p l -> filter p l = l.
Proof.
  induction 1 as [ | x l Hx Hl IH ]; [ reflexivity | ].
  rewrite filter_cons. destruct (decide (p x)); [ | contradiction ].
  rewrite IH. reflexivity.
Qed.

Lemma minimal_rows_fixed header dataLines o :
  applyMinimalCSVCompression header (minimal_rows dataLines o) [] o
  = (header, minimal_rows dataLines o, []).
Proof.
  set (rows := minimal_rows dataLines o).
  assert (Hkeep : opt_not_false o "removeEmptyRows" = true ->
                  filter (fun l => all_fields_empty l = false) rows = rows).
  { intros Hon. apply filter_keeps_all. unfold rows, minimal_rows.
    rewrite Hon. apply Forall_map. apply List.Forall_forall. intros l Hl.
    apply list_elem_of_In, list_elem_of_filter in Hl. cbn.
    rewrite all_fields_empty_trim_line. tauto. }
  assert (Hcount : list_sum (map (fun l => count_if changed_by_trim (fields_of l))
                                 rows) = 0%nat).
  { apply list_sum_zero. unfold rows, minimal_rows. apply Forall_map.
    apply List.Forall_forall. intros l _. cbn. apply trim_line_unchanged. }
  assert (Htrim : map trim_line rows = rows).
  { unfold rows, minimal_rows. rewrite map_map. apply map_ext.
    intros l. apply trim_line_idempotent. }
  unfold applyMinimalCSVCompression.
  destruct (opt_not_false o "removeEmptyRows") eqn:Hon.
  - rewrite (Hkeep eq_refl), Nat.ltb_irrefl, Hcount, Htrim. reflexivity.
  - rewrite Hcount, Htrim. reflexivity.
Qed.

Lemma minimal_rows_proper dataLines o :
  Forall proper_line dataLines -> Forall proper_line (minimal_rows dataLines o).
Proof.
  intros H. unfold minimal_rows. apply Forall_map.
  assert (H' : Forall proper_line
                 (if opt_not_false o "removeEmptyRows"
                  then filter (fun l => all_fields_empty l = false) dataLines
                  else dataLines)).
  { destruct (opt_not_false o "removeEmptyRows"); [ | exact H ].
    apply List.Forall_forall. intros l Hl.
    apply list_elem_of_In, list_elem_of_filter in Hl.
    rewrite List.Forall_forall in H. apply H. apply list_elem_of_In. tauto. }
  eapply List.Forall_impl; [ | exact H' ]. intros l. apply trim_line_proper.
Qed.

(** What the engine returns at the minimal tier. *)
Lemma compressCSV_minimal content o :
  match input_lines content with
  | [] => compressCSV content "minimal" o = inl (JsError (lit "Empty CSV file"))
  | header :: dataLines =>
      exists r,
        compressCSV content "minimal" o = inr r
        /\ compressed r = join [newline] (header :: minimal_rows dataLines o)
        /\ log r = snd (applyMinimalCSVCompression header dataLines [] o)
  end.
Proof.
  unfold compressCSV. fold (input_lines content).
  destruct (input_lines content) as [ | header dataLines ]; [ reflexivity | ].
  cbn [String.eqb Ascii.eqb Bool.eqb].
  pose proof (minimal_result header dataLines [] o) as Hres.
  destruct (applyMinimalCSVCompression header dataLines [] o) as [[h d] ops].
  cbn [fst] in Hres. injection Hres as -> ->.
  eexists. split; [ reflexivity | ]. split; reflexivity.
Qed.

(** X6.  The minimal tier of the CSV engine is idempotent: compressing
    its output again at the minimal tier, with the same options,
    returns the same text and an empty log. *)
Theorem csv_minimal_tier_idempotent
    (content : jstr) (customOptions : Options) (r : CompressionResult) :
  compressCSV content "minimal" customOptions = inr r ->
  exists r',
    compressCSV (compressed r) "minimal" customOptions = inr r'
    /\ compressed r' = compressed r
    /\ operations r' = [].
Proof.
  intros Hr.
  pose proof (compressCSV_minimal content customOptions) as H1.
  pose proof (input_lines_proper content) as Hp. fold (input_lines content) in Hp.
  destruct (input_lines content) as [ | header dataLines ];
    [ congruence | ].
  destruct H1 as [r1 [E1 [Hc _]]]. rewrite Hr in E1. injection E1 as <-.
  inversion Hp as [ | ? ? Hh Hd ]; subst.
  assert (Hall : Forall proper_line (header :: minimal_rows dataLines customOptions)).
  { constructor; [ exact Hh | apply minimal_rows_proper; exact Hd ]. }
  assert (E : input_lines (compressed r)
              = header :: minimal_rows dataLines customOptions).
  { rewrite Hc. unfold input_lines. rewrite split_join.
    - apply filter_all_true. eapply List.Forall_impl; [ | exact Hall ].
      intros l [Hl _]. exact Hl.
    - discriminate.
    - eapply List.Forall_impl; [ | exact Hall ]. intros l [_ Hl]. exact Hl. }
  pose proof (compressCSV_minimal (compressed r) customOptions) as H2.
  rewrite E in H2. destruct H2 as [r2 [E2 [Hc2 Hl2]]].
  exists r2. split; [ exact E2 | ].
  rewrite minimal_rows_fixed in Hl2. cbn [snd] in Hl2.
  split.
  - rewrite Hc2, Hc. f_equal. f_equal.
    pose proof (minimal_result header (minimal_rows dataLines customOptions) []
                  customOptions) as Hm.
    rewrite minimal_rows_fixed in Hm. cbn [fst] in Hm. congruence.
  - unfold operations. rewrite Hl2. reflexivity.
Qed.

Lemma csv_minimal_tier_idempotent_witness :
  exists r r',
    compressCSV blank_rows_input "minimal" ∅ = inr r
    /\ compressCSV (compressed r) "minimal" ∅ = inr r'
    /\ compressed r' = compressed r
    /\ operations r' = [].
Proof.
  destruct (compressCSV blank_rows_input "minimal" ∅) as [ e | r ] eqn:E;
    [ vm_compute in E; discriminate E | ].
  destruct (csv_minimal_tier_idempotent blank_rows_input ∅ r E) as [r' H].
  exists r, r'. split; [ reflexivity | exact H ].
Defined.


(** ** The dictionary of a column *)

Lemma insert_sorted_In x y l : In y (insert_sorted x l) <-> y = x \/ In y l.
Proof.
  induction l as [ | z l IH ]; cbn [insert_sorted].
  - cbn. intuition congruence.
  - destruct (str_ltb z x); cbn [In]; [ rewrite IH | ]; intuition congruence.
Qed.

Lemma sort_strings_In y l : In y (sort_strings l) <-> In y l.
Proof.
  induction l as [ | x l IH ]; [ reflexivity | ].
  cbn [sort_strings fold_right]. fold (sort_strings l).
  rewrite insert_sorted_In, IH. cbn. intuition congruence.
Qed.

Lemma uniq_In y seen l :
  In y (uniq seen l) <-> In y l /\ ~ In y seen.
Proof.
  revert seen. induction l as [ | x l IH ]; intros seen; cbn [uniq In].
  - tauto.
  - destruct (existsb (str_eqb x) seen) eqn:E.
    + apply existsb_exists in E. destruct E as [z [Hz E]].
      apply str_eqb_eq in E. subst z. rewrite IH.
      split; [ tauto | ]. intros [[ -> | H ] Hn]; [ contradiction | tauto ].
    + assert (Hx : ~ In x seen).
      { intros H. apply not_true_iff_false in E. apply E.
        apply existsb_exists. exists x. split; [ exact H | ].
        apply str_eqb_eq. reflexivity. }
      cbn [In]. rewrite IH. cbn [In].
      destruct (decide (x = y)) as [ -> | Hne ]; [ tauto | ].
      intuition congruence.
Qed.

Lemma code_of_In value sorted :
  In value sorted -> exists code, code_of value sorted = Some code.
Proof.
  induction sorted as [ | v rest IH ]; [ intros [] | ].
  cbn [code_of]. destruct (str_eqb v value) eqn:E; [ eauto | ].
  intros [ -> | H ].
  - assert (E' : str_eqb value value = true) by (apply str_eqb_eq; reflexivity).
    congruence.
  - destruct (IH H) as [c ->]. eexists. reflexivity.
Qed.

Lemma code_of_lookup value sorted code :
  code_of value sorted = Some code -> sorted !! code = Some value.
Proof.
  revert code. induction sorted as [ | v rest IH ]; intros code; [ discriminate | ].
  cbn [code_of]. destruct (str_eqb v value) eqn:E.
  - intros H. injection H as <-. apply str_eqb_eq in E. subst. reflexivity.
  - destruct (code_of value rest) as [c | ]; [ | discriminate ].
    intros H. injection H as <-. cbn. apply IH. reflexivity.
Qed.

(** X7.  The dictionary of a column is complete and decodes what it
    encodes: the trimmed value of every row has a code, the entry of
    the reverse dictionary at that code is the value itself, and the
    cell is overwritten with the decimal digits of the code; the one
    value that is not encoded so is the one that names the prototype
    of the dictionary object. *)
Theorem dictionary_decodes_every_cell
    (dataLines : list jstr) (colIndex : nat) (line : jstr) :
  In line dataLines ->
  let fields := fields_of line in
  let value := trimmed_at fields colIndex in
  exists code,
    code_of value (reverseDictionary colIndex dataLines) = Some code
    /\ reverseDictionary colIndex dataLines !! code = Some value
    /\ encode_cell dataLines fields colIndex
       = array_set colIndex
           (if str_eqb value (lit "__proto__") then lit "[object Object]"
            else digits_of_N (N.of_nat code))
           fields.
Proof.
  intros Hin. cbv zeta.
  assert (Hv : In (trimmed_at (fields_of line) colIndex)
                  (reverseDictionary colIndex dataLines)).
  { unfold reverseDictionary. apply sort_strings_In, uniq_In.
    split; [ | intros [] ]. unfold column_values. apply in_map_iff.
    exists line. split; [ reflexivity | exact Hin ]. }
  destruct (code_of_In _ _ Hv) as [code Hcode].
  exists code. split; [ exact Hcode | ].
  split; [ apply code_of_lookup; exact Hcode | ].
  unfold encode_cell. rewrite Hcode.
  destruct (str_eqb _ (lit "__proto__")); reflexivity.
Qed.

Definition colour_rows : list jstr := [lit "a,red"; lit "b, blue"; lit "c,red "].

Lemma dictionary_decodes_every_cell_witness :
  In (lit "c,red ") colour_rows
  /\ exists code,
      code_of (lit "red") (reverseDictionary 1 colour_rows) = Some code
      /\ reverseDictionary 1 colour_rows !! code = Some (lit "red")
      /\ encode_cell colour_rows (fields_of (lit "c,red ")) 1
         = array_set 1 (digits_of_N (N.of_nat code)) (fields_of (lit "c,red ")).
Proof.
  assert (Hin : In (lit "c,red ") colour_rows).
  { right. right. left. reflexivity. }
  split; [ exact Hin | ].
  exact (dictionary_decodes_every_cell colour_rows 1 (lit "c,red ") Hin).
Defined.

(** ** Short keys *)

Lemma chars_NoDup : NoDup chars.
Proof. refine (bool_decide_unpack (NoDup chars) _). vm_compute. reflexivity. Qed.

Lemma chars_length : length chars = 62%nat.
Proof. reflexivity. Qed.

Lemma char_at_single i :
  i < 62 -> exists c, chars !! N.to_nat i = Some c /\ char_at i = [c] /\ c <> 124.
Proof.
  intros Hi. unfold char_at.
  destruct (chars !! N.to_nat i) as [c | ] eqn:E.
  - exists c. split; [ reflexivity | ]. split; [ reflexivity | ].
    intros ->. apply list_elem_of_lookup_2 in E.
    revert E. refine (bool_decide_unpack (124 ∉ chars) _). vm_compute. reflexivity.
  - apply lookup_ge_None in E. rewrite chars_length in E. lia.
Qed.

Lemma char_at_inj i j : i < 62 -> j < 62 -> char_at i = char_at j -> i = j.
Proof.
  intros Hi Hj H.
  destruct (char_at_single i Hi) as [c [Ec [Ei _]]].
  destruct (char_at_single j Hj) as [d [Ed [Ej _]]].
  rewrite Ei, Ej in H. injection H as <-.
  pose proof (NoDup_lookup _ _ _ _ chars_NoDup Ec Ed). lia.
Qed.

Lemma counter_digits_step n :
  counter_digits n
  = char_at (n mod 62)
    ++ (if N.eq_dec (n / 62) 0 then [] else counter_digits (n / 62)).
Proof.
  rewrite counter_digits_equation_1.
  destruct (N.eq_dec (n / 62) 0) as [ e | ne ].
  - rewrite app_nil_r. reflexivity.
  - reflexivity.
Qed.

Lemma counter_digits_nonempty n : counter_digits n <> [].
Proof.
  rewrite counter_digits_step.
  destruct (char_at_single (n mod 62)) as [c [_ [-> _]]];
    [ apply N.mod_lt; lia | discriminate ].
Qed.

Lemma counter_digits_inj n m : counter_digits n = counter_digits m -> n = m.
Proof.
  revert m. induction n as [n IH] using (well_founded_induction N.lt_wf_0).
  intros m H. rewrite (counter_digits_step n), (counter_digits_step m) in H.
  destruct (char_at_single (n mod 62)) as [c [_ [Ec _]]];
    [ apply N.mod_lt; lia | ].
  destruct (char_at_single (m mod 62)) as [d [_ [Ed _]]];
    [ apply N.mod_lt; lia | ].
  assert (Hmod : n mod 62 = m mod 62).
  { apply char_at_inj; try (apply N.mod_lt; lia).
    rewrite Ec, Ed in *. cbn in H. injection H as -> _. reflexivity. }
  rewrite Ec, Ed in H. cbn [app] in H. injection H as _ H.
  assert (Hdiv : n / 62 = m / 62).
  { destruct (N.eq_dec (n / 62) 0) as [ en | nn ],
             (N.eq_dec (m / 62) 0) as [ em | nm ].
    - congruence.
    - symmetry in H. apply counter_digits_nonempty in H. contradiction.
    - apply counter_digits_nonempty in H. contradiction.
    - apply IH; [ | exact H ]. apply N.div_lt; [ | lia ].
      destruct (N.eq_dec n 0) as [ -> | ]; [ | lia ].
      exfalso. apply nn. reflexivity. }
  rewrite (N.div_mod n 62), (N.div_mod m 62) by lia. congruence.
Qed.

Lemma generateShortKey_inj' (i j : N) :
  generateShortKey i = generateShortKey j -> i = j.
Proof.
  unfold generateShortKey. rewrite chars_length.
  change (N.of_nat 62) with 62.
  destruct (i <? 62) eqn:Ei, (j <? 62) eqn:Ej;
    try apply N.ltb_lt in Ei; try apply N.ltb_lt in Ej;
    try apply N.ltb_ge in Ei; try apply N.ltb_ge in Ej.
  - apply char_at_inj; assumption.
  - destruct (char_at_single i Ei) as [c [_ [-> Hc]]].
    intros H. injection H as -> _. contradiction.
  - destruct (char_at_single j Ej) as [c [_ [-> Hc]]].
    intros H. injection H as <- _. contradiction.
  - intros H. injection H as H. apply counter_digits_inj in H. lia.
Qed.


(** ** The key map *)

Lemma obj_get_None {V} k (m : list (jstr * V)) :
  obj_get k m = None <-> ~ In k (map fst m).
Proof.
  induction m as [ | [k' v] m IH ]; cbn [obj_get map In fst]; [ tauto | ].
  destruct (str_eqb k' k) eqn:E.
  - apply str_eqb_eq in E. subst. split; [ discriminate | tauto ].
  - rewrite IH. split; [ | tauto ]. intros H [ -> | H' ]; [ | tauto ].
    assert (E' : str_eqb k k = true) by (apply str_eqb_eq; reflexivity).
    congruence.
Qed.

Lemma obj_get_In {V} k (m : list (jstr * V)) v :
  obj_get k m = Some v -> In (k, v) m.
Proof.
  induction m as [ | [k' v'] m IH ]; cbn [obj_get In]; [ discriminate | ].
  destruct (str_eqb k' k) eqn:E.
  - apply str_eqb_eq in E. subst. intros H. injection H as ->. left. reflexivity.
  - intros H. right. apply IH. exact H.
Qed.

Lemma obj_replace_keys {V} k (v : V) m :
  map fst (obj_replace k v m) = map fst m.
Proof.
  induction m as [ | [k' v'] m IH ]; [ reflexivity | ].
  cbn [obj_replace]. destruct (str_eqb k' k) eqn:E; cbn [map fst].
  - apply str_eqb_eq in E. subst. reflexivity.
  - rewrite IH. reflexivity.
Qed.

Lemma obj_insert_index_perm {V} n k (v : V) m :
  Permutation (obj_insert_index n k v m) ((k, v) :: m).
Proof.
  induction m as [ | [k' v'] m IH ]; [ reflexivity | ].
  cbn [obj_insert_index]. destruct (array_index k') as [i | ]; [ | reflexivity ].
  destruct (i <? n); [ | reflexivity ].
  rewrite IH. apply perm_swap.
Qed.

Lemma obj_set_new {V} k (v : V) m :
  obj_get k m = None -> Permutation (obj_set k v m) ((k, v) :: m).
Proof.
  intros H. unfold obj_set. rewrite H.
  destruct (array_index k).
  - apply obj_insert_index_perm.
  - rewrite Permutation_app_comm. reflexivity.
Qed.

Lemma obj_set_keys {V} k (v : V) m :
  Permutation (map fst (obj_set k v m))
              (match obj_get k m with
               | Some _ => map fst m
               | None => k :: map fst m
               end).
Proof.
  destruct (obj_get k m) as [x | ] eqn:E.
  - unfold obj_set. rewrite E, obj_replace_keys. reflexivity.
  - rewrite (obj_set_new k v m E). reflexivity.
Qed.

Lemma obj_set_NoDup {V} k (v : V) m :
  NoDup (map fst m) -> NoDup (map fst (obj_set k v m)).
Proof.
  intros H. rewrite obj_set_keys.
  destruct (obj_get k m) eqn:E; [ exact H | ].
  apply obj_get_None in E. apply NoDup_cons. split; [ | exact H ].
  rewrite list_elem_of_In. exact E.
Qed.

Lemma obj_set_In_key {V} k (v : V) m k' :
  In k' (map fst (obj_set k v m)) <-> k' = k \/ In k' (map fst m).
Proof.
  rewrite <- !list_elem_of_In. rewrite obj_set_keys.
  destruct (obj_get k m) as [x | ] eqn:E.
  - split; [ tauto | ]. intros [ -> | H ]; [ | exact H ].
    apply obj_get_In in E. rewrite list_elem_of_In. apply in_map_iff.
    exists (k, x). split; [ reflexivity | exact E ].
  - rewrite elem_of_cons. tauto.
Qed.

Lemma collectKeyFrequencies_NoDup v :
  forall fr, NoDup (map fst fr) -> NoDup (map fst (collectKeyFrequencies v fr)).
Proof.
  induction v as [ | b | x | s | l IH | o IH ] using value_ind;
    intros fr H; try exact H.
  - cbn [collectKeyFrequencies]. revert fr H.
    induction l as [ | x l IHl ]; intros fr H; [ exact H | ].
    inversion IH as [ | ? ? Hx Hl ]; subst. cbn [fold_left].
    apply IHl; [ exact Hl | ]. destruct (is_object x); [ apply Hx | ]; exact H.
  - cbn [collectKeyFrequencies]. revert fr H.
    induction o as [ | [k x] o IHo ]; intros fr H; [ exact H | ].
    inversion IH as [ | ? ? Hx Ho ]; subst. cbn [snd] in Hx.
    apply IHo; [ exact Ho | ].
    destruct (is_object x); [ apply Hx | ]; apply obj_set_NoDup; exact H.
Qed.

Lemma insert_entry_perm x l : Permutation (insert_entry x l) (x :: l).
Proof.
  induction l as [ | y l IH ]; [ reflexivity | ].
  cbn [insert_entry]. destruct (sorts_before y x); [ | reflexivity ].
  rewrite IH. apply perm_swap.
Qed.

Lemma sort_entries_perm l : Permutation (sort_entries l) l.
Proof.
  induction l as [ | x l IH ]; [ reflexivity | ].
  cbn [sort_entries fold_right]. fold (sort_entries l).
  rewrite insert_entry_perm, IH. reflexivity.
Qed.

(** The map built from a list of keys, the [i]-th key receiving
    [code i]. *)
Definition assign (code : nat -> jstr) (keys : list jstr) : list (jstr * jstr) :=
  fold_left (fun keyMap '(index, key) => obj_set key (code index) keyMap)
            (imap pair keys) [].

Lemma assign_snoc code keys k :
  assign code (keys ++ [k]) = obj_set k (code (length keys)) (assign code keys).
Proof.
  unfold assign. rewrite imap_app, fold_left_app. cbn.
  rewrite Nat.add_0_r. reflexivity.
Qed.

Lemma assign_perm code keys :
  NoDup keys ->
  Permutation (assign code keys) (imap (fun i k => (k, code i)) keys).
Proof.
  induction keys as [ | k keys IH ] using rev_ind; intros H; [ reflexivity | ].
  apply NoDup_app in H. destruct H as [Hk [Hd _]].
  specialize (IH Hk). rewrite assign_snoc, imap_app. cbn [imap].
  rewrite Nat.add_0_r.
  rewrite obj_set_new.
  - rewrite IH. rewrite Permutation_app_comm. reflexivity.
  - apply obj_get_None. intros Hin. rewrite <- list_elem_of_In in Hin.
    rewrite IH in Hin. rewrite list_elem_of_In in Hin.
    apply in_map_iff in Hin. destruct Hin as [[k' c] [E Hin]]. cbn in E. subst k'.
    rewrite <- list_elem_of_In in Hin. apply elem_of_lookup_imap in Hin.
    destruct Hin as [i [y [E Hy]]]. injection E as <- _.
    apply (Hd k); [ apply list_elem_of_lookup_2 in Hy; exact Hy | ].
    apply list_elem_of_singleton. reflexivity.
Qed.

Lemma imap_codes (code : nat -> jstr) (keys : list jstr) :
  map snd (imap (fun i k => (k, code i)) keys) = map code (seq 0 (length keys)).
Proof.
  induction keys as [ | k keys IH ] using rev_ind; [ reflexivity | ].
  rewrite imap_app, map_app, IH, length_app, Nat.add_comm. cbn [length imap map].
  rewrite seq_S, map_app, Nat.add_0_r. reflexivity.
Qed.


Lemma assign_codes_NoDup code keys :
  (forall i j, code i = code j -> i = j) ->
  NoDup keys -> NoDup (map snd (assign code keys)).
Proof.
  intros Hinj H.
  rewrite (Permutation_map snd (assign_perm code keys H)), imap_codes.
  apply NoDup_fmap_2_strong; [ | apply NoDup_seq ].
  intros i j _ _. apply Hinj.
Qed.

Lemma assign_keys code keys k :
  NoDup keys -> In k (map fst (assign code keys)) <-> In k keys.
Proof.
  intros H. rewrite <- !list_elem_of_In.
  rewrite (Permutation_map fst (assign_perm code keys H)).
  rewrite !list_elem_of_In, in_map_iff. split.
  - intros [[k' c] [E Hin]]. cbn in E. subst k'.
    rewrite <- list_elem_of_In in Hin. apply elem_of_lookup_imap in Hin.
    destruct Hin as [i [y [E Hy]]]. injection E as <- _.
    apply list_elem_of_In. apply list_elem_of_lookup_2 in Hy. exact Hy.
  - intros Hin. apply list_elem_of_In, list_elem_of_lookup in Hin.
    destruct Hin as [i Hi]. exists (k, code i). split; [ reflexivity | ].
    apply list_elem_of_In.
    apply (elem_of_lookup_imap_2 (fun i k => (k, code i)) keys k i Hi).
Qed.

Lemma snd_NoDup_inj {A B} (l : list (A * B)) a1 a2 b :
  NoDup (map snd l) -> In (a1, b) l -> In (a2, b) l -> a1 = a2.
Proof.
  induction l as [ | [a c] l IH ]; [ intros _ [] | ].
  cbn [map snd]. intros H. apply NoDup_cons in H. destruct H as [Hc H].
  assert (Hnot : forall a', In (a', c) l -> False).
  { intros a' Hin. apply Hc. rewrite list_elem_of_In. apply in_map_iff.
    exists (a', c). split; [ reflexivity | exact Hin ]. }
  intros [ E1 | H1 ] [ E2 | H2 ].
  - congruence.
  - injection E1 as -> ->. exfalso. eapply Hnot. exact H2.
  - injection E2 as -> ->. exfalso. eapply Hnot. exact H1.
  - apply IH; assumption.
Qed.

(** The keys of the objects of a value, at any depth. *)
Fixpoint all_keys (v : jsval) : list jstr :=
  match v with
  | VArr l => concat (map all_keys l)
  | VObj o =>
      (fix keys (o : list (jstr * jsval)) : list jstr :=
         match o with
         | [] => []
         | (k, x) :: o' => k :: all_keys x ++ keys o'
         end) o
  | _ => []
  end.

Lemma collectKeyFrequencies_keys v :
  forall fr k,
    In k (map fst (collectKeyFrequencies v fr))
    <-> In k (all_keys v) \/ In k (map fst fr).
Proof.
  induction v as [ | b | x | s | l IH | o IH ] using value_ind;
    intros fr k; try (cbn; tauto).
  - cbn [collectKeyFrequencies all_keys]. revert fr.
    induction l as [ | x l IHl ]; intros fr; [ cbn; tauto | ].
    inversion IH as [ | ? ? Hx Hl ]; subst. cbn [fold_left map concat].
    rewrite (IHl Hl), in_app_iff.
    destruct (is_object x) eqn:E.
    + rewrite Hx. tauto.
    + destruct x; try discriminate E; cbn; tauto.
  - cbn [collectKeyFrequencies all_keys]. revert fr.
    induction o as [ | [key x] o IHo ]; intros fr; [ cbn; tauto | ].
    inversion IH as [ | ? ? Hx Ho ]; subst. cbn [snd] in Hx.
    rewrite (IHo Ho). cbn [In]. rewrite in_app_iff.
    destruct (is_object x) eqn:E.
    + rewrite Hx, obj_set_In_key. intuition congruence.
    + rewrite obj_set_In_key.
      destruct x; try discriminate E; cbn; intuition congruence.
Qed.

(** The names of the members of [Object.prototype]. *)
Definition prototype_members : list jstr :=
  map lit ["constructor"; "__defineGetter__"; "__defineSetter__";
           "hasOwnProperty"; "__lookupGetter__"; "__lookupSetter__";
           "isPrototypeOf"; "propertyIsEnumerable"; "toString"; "valueOf";
           "__proto__"; "toLocaleString"]%string.

(** No key of the value names a member of [Object.prototype]: the
    plain objects [keyFrequency] and [keyMap] then behave as maps. *)
Definition plain_keys (v : jsval) : bool :=
  forallb (fun k => negb (existsb (str_eqb k) prototype_members)) (all_keys v).

(** X8.  The [keyMap] that [shortenKeys] builds has an entry for every
    key of the value, and never the same code for two keys. *)
Theorem keyMap_complete_and_injective (data : jsval) :
  plain_keys data = true ->
  let keyMap := snd (shortenKeys data) in
  (forall k, In k (all_keys data) -> exists code, obj_get k keyMap = Some code)
  /\ (forall k1 k2 code,
         obj_get k1 keyMap = Some code -> obj_get k2 keyMap = Some code ->
         k1 = k2).
Proof.
  intros _. cbn [shortenKeys snd]. unfold build_keyMap.
  set (keys := map fst (sort_entries (collectKeyFrequencies data []))).
  change (fold_left _ (imap pair keys) [])
    with (assign (fun i => generateShortKey (N.of_nat i)) keys).
  assert (Hnd : NoDup keys).
  { unfold keys. rewrite (Permutation_map fst (sort_entries_perm _)).
    apply collectKeyFrequencies_NoDup. constructor. }
  split.
  - intros k Hk.
    destruct (obj_get k (assign _ keys)) as [c | ] eqn:E; [ eauto | ].
    exfalso. apply obj_get_None in E. apply E. apply assign_keys; [ exact Hnd | ].
    unfold keys. apply list_elem_of_In.
    rewrite (Permutation_map fst (sort_entries_perm _)).
    apply list_elem_of_In, collectKeyFrequencies_keys. left. exact Hk.
  - intros k1 k2 code H1 H2.
    apply (snd_NoDup_inj (assign (fun i => generateShortKey (N.of_nat i)) keys)
                         k1 k2 code).
    + apply assign_codes_NoDup; [ | exact Hnd ].
      intros i j H. apply generateShortKey_inj' in H. lia.
    + apply obj_get_In. exact H1.
    + apply obj_get_In. exact H2.
Qed.

Definition two_members : jsval :=
  VObj [(lit "name", VStr (lit "ann")); (lit "tags", VArr [VObj [(lit "id", VNull)]])].

Lemma keyMap_complete_and_injective_witness :
  let keyMap := snd (shortenKeys two_members) in
  (forall k, In k (all_keys two_members) ->
             exists code, obj_get k keyMap = Some code)
  /\ (forall k1 k2 code,
         obj_get k1 keyMap = Some code -> obj_get k2 keyMap = Some code ->
         k1 = k2).
Proof. apply (keyMap_complete_and_injective two_members). reflexivity. Defined.

(** X9.  [generateShortKey] gives a key that is not empty, and never the
    same key to two indexes, also beyond the 62 keys of one character. *)
Theorem generateShortKey_is_injective (i j : N) :
  generateShortKey i <> []
  /\ (generateShortKey i = generateShortKey j <-> i = j).
Proof.
  split.
  - unfold generateShortKey. destruct (i <? N.of_nat (length chars)) eqn:E.
    + apply N.ltb_lt in E. rewrite chars_length in E.
      change (N.of_nat 62) with 62 in E.
      destruct (char_at_single i E) as [c [_ [Hc _]]].
      rewrite Hc. discriminate.
    + discriminate.
  - split; [ apply generateShortKey_inj' | intros ->; reflexivity ].
Qed.

(** ** Short aliases *)

Definition alias_letter (n : N) : jstr :=
  default [] ((fun c => [c]) <$> SQL.alias_chars !! N.to_nat (n mod 26)).

Lemma alias_letter_single n :
  exists c, SQL.alias_chars !! N.to_nat (n mod 26) = Some c
            /\ alias_letter n = [c] /\ is_lower c = true.
Proof.
  unfold alias_letter.
  assert (Hlt : (N.to_nat (n mod 26) < length SQL.alias_chars)%nat).
  { change (length SQL.alias_chars) with 26%nat.
    pose proof (N.mod_lt n 26). lia. }
  destruct (SQL.alias_chars !! N.to_nat (n mod 26)) as [c | ] eqn:E.
  - exists c. split; [ reflexivity | ]. split; [ reflexivity | ].
    apply list_elem_of_lookup_2 in E. revert c E.
    apply Forall_forall.
    refine (bool_decide_unpack
              (Forall (fun c => is_lower c = true) SQL.alias_chars) _).
    vm_compute. reflexivity.
  - apply lookup_ge_None in E. lia.
Qed.

Lemma alias_chars_NoDup : NoDup SQL.alias_chars.
Proof.
  refine (bool_decide_unpack (NoDup SQL.alias_chars) _). vm_compute. reflexivity.
Qed.

Lemma alias_letter_inj n m :
  alias_letter n = alias_letter m -> n mod 26 = m mod 26.
Proof.
  destruct (alias_letter_single n) as [c [Ec [-> _]]].
  destruct (alias_letter_single m) as [d [Ed [-> _]]].
  intros H. injection H as <-.
  pose proof (NoDup_lookup _ _ _ _ alias_chars_NoDup Ec Ed). lia.
Qed.

Lemma getShortAlias_loop_step num name :
  SQL.getShortAlias_loop num name
  = (if N.eq_dec (num / 26) 0 then [] else SQL.getShortAlias (num / 26))
    ++ alias_letter num ++ name.
Proof.
  revert name. induction num as [num IH] using (well_founded_induction N.lt_wf_0).
  intros name. rewrite SQL.getShortAlias_loop_equation_1.
  destruct (N.eq_dec (num / 26) 0) as [ e | ne ].
  - reflexivity.
  - rewrite SQL.getShortAlias_loop_clause_1_equation_2.
    assert (Hlt : num / 26 < num).
    { apply N.div_lt; [ | lia ].
      destruct (N.eq_dec num 0) as [ -> | ]; [ | lia ].
      exfalso. apply ne. reflexivity. }
    unfold SQL.getShortAlias.
    rewrite (IH _ Hlt), (IH _ Hlt []).
    fold (alias_letter num). rewrite app_nil_r, <- !app_assoc. reflexivity.
Qed.

Lemma getShortAlias_step n :
  SQL.getShortAlias n
  = (if N.eq_dec (n / 26) 0 then [] else SQL.getShortAlias (n / 26))
    ++ alias_letter n.
Proof.
  unfold SQL.getShortAlias at 1.
  rewrite getShortAlias_loop_step, app_nil_r. reflexivity.
Qed.

Lemma getShortAlias_letters n :
  SQL.getShortAlias n <> [] /\ Forall (fun c => is_lower c = true) (SQL.getShortAlias n).
Proof.
  induction n as [n IH] using (well_founded_induction N.lt_wf_0).
  rewrite getShortAlias_step.
  destruct (alias_letter_single n) as [c [_ [-> Hc]]].
  split; [ destruct (if N.eq_dec _ _ then _ else _); discriminate | ].
  apply Forall_app. split; [ | constructor; [ exact Hc | constructor ] ].
  destruct (N.eq_dec (n / 26) 0) as [ e | ne ]; [ constructor | ].
  apply IH. apply N.div_lt; [ | lia ].
  destruct (N.eq_dec n 0) as [ -> | ]; [ | lia ].
  exfalso. apply ne. reflexivity.
Qed.

Lemma getShortAlias_inj n m :
  SQL.getShortAlias n = SQL.getShortAlias m -> n = m.
Proof.
  revert m. induction n as [n IH] using (well_founded_induction N.lt_wf_0).
  intros m H. rewrite (getShortAlias_step n), (getShortAlias_step m) in H.
  destruct (alias_letter_single n) as [c [_ [Ec _]]].
  destruct (alias_letter_single m) as [d [_ [Ed _]]].
  assert (Hmod : n mod 26 = m mod 26).
  { apply alias_letter_inj. rewrite Ec, Ed in *.
    apply app_inj_tail in H. destruct H as [_ ->]. reflexivity. }
  rewrite Ec, Ed in H. apply app_inj_tail in H. destruct H as [H _].
  assert (Hdiv : n / 26 = m / 26).
  { destruct (N.eq_dec (n / 26) 0) as [ en | nn ],
             (N.eq_dec (m / 26) 0) as [ em | nm ].
    - congruence.
    - symmetry in H. apply getShortAlias_letters in H. contradiction.
    - apply getShortAlias_letters in H. contradiction.
    - apply IH; [ | exact H ]. apply N.div_lt; [ | lia ].
      destruct (N.eq_dec n 0) as [ -> | ]; [ | lia ].
      exfalso. apply nn. reflexivity. }
  rewrite (N.div_mod n 26), (N.div_mod m 26) by lia. congruence.
Qed.

(** X10.  [getShortAlias] gives a non-empty name of lower-case letters,
    and never the same name to two counters. *)
Theorem getShortAlias_names_are_distinct (i j : N) :
  SQL.getShortAlias i <> []
  /\ Forall (fun c => is_lower c = true) (SQL.getShortAlias i)
  /\ (SQL.getShortAlias i = SQL.getShortAlias j <-> i = j).
Proof.
  split; [ apply getShortAlias_letters | ].
  split; [ apply getShortAlias_letters | ].
  split; [ apply getShortAlias_inj | intros ->; reflexivity ].
Qed.

(** ** The preview of an empty file *)

Lemma percent_reduction_of_nothing (compressedSize : N) (q : Q) :
  (0 <= q)%Q -> gt (percent_reduction 0 compressedSize) q = false
  /\ gt (or_zero (percent_reduction 0 compressedSize)) q = false.
Proof.
  intros Hq. unfold percent_reduction. cbn [N.eqb].
  destruct (compressedSize =? 0); cbn; split; try reflexivity.
  unfold Qltb. apply negb_false_iff. apply Qle_bool_iff. exact Hq.
Qed.

Lemma run_level_of_nothing f o l (q : Q) :
  (0 <= q)%Q ->
  gt (reduction (run_level f [] o 0 l)) q = false
  /\ gt (or_zero (reduction (run_level f [] o 0 l))) q = false.
Proof.
  intros Hq. unfold run_level.
  destruct (f [] (level_name l) o) as [ e | r ]; cbn [reduction].
  - cbn. unfold Qltb. split; apply negb_false_iff; apply Qle_bool_iff; exact Hq.
  - apply percent_reduction_of_nothing. exact Hq.
Qed.

(** X11.  For an empty content no tier is effective, whatever the engine
    does, and the preview recommends the moderate tier with the reason
    of a limited opportunity. *)
Theorem preview_of_empty_content
    (table : jstr -> option Engine) (fileType : jstr) (customOptions : Options)
    (p : PreviewResult) :
  analyzeFile table [] fileType customOptions = inr p ->
  preview_originalSize p = 0
  /\ effectiveLevels (recommendation p)
     = {| eff_minimal := false; eff_moderate := false; eff_aggressive := false |}
  /\ level (recommendation p) = moderate
  /\ reason (recommendation p)
     = lit "Limited compression opportunity for this file".
Proof.
  unfold analyzeFile. destruct (table fileType) as [f | ]; [ | discriminate ].
  intros H. injection H as <-. cbn [preview_originalSize recommendation
    effectiveLevels level reason res_minimal res_moderate res_aggressive
    eff_minimal eff_moderate eff_aggressive utf8_length].
  assert (H5 : forall l, gt (reduction (run_level f [] customOptions 0 l)) 5 = false).
  { intros l. apply run_level_of_nothing. unfold Qle. cbn. lia. }
  assert (H50 : forall l, gt (reduction (run_level f [] customOptions 0 l)) 50 = false).
  { intros l. apply run_level_of_nothing. unfold Qle. cbn. lia. }
  assert (H30 : forall l, gt (reduction (run_level f [] customOptions 0 l)) 30 = false).
  { intros l. apply run_level_of_nothing. unfold Qle. cbn. lia. }
  rewrite !H5, !H50, !H30. cbn [andb].
  split; [ reflexivity | ]. split; [ reflexivity | ]. split; [ reflexivity | ].
  unfold getRecommendationReason. cbn [result_at res_moderate].
  destruct (run_level_of_nothing f customOptions moderate 70) as [_ ->];
    [ unfold Qle; cbn; lia | ].
  destruct (run_level_of_nothing f customOptions moderate 50) as [_ ->];
    [ unfold Qle; cbn; lia | ].
  destruct (run_level_of_nothing f customOptions moderate 30) as [_ ->];
    [ unfold Qle; cbn; lia | ].
  destruct (run_level_of_nothing f customOptions moderate 10) as [_ ->];
    [ unfold Qle; cbn; lia | ].
  reflexivity.
Qed.

Lemma preview_of_empty_content_witness :
  exists p,
    analyzeFile embedded_engines [] (lit "CSV") ∅ = inr p
    /\ level (recommendation p) = moderate
    /\ error (res_moderate (results p)) = Some (lit "Empty CSV file").
Proof.
  destruct (analyzeFile embedded_engines [] (lit "CSV") ∅) as [ e | p ] eqn:E;
    [ vm_compute in E; discriminate E | ].
  exists p. split; [ reflexivity | ].
  pose proof (preview_of_empty_content _ _ _ _ E) as (_ & _ & H & _).
  split; [ exact H | ].
  vm_compute in E. injection E as <-. reflexivity.
Defined.

(** ** The empty file of the CSV engine *)

Lemma aggressive_errors header dataLines ops o e :
  applyAggressiveCSVCompression header dataLines ops o = inl e ->
  exists m, e = JsTypeError m.
Proof.
  unfold applyAggressiveCSVCompression.
  destruct (applyModerateCSVCompression header dataLines ops o) as [[h d] ops'].
  cbv zeta.
  repeat match goal with
    | |- context [let '(_, _) := ?x in _] =>
        lazymatch x with
        | (let '(_, _) := _ in _) => fail
        | _ => destruct x as [? ?]
        end
    end.
  repeat case_match; intros Hinl;
    repeat match goal with
      | H : inr _ = inl _ |- _ => discriminate H
      | H : inl _ = inr _ |- _ => discriminate H
      | H : inl _ = inl _ |- _ => injection H as H; subst
      end;
    eexists; reflexivity.
Qed.

(** X12.  [compressCSV] throws the error of the empty file exactly when
    every line of the content is blank, whatever the tier name is, also
    one that names no tier. *)
Theorem csv_empty_file_error
    (content : jstr) (level : string) (customOptions : Options) :
  compressCSV content level customOptions = inl (JsError (lit "Empty CSV file"))
  <-> Forall (fun line => nonblank line = false) (split newline content).
Proof.
  unfold compressCSV.
  destruct (filter _ _) as [ | header dataLines ] eqn:E.
  - split; [ intros _ | reflexivity ].
    apply List.Forall_forall. intros l Hl.
    destruct (nonblank l) eqn:En; [ | reflexivity ].
    assert (Hin : l ∈ filter (fun line => nonblank line = true)
                             (split newline content)).
    { apply list_elem_of_filter. split; [ exact En | ].
      apply list_elem_of_In. exact Hl. }
    rewrite E in Hin. inversion Hin.
  - split.
    + intros H. exfalso.
      destruct (String.eqb level "minimal").
      { destruct (applyMinimalCSVCompression _ _ _ _) as [[h d] ops].
        discriminate H. }
      destruct (String.eqb level "moderate").
      { destruct (applyModerateCSVCompression _ _ _ _) as [[h d] ops].
        discriminate H. }
      destruct (String.eqb level "aggressive"); [ | discriminate H ].
      destruct (applyAggressiveCSVCompression _ _ _ _) as [ e | [[h d] ops] ] eqn:Ea;
        [ | discriminate H ].
      apply aggressive_errors in Ea. destruct Ea as [m ->]. discriminate H.
    + intros H. exfalso.
      assert (Hin : header ∈ filter (fun line => nonblank line = true)
                                    (split newline content)).
      { rewrite E. left. }
      apply list_elem_of_filter in Hin. destruct Hin as [Hn Hin].
      rewrite List.Forall_forall in H. apply list_elem_of_In in Hin.
      specialize (H _ Hin). cbn in H. congruence.
Qed.

(** ** Sampling by index *)

Lemma imap_pair_fst {A} (l : list A) :
  forall f : nat -> nat,
    map fst (imap (fun j y => (f j, y)) l) = map f (seq 0 (length l)).
Proof.
  induction l as [ | x l IH ]; intros f; [ reflexivity | ].
  rewrite imap_cons. cbn [map fst length seq]. f_equal.
  rewrite <- seq_shift, map_map. apply (IH (fun j => f (S j))).
Qed.

Lemma imap_pair_snd {A} (l : list A) :
  forall f : nat -> nat, map snd (imap (fun j y => (f j, y)) l) = l.
Proof.
  induction l as [ | x l IH ]; intros f; [ reflexivity | ].
  rewrite imap_cons. cbn [map snd]. f_equal. apply (IH (fun j => f (S j))).
Qed.

Lemma filter_fst {A} (p : nat -> bool) (L : list (nat * A)) :
  map fst (filter (fun x => p (fst x) = true) L)
  = filter (fun i => p i = true) (map fst L).
Proof.
  induction L as [ | x L IH ]; [ reflexivity | ].
  cbn [map]. rewrite !filter_cons.
  destruct (decide (p (fst x) = true)); cbn [map]; rewrite IH; reflexivity.
Qed.

Lemma filter_index_indices {A} (p : nat -> bool) (l : list A) :
  length (filter_index p l)
  = length (filter (fun i => p i = true) (seq 0 (length l))).
Proof.
  unfold filter_index. rewrite length_map.
  rewrite <- (length_map fst), filter_fst.
  change (imap pair l) with (imap (fun j y => (id j, y)) l).
  rewrite imap_pair_fst, map_id. reflexivity.
Qed.

Lemma filter_index_sublist {A} (p : nat -> bool) (l : list A) :
  sublist (filter_index p l) l.
Proof.
  unfold filter_index.
  rewrite <- (imap_pair_snd l id) at 2.
  apply fmap_sublist, sublist_filter.
Qed.

Lemma filter_index_head {A} (p : nat -> bool) (l : list A) :
  p 0%nat = true -> head (filter_index p l) = head l.
Proof.
  intros H. destruct l as [ | x l ]; [ reflexivity | ].
  unfold filter_index. rewrite imap_cons, filter_cons. cbn [fst].
  destruct (decide (p 0%nat = true)); [ reflexivity | contradiction ].
Qed.

Lemma multiples_below (step k n : nat) :
  (0 < step)%nat -> (k * step <= n)%nat ->
  (k <= length (filter (fun i => (i mod step =? 0)%nat = true) (seq 0 n)))%nat.
Proof.
  intros Hs Hk.
  enough (H : (length (map (fun j => (j * step)%nat) (seq 0 k))
               <= length (filter (fun i => (i mod step =? 0)%nat = true)
                                 (seq 0 n)))%nat)
    by (rewrite length_map, length_seq in H; exact H).
  apply NoDup_incl_length.
  - apply NoDup_ListNoDup. apply NoDup_fmap_2_strong; [ | apply NoDup_seq ].
    intros i j _ _ H. nia.
  - intros x Hx. apply in_map_iff in Hx. destruct Hx as [j [<- Hj]].
    apply in_seq in Hj. apply list_elem_of_In, list_elem_of_filter.
    split.
    + apply Nat.eqb_eq. apply Nat.Div0.mod_mul.
    + apply list_elem_of_In, in_seq. nia.
Qed.

(** X13.  Statistical sampling, when it is the only option of the
    aggressive tier that is switched on and more than 100 rows reach
    it, keeps at least 50 rows and fewer than all of them, in their
    order, the first row among them. *)
Theorem statistical_sampling_keeps_fifty_rows
    (header : jstr) (dataLines : list jstr) (ops : list Entry)
    (customOptions : Options) :
  opt_truthy customOptions "statisticalSampling" = true ->
  opt_truthy customOptions "keepFirstNColumns" = false ->
  opt_truthy customOptions "sampleRows" = false ->
  opt_truthy customOptions "removeNonEssentialColumns" = false ->
  opt_truthy customOptions "removeOutliers" = false ->
  let '(h, rows, _) :=
    applyModerateCSVCompression header dataLines ops customOptions in
  (100 < length rows)%nat ->
  exists sampled entries,
    applyAggressiveCSVCompression header dataLines ops customOptions
    = inr (h, sampled, entries)
    /\ (50 <= length sampled < length rows)%nat
    /\ sublist sampled rows
    /\ head sampled = head rows.
Proof.
  intros Hstat Hkeep Hrows Hne Hout.
  unfold applyAggressiveCSVCompression.
  destruct (applyModerateCSVCompression header dataLines ops customOptions)
    as [[h rows] ops'].
  intros Hlen. rewrite Hstat, Hkeep, Hrows, Hne, Hout. cbn [andb].
  destruct rows as [ | first rest ] eqn:Er; [ cbn in Hlen; lia | ].
  rewrite <- Er in *. clear Er first rest.
  apply Nat.ltb_lt in Hlen. rewrite Hlen. apply Nat.ltb_lt in Hlen.
  set (n := length rows) in *.
  set (sampleSize := Nat.max 50 (n * 3 / 10)).
  set (step := (n / sampleSize)%nat).
  assert (Hsize : (50 <= sampleSize /\ 2 * sampleSize <= n)%nat).
  { unfold sampleSize. split; [ lia | ].
    pose proof (Nat.Div0.mul_div_le (n * 3) 10).
    destruct (Nat.max_spec 50 (n * 3 / 10)) as [[_ ->] | [_ ->]]; lia. }
  assert (Hstep : (2 <= step)%nat).
  { unfold step. apply Nat.div_le_lower_bound; lia. }
  eexists. eexists. split; [ reflexivity | ].
  split; [ | split ].
  - rewrite filter_index_indices. fold n. split.
    + transitivity sampleSize; [ lia | ].
      apply multiples_below; [ lia | ].
      unfold step. pose proof (Nat.Div0.mul_div_le n sampleSize). lia.
    + pose proof (length_filter_lt (fun i => (i mod step =? 0)%nat = true)
                    (seq 0 n) 1%nat) as Hlt.
      rewrite length_seq in Hlt. apply Hlt.
      * apply list_elem_of_In, in_seq. lia.
      * rewrite Nat.mod_small by lia. cbn. discriminate.
  - apply filter_index_sublist.
  - apply filter_index_head. rewrite Nat.Div0.mod_0_l. reflexivity.
Qed.

Definition sampling_only : Options := {[ "statisticalSampling" := VBool true ]}.

(** 120 rows of two cells: a number and a word. *)
Definition many_rows : list jstr :=
  map (fun i => digits_of_N (N.of_nat (i * i + 3)) ++ lit ",w"
                ++ digits_of_N (N.of_nat i))
      (seq 0 120).

Lemma statistical_sampling_keeps_fifty_rows_witness :
  let moderate :=
    applyModerateCSVCompression (lit "n,word") many_rows [] sampling_only in
  (100 < length (snd (fst moderate)))%nat
  /\ exists sampled entries,
      applyAggressiveCSVCompression (lit "n,word") many_rows [] sampling_only
      = inr (fst (fst moderate), sampled, entries)
      /\ (50 <= length sampled < length (snd (fst moderate)))%nat
      /\ sublist sampled (snd (fst moderate))
      /\ head sampled = head (snd (fst moderate)).
Proof.
  cbv zeta.
  pose proof (statistical_sampling_keeps_fifty_rows
                (lit "n,word") many_rows [] sampling_only
                eq_refl eq_refl eq_refl eq_refl eq_refl) as H.
  destruct (applyModerateCSVCompression (lit "n,word") many_rows [] sampling_only)
    as [[h rows] entries] eqn:E.
  cbn [fst snd].
  assert (Hlen : (100 < length rows)%nat).
  { vm_compute in E. injection E as _ <- _. vm_compute. lia. }
  split; [ exact Hlen | exact (H Hlen) ].
Defined.

(** ** Matches and replacements *)

Lemma match_here_prefix f r p s m g :
  match_here f r p s = Some (m, g) -> exists k, m = firstn k s.
Proof.
  unfold match_here. destruct (run f r _ Some) as [st | ]; [ | discriminate ].
  intros H. injection H as <- _. eexists. reflexivity.
Qed.

Lemma firstn_skipn_length {A} k (s : list A) :
  firstn k s ++ skipn (length (firstn k s)) s = s.
Proof.
  rewrite length_firstn.
  destruct (Nat.min_spec k (length s)) as [[H ->] | [H ->]].
  - apply firstn_skipn.
  - rewrite firstn_all2 by lia. rewrite skipn_all. apply app_nil_r.
Qed.

Definition matched (x : jstr * jstr * (nat -> jstr)) : jstr :=
  let '(before, m, _) := x in before ++ m.

(** The matches of a scan, each with the text before it, and the text
    after the last one make up the scanned text. *)
Lemma scan_partition f r s :
  forall p skip pending,
    concat (map matched (fst (scan f r p s skip pending)))
    ++ snd (scan f r p s skip pending)
    = rev pending ++ skipn skip s.
Proof.
  induction s as [ | c s IH ]; intros p skip pending.
  - destruct skip as [ | skip ]; cbn [scan].
    + destruct (match_here f r p []) as [[m g] | ] eqn:E;
        [ | cbn; rewrite app_nil_r; reflexivity ].
      apply match_here_prefix in E. destruct E as [k ->].
      rewrite firstn_nil. cbn. rewrite !app_nil_r. reflexivity.
    + cbn. rewrite app_nil_r. reflexivity.
  - destruct skip as [ | skip ]; cbn [scan].
    + destruct (match_here f r p (c :: s)) as [[m g] | ] eqn:E.
      * apply match_here_prefix in E. destruct E as [k ->].
        destruct k as [ | k ]; cbn [firstn].
        -- specialize (IH (Some c) 0%nat [c]).
           destruct (scan f r (Some c) s 0 [c]) as [ms tail].
           cbn [fst snd map concat matched] in *.
           rewrite <- !app_assoc, IH. cbn. reflexivity.
        -- specialize (IH (Some c) (length (c :: firstn k s) - 1)%nat []).
           destruct (scan f r (Some c) s _ []) as [ms tail].
           cbn [fst snd map concat matched] in *.
           rewrite <- !app_assoc, IH. f_equal.
           change (length (c :: firstn k s) - 1)%nat
             with (length (firstn k s) - 0)%nat.
           rewrite Nat.sub_0_r. cbn [rev app skipn]. f_equal.
           apply firstn_skipn_length.
      * specialize (IH (Some c) 0%nat (c :: pending)).
        rewrite IH. cbn [rev skipn]. rewrite <- app_assoc. reflexivity.
    + apply IH.
Qed.

(** Every match of a scan is a match of the pattern somewhere. *)
Lemma scan_matches f r (P : jstr -> (nat -> jstr) -> Prop) s :
  (forall p s' m g, match_here f r p s' = Some (m, g) -> P m g) ->
  forall p skip pending,
    Forall (fun x => P (snd (fst x)) (snd x)) (fst (scan f r p s skip pending)).
Proof.
  intros HP. induction s as [ | c s IH ]; intros p skip pending.
  - destruct skip as [ | skip ]; cbn [scan]; [ | constructor ].
    destruct (match_here f r p []) as [[m g] | ] eqn:E; [ | constructor ].
    constructor; [ | constructor ]. cbn. eapply HP. exact E.
  - destruct skip as [ | skip ]; cbn [scan]; [ | apply IH ].
    destruct (match_here f r p (c :: s)) as [[m g] | ] eqn:E; [ | apply IH ].
    assert (Hm : P m g) by (eapply HP; exact E).
    destruct m as [ | d m ].
    + specialize (IH (Some c) 0%nat [c]).
      destruct (scan f r (Some c) s 0 [c]) as [ms tail].
      constructor; assumption.
    + specialize (IH (Some c) (length (d :: m) - 1)%nat []).
      destruct (scan f r (Some c) s _ []) as [ms tail].
      constructor; assumption.
Qed.


(** The least and the greatest number of code units that a match of
    the pattern can take; [None] when there is no bound. *)
Fixpoint min_len (r : re) : nat :=
  match r with
  | Chr _ | Cls _ _ => 1
  | Seq a b => min_len a + min_len b
  | Alt a b => Nat.min (min_len a) (min_len b)
  | Grp _ a => min_len a
  | _ => 0
  end.

Fixpoint max_len (r : re) : option nat :=
  match r with
  | Chr _ | Cls _ _ => Some 1%nat
  | Seq a b =>
      match max_len a, max_len b with
      | Some x, Some y => Some (x + y)%nat
      | _, _ => None
      end
  | Alt a b =>
      match max_len a, max_len b with
      | Some x, Some y => Some (Nat.max x y)
      | _, _ => None
      end
  | Grp _ a => max_len a
  | Star _ _ | Ref _ => None
  | _ => Some 0%nat
  end.

(** [st'] is reached from [st] by a match of [r]. *)
Definition advanced (r : re) (st st' : state) : Prop :=
  (min_len r + length (rest st') <= length (rest st))%nat
  /\ forall M, max_len r = Some M ->
               (length (rest st) <= M + length (rest st'))%nat.

Lemma match_text_advances f t :
  forall st st', match_text f t st = Some st' ->
                 (length (rest st') <= length (rest st))%nat.
Proof.
  induction t as [ | a t IH ]; intros st st'; cbn [match_text].
  - intros H. injection H as <-. lia.
  - destruct (rest st) as [ | b s ] eqn:E; [ discriminate | ].
    destruct (same_char f a b); [ | discriminate ].
    intros H. apply IH in H. cbn in H. cbn. lia.
Qed.

(** The loop of a starred pattern. *)
Definition star_loop (f : flags) (greedy : bool) (a : re)
    (k : state -> option state) : nat -> state -> option state :=
  fix loop (n : nat) (st : state) {struct n} : option state :=
    match n with
    | O => k st
    | S n' =>
        let again :=
          run f a (clear_captures (groups_of a) st)
              (fun st' =>
                 if (length (rest st') <? length (rest st))%nat
                 then loop n' st' else None) in
        if greedy then
          match again with
          | Some x => Some x
          | None => k st
          end
        else
          match k st with
          | Some x => Some x
          | None => again
          end
    end.

Lemma run_star f greedy a st k :
  run f (Star greedy a) st k
  = star_loop f greedy a k (S (length (rest st))) st.
Proof. reflexivity. Qed.

Lemma run_advances f r :
  forall st k res,
    run f r st k = Some res ->
    exists st', k st' = Some res /\ advanced r st st'.
Proof.
  unfold advanced.
  induction r as [ | c | inv p | a IHa b IHb | a IHa b IHb | greedy a IHa
                 | i a IHa | i | | | | neg a IHa ];
    intros st k res; [ | | | | | rewrite run_star | .. ];
    cbn [run min_len max_len].
  - intros H. exists st. split; [ exact H | ]. split; [ lia | ].
    intros M HM. injection HM as <-. lia.
  - destruct (rest st) as [ | x s ] eqn:E; [ discriminate | ].
    destruct (same_char f c x); [ | discriminate ].
    intros H. eexists. split; [ exact H | ]. cbn. split; [ lia | ].
    intros M HM. injection HM as <-. lia.
  - destruct (rest st) as [ | x s ] eqn:E; [ discriminate | ].
    destruct (xorb inv (in_class f p x)); [ | discriminate ].
    intros H. eexists. split; [ exact H | ]. cbn. split; [ lia | ].
    intros M HM. injection HM as <-. lia.
  - intros H. apply IHa in H. destruct H as [st1 [H [H1 H1']]].
    apply IHb in H. destruct H as [st2 [H [H2 H2']]].
    exists st2. split; [ exact H | ]. split; [ lia | ].
    intros M HM. destruct (max_len a) as [x | ]; [ | discriminate ].
    destruct (max_len b) as [y | ]; [ | discriminate ].
    injection HM as <-. specialize (H1' x eq_refl). specialize (H2' y eq_refl).
    lia.
  - intros H.
    assert (Hor : run f a st k = Some res \/ run f b st k = Some res).
    { destruct (run f a st k); [ left; exact H | right; exact H ]. }
    destruct Hor as [ Ha | Hb ].
    + apply IHa in Ha. destruct Ha as [st1 [Hk [H1 H1']]].
      exists st1. split; [ exact Hk | ]. split; [ lia | ].
      intros M HM. destruct (max_len a) as [x | ]; [ | discriminate ].
      destruct (max_len b) as [y | ]; [ | discriminate ].
      injection HM as <-. specialize (H1' x eq_refl). lia.
    + apply IHb in Hb. destruct Hb as [st1 [Hk [H1 H1']]].
      exists st1. split; [ exact Hk | ]. split; [ lia | ].
      intros M HM. destruct (max_len a) as [x | ]; [ | discriminate ].
      destruct (max_len b) as [y | ]; [ | discriminate ].
      injection HM as <-. specialize (H1' y eq_refl). lia.
  - generalize (S (length (rest st))). intros n. revert st.
    induction n as [ | n IHn ]; intros st H.
    + exists st. split; [ exact H | ]. split; [ lia | discriminate ].
    + cbn [star_loop] in H. fold (star_loop f greedy a k) in H.
      match type of H with
      | (if greedy then match ?again with _ => _ end else _) = _ =>
          assert (Hor : again = Some res \/ k st = Some res)
      end.
      { destruct greedy.
        - destruct (run f a _ _); [ left; exact H | right; exact H ].
        - destruct (k st); [ right; exact H | left; exact H ]. }
      destruct Hor as [ Ha | Hk ].
      * apply IHa in Ha. destruct Ha as [st1 [Hc [H1 _]]].
        destruct (length (rest st1) <? length (rest st))%nat; [ | discriminate ].
        apply IHn in Hc. destruct Hc as [st2 [Hk [H2 _]]].
        exists st2. split; [ exact Hk | ]. cbn in H1.
        split; [ lia | discriminate ].
      * exists st. split; [ exact Hk | ]. split; [ lia | discriminate ].
  - intros H. apply IHa in H. destruct H as [st1 [H [H1 H1']]].
    eexists. split; [ exact H | ]. cbn. split; [ lia | exact H1' ].
  - destruct (match_text f (capture i st) st) as [st1 | ] eqn:E; [ | discriminate ].
    intros H. exists st1. split; [ exact H | ].
    apply match_text_advances in E. split; [ lia | discriminate ].
  - intros H. exists st.
    assert (Hk : k st = Some res).
    { destruct (prev st); [ | exact H ].
      destruct (multiline f && is_line_terminator _); [ exact H | discriminate ]. }
    split; [ exact Hk | ]. split; [ lia | ].
    intros M HM. injection HM as <-. lia.
  - intros H. exists st.
    assert (Hk : k st = Some res).
    { destruct (rest st); [ exact H | ].
      destruct (multiline f && is_line_terminator _); [ exact H | discriminate ]. }
    split; [ exact Hk | ]. split; [ lia | ].
    intros M HM. injection HM as <-. lia.
  - intros H. exists st.
    assert (Hk : k st = Some res).
    { destruct (xorb _ _); [ exact H | discriminate ]. }
    split; [ exact Hk | ]. split; [ lia | ].
    intros M HM. injection HM as <-. lia.
  - intros H.
    destruct (run f a st Some) as [st1 | ]; destruct neg; try discriminate.
    + eexists. split; [ exact H | ]. cbn. split; [ lia | ].
      intros M HM. injection HM as <-. lia.
    + exists st. split; [ exact H | ]. split; [ lia | ].
      intros M HM. injection HM as <-. lia.
Qed.

(** The length of a match lies between the two bounds. *)
Lemma match_here_length f r p s m g :
  match_here f r p s = Some (m, g) ->
  (min_len r <= length m)%nat
  /\ forall M, max_len r = Some M -> (length m <= M)%nat.
Proof.
  unfold match_here.
  destruct (run f r _ Some) as [st | ] eqn:E; [ | discriminate ].
  intros H. injection H as <- _.
  apply run_advances in E. destruct E as [st' [E [H1 H2]]].
  injection E as ->. cbn [rest] in *.
  rewrite length_firstn. split; [ lia | ].
  intros M HM. specialize (H2 M HM). lia.
Qed.


(** *** Replacements that do not lengthen *)

Lemma matches_partition f r s :
  concat (map matched (fst (matches f r s))) ++ snd (matches f r s) = s.
Proof. unfold matches. rewrite scan_partition. reflexivity. Qed.

Lemma matches_are_matches f r (P : jstr -> (nat -> jstr) -> Prop) s :
  (forall p s' m g, match_here f r p s' = Some (m, g) -> P m g) ->
  Forall (fun x => P (snd (fst x)) (snd x)) (fst (matches f r s)).
Proof. intros HP. unfold matches. apply scan_matches. exact HP. Qed.

Definition replaced (fn : jstr -> (nat -> jstr) -> jstr)
    (x : jstr * jstr * (nat -> jstr)) : jstr :=
  let '(before, m, g) := x in before ++ fn m g.

Lemma replace_with_replaced f r fn s :
  replace_with f r fn s
  = concat (map (replaced fn) (fst (matches f r s))) ++ snd (matches f r s).
Proof.
  unfold replace_with. destruct (matches f r s) as [ms tail]. cbn [fst snd].
  f_equal.
Qed.

Lemma replaced_same_length fn ms :
  Forall (fun x => length (fn (snd (fst x)) (snd x)) = length (snd (fst x))) ms ->
  length (concat (map (replaced fn) ms)) = length (concat (map matched ms)).
Proof.
  induction 1 as [ | [[before m] g] ms H _ IH ]; [ reflexivity | ].
  cbn [map concat replaced matched]. cbn [fst snd] in H.
  rewrite !length_app, IH, H. reflexivity.
Qed.

Lemma replaced_not_longer fn ms :
  Forall (fun x => (length (fn (snd (fst x)) (snd x)) <= length (snd (fst x)))%nat)
         ms ->
  (length (concat (map (replaced fn) ms)) <= length (concat (map matched ms)))%nat.
Proof.
  induction 1 as [ | [[before m] g] ms H _ IH ]; [ reflexivity | ].
  cbn [map concat replaced matched]. cbn [fst snd] in H.
  rewrite !length_app. lia.
Qed.

Lemma replaced_shorter fn ms :
  Forall (fun x => (length (fn (snd (fst x)) (snd x)) < length (snd (fst x)))%nat)
         ms ->
  ms = []
  \/ (length (concat (map (replaced fn) ms)) < length (concat (map matched ms)))%nat.
Proof.
  intros H. destruct H as [ | [[before m] g] ms H Hms ]; [ left; reflexivity | ].
  right. cbn [map concat replaced matched]. cbn [fst snd] in H.
  assert (Hle : (length (concat (map (replaced fn) ms))
                 <= length (concat (map matched ms)))%nat).
  { apply replaced_not_longer. eapply List.Forall_impl; [ | exact Hms ].
    cbn. intros x Hx. lia. }
  rewrite !length_app. lia.
Qed.

(** A replacement by texts of the length of the matches keeps the
    length. *)
Lemma replace_with_same_length f r fn s :
  (forall p s' m g,
     match_here f r p s' = Some (m, g) -> length (fn m g) = length m) ->
  length (replace_with f r fn s) = length s.
Proof.
  intros H. rewrite replace_with_replaced.
  rewrite <- (matches_partition f r s) at 3.
  rewrite !length_app. f_equal. apply replaced_same_length.
  apply (matches_are_matches f r (fun m g => length (fn m g) = length m)).
  exact H.
Qed.

(** A function on texts that shortens its argument or returns it as
    it is. *)
Definition shrinks (h : jstr -> jstr) : Prop :=
  forall s, h s = s \/ (length (h s) < length s)%nat.

Lemma shrinks_compose h1 h2 :
  shrinks h1 -> shrinks h2 -> shrinks (fun s => h2 (h1 s)).
Proof.
  intros H1 H2 s. destruct (H1 s) as [ E1 | L1 ].
  - rewrite E1. apply H2.
  - right. destruct (H2 (h1 s)) as [ E2 | L2 ]; [ rewrite E2; exact L1 | lia ].
Qed.

(** A replacement by shorter texts shortens the text, or there is no
    match and the text is unchanged. *)
Lemma replace_with_shorter f r fn s :
  (forall p s' m g,
     match_here f r p s' = Some (m, g) -> (length (fn m g) < length m)%nat) ->
  (fst (matches f r s) = [] /\ replace_with f r fn s = s)
  \/ (length (replace_with f r fn s) < length s)%nat.
Proof.
  intros H. rewrite replace_with_replaced.
  pose proof (matches_partition f r s) as Hs.
  pose proof (matches_are_matches f r
                (fun m g => (length (fn m g) < length m)%nat) s H) as Hms.
  apply replaced_shorter in Hms. destruct Hms as [ Hnil | Hlt ].
  - left. split; [ exact Hnil | ]. rewrite Hnil in *. exact Hs.
  - right. rewrite <- Hs at 3. rewrite !length_app. lia.
Qed.

(** The replacement of the matches of a pattern by a text that is
    shorter than every match. *)
Lemma replace_text_shrinks f r (t : string) :
  (length (lit t) < min_len r)%nat -> shrinks (replace f r [T t]).
Proof.
  intros H s. unfold replace.
  destruct (replace_with_shorter f r (fun _ g => expand [T t] g) s) as [[_ E] | L];
    [ | left; exact E | right; exact L ].
  intros p s' m g Hm. apply match_here_length in Hm.
  cbn [expand map concat]. rewrite app_nil_r. lia.
Qed.

Lemma remove_shrinks f r :
  (0 < min_len r)%nat -> shrinks (replace f r []).
Proof.
  intros H s. unfold replace.
  destruct (replace_with_shorter f r (fun _ g => expand [] g) s) as [[_ E] | L];
    [ | left; exact E | right; exact L ].
  intros p s' m g Hm. apply match_here_length in Hm.
  cbn [expand map concat length]. lia.
Qed.

Lemma trimStart_shrinks : shrinks trimStart.
Proof.
  intros s. destruct (trimStart_suffix s) as [w Hw].
  destruct w as [ | c w ]; [ left; symmetry; exact Hw | right ].
  rewrite Hw at 2. rewrite length_app. cbn [length]. lia.
Qed.

Lemma trim_shrinks : shrinks trim.
Proof.
  intros s. unfold trim, trimEnd.
  destruct (trimStart_shrinks s) as [ E1 | L1 ];
    destruct (trimStart_shrinks (rev (trimStart s))) as [ E2 | L2 ].
  - left. rewrite E2, rev_involutive. exact E1.
  - right. rewrite length_rev. rewrite length_rev in L2. rewrite E1 in L2 at 2.
    exact L2.
  - right. rewrite E2, rev_involutive. exact L1.
  - right. rewrite length_rev. rewrite length_rev in L2. lia.
Qed.

(** *** Stages of a tier *)

(** What a stage that runs [h] and pushes [op] when the text got
    shorter does to the text and to the log. *)
Definition stage_outcome (s out : jstr) (ops log : list Entry) : Prop :=
  (out = s /\ log = ops)
  \/ ((length out < length s)%nat /\ exists new, new <> [] /\ log = ops ++ new).

Lemma stage_idle s ops : stage_outcome s s ops ops.
Proof. left. split; reflexivity. Qed.

Lemma stage_shrinks h op s ops :
  shrinks h ->
  stage_outcome s (h s) ops (push_if_shorter (length s) (h s) op ops).
Proof.
  intros H. unfold push_if_shorter. destruct (H s) as [ E | L ].
  - left. rewrite E, Nat.ltb_irrefl. split; reflexivity.
  - right. split; [ exact L | ].
    apply Nat.ltb_lt in L. rewrite L. eexists. split; [ | reflexivity ].
    discriminate.
Qed.

Lemma stage_outcome_trans s1 s2 s3 ops1 ops2 ops3 :
  stage_outcome s1 s2 ops1 ops2 -> stage_outcome s2 s3 ops2 ops3 ->
  stage_outcome s1 s3 ops1 ops3.
Proof.
  intros [[-> ->] | [L1 [n1 [Hn1 ->]]]] [[-> ->] | [L2 [n2 [Hn2 ->]]]].
  - left. split; reflexivity.
  - right. split; [ exact L2 | ]. exists n2. split; [ exact Hn2 | reflexivity ].
  - right. split; [ exact L1 | ]. exists n1. split; [ exact Hn1 | reflexivity ].
  - right. split; [ lia | ]. exists (n1 ++ n2). split.
    + destruct n1; [ contradiction | discriminate ].
    + rewrite app_assoc. reflexivity.
Qed.

Lemma stage_outcome_log s out ops log :
  stage_outcome s out ops log ->
  (length out <= length s)%nat /\ (log = ops <-> out = s).
Proof.
  intros [[-> ->] | [L [new [Hnew ->]]]].
  - split; [ lia | ]. split; reflexivity.
  - split; [ lia | ]. split.
    + intros H. exfalso. apply Hnew.
      apply (app_inv_head ops). rewrite app_nil_r. exact H.
    + intros H. rewrite H in L. lia.
Qed.

(** *** The minimal tiers of the markup engines *)

Lemma html_minimal_outcome html ops customOptions :
  stage_outcome html (fst (HTML.applyMinimalHTMLCompression html ops customOptions))
                ops (snd (HTML.applyMinimalHTMLCompression html ops customOptions)).
Proof.
  unfold HTML.applyMinimalHTMLCompression. cbv zeta.
  destruct (opt_not_false customOptions "removeComments"); cbn [fst snd].
  - eapply stage_outcome_trans.
    + apply (stage_shrinks (replace flags_g HTML.re_comment [])).
      apply remove_shrinks. vm_compute. lia.
    + apply (stage_shrinks
               (fun s => trim (replace flags_g HTML.re_spaces [T " "]
                                 (replace flags_g HTML.re_between_tags [T "><"] s)))).
      apply (shrinks_compose _ trim); [ | apply trim_shrinks ].
      apply (shrinks_compose (replace flags_g HTML.re_between_tags [T "><"])
                             (replace flags_g HTML.re_spaces [T " "]));
        apply replace_text_shrinks; vm_compute; lia.
  - apply (stage_shrinks
             (fun s => trim (replace flags_g HTML.re_spaces [T " "]
                               (replace flags_g HTML.re_between_tags [T "><"] s)))).
    apply (shrinks_compose _ trim); [ | apply trim_shrinks ].
    apply (shrinks_compose (replace flags_g HTML.re_between_tags [T "><"])
                           (replace flags_g HTML.re_spaces [T " "]));
      apply replace_text_shrinks; vm_compute; lia.
Qed.

(** X14.  The minimal tier of the HTML engine never lengthens the document,
    and it adds an entry to the log exactly when it changes the document. *)
Theorem html_minimal_tier_logs_every_change html ops customOptions :
  let out := fst (HTML.applyMinimalHTMLCompression html ops customOptions) in
  let log := snd (HTML.applyMinimalHTMLCompression html ops customOptions) in
  (length out <= length html)%nat /\ (log = ops <-> out = html).
Proof. cbv zeta. apply stage_outcome_log. apply html_minimal_outcome. Qed.

Lemma xml_minimal_outcome xml ops customOptions :
  stage_outcome xml (fst (XML.applyMinimalXMLCompression xml ops customOptions))
                ops (snd (XML.applyMinimalXMLCompression xml ops customOptions)).
Proof.
  unfold XML.applyMinimalXMLCompression. cbv zeta.
  pose (ws := fun s => trim (replace flags_g XML.re_spaces [T " "]
                               (replace flags_g XML.re_between_tags [T "><"] s))).
  assert (Hws : shrinks ws).
  { apply (shrinks_compose _ trim); [ | apply trim_shrinks ].
    apply (shrinks_compose (replace flags_g XML.re_between_tags [T "><"])
                           (replace flags_g XML.re_spaces [T " "]));
      apply replace_text_shrinks; vm_compute; lia. }
  assert (Hc : shrinks (replace flags_g XML.re_comment [])).
  { apply remove_shrinks. vm_compute. lia. }
  destruct (opt_not_false customOptions "removeComments");
    destruct (opt_not_false customOptions "removeWhitespace"); cbn [fst snd].
  - eapply stage_outcome_trans.
    + apply (stage_shrinks (replace flags_g XML.re_comment [])). exact Hc.
    + apply (stage_shrinks ws). exact Hws.
  - apply (stage_shrinks (replace flags_g XML.re_comment [])). exact Hc.
  - apply (stage_shrinks ws). exact Hws.
  - apply stage_idle.
Qed.

(** X15.  The minimal tier of the XML engine never lengthens the document,
    and it adds an entry to the log exactly when it changes the document. *)
Theorem xml_minimal_tier_logs_every_change xml ops customOptions :
  let out := fst (XML.applyMinimalXMLCompression xml ops customOptions) in
  let log := snd (XML.applyMinimalXMLCompression xml ops customOptions) in
  (length out <= length xml)%nat /\ (log = ops <-> out = xml).
Proof. cbv zeta. apply stage_outcome_log. apply xml_minimal_outcome. Qed.

Lemma yaml_minimal_outcome yaml ops customOptions :
  stage_outcome yaml (fst (YAML.applyMinimalYAMLCompression yaml ops customOptions))
                ops (snd (YAML.applyMinimalYAMLCompression yaml ops customOptions)).
Proof.
  unfold YAML.applyMinimalYAMLCompression. cbv zeta.
  assert (Hc : shrinks (replace flags_gm YAML.re_comment [])).
  { apply remove_shrinks. vm_compute. lia. }
  assert (Hb : shrinks (replace_with flags_g YAML.re_blank_lines
                                     (fun _ _ => [10; 10]))).
  { intros s.
    destruct (replace_with_shorter flags_g YAML.re_blank_lines
                (fun _ _ => [10; 10]) s) as [[_ E] | L];
      [ | left; exact E | right; exact L ].
    intros p s' m g Hm. apply match_here_length in Hm.
    destruct Hm as [Hm _].
    change (min_len YAML.re_blank_lines) with 3%nat in Hm. cbn [length]. lia. }
  assert (Ht : shrinks (replace flags_gm YAML.re_trailing [])).
  { apply remove_shrinks. vm_compute. lia. }
  destruct (opt_not_false customOptions "removeComments"); cbn [fst snd].
  - eapply stage_outcome_trans;
      [ apply (stage_shrinks (replace flags_gm YAML.re_comment [])); exact Hc | ].
    eapply stage_outcome_trans;
      [ apply (stage_shrinks (replace_with flags_g YAML.re_blank_lines
                                           (fun _ _ => [10; 10]))); exact Hb | ].
    apply (stage_shrinks (replace flags_gm YAML.re_trailing [])). exact Ht.
  - eapply stage_outcome_trans;
      [ apply (stage_shrinks (replace_with flags_g YAML.re_blank_lines
                                           (fun _ _ => [10; 10]))); exact Hb | ].
    apply (stage_shrinks (replace flags_gm YAML.re_trailing [])). exact Ht.
Qed.

(** X16.  The minimal tier of the YAML engine never lengthens the document,
    and it adds an entry to the log exactly when it changes the document. *)
Theorem yaml_minimal_tier_logs_every_change yaml ops customOptions :
  let out := fst (YAML.applyMinimalYAMLCompression yaml ops customOptions) in
  let log := snd (YAML.applyMinimalYAMLCompression yaml ops customOptions) in
  (length out <= length yaml)%nat /\ (log = ops <-> out = yaml).
Proof. cbv zeta. apply stage_outcome_log. apply yaml_minimal_outcome. Qed.

(** *** Empty elements *)

Lemma remove_empty_loop_done n :
  forall c, (length c < n)%nat ->
            fst (matches flags_g XML.re_empty_element (XML.remove_empty_loop n c)) = [].
Proof.
  induction n as [ | n IH ]; intros c Hn; [ lia | ].
  cbn [XML.remove_empty_loop]. cbv zeta. unfold replace.
  destruct (replace_with_shorter flags_g XML.re_empty_element
              (fun _ g => expand [] g) c) as [[Hnone E] | L].
  - intros p s' m g Hm. apply match_here_length in Hm.
    destruct Hm as [Hm _].
    change (min_len XML.re_empty_element) with 6%nat in Hm.
    cbn [expand map concat length]. lia.
  - rewrite E, Nat.ltb_irrefl. exact Hnone.
  - pose proof L as L'. apply Nat.ltb_lt in L'. rewrite L'. apply IH. lia.
Qed.

(** X17.  The loop that removes empty elements ends with a document that
    holds no empty element, and this document is not longer. *)
Theorem remove_empty_loop_leaves_no_empty_element compressed :
  let out := XML.remove_empty_loop (S (length compressed)) compressed in
  count_matches flags_g XML.re_empty_element out = 0%nat
  /\ replace flags_g XML.re_empty_element [] out = out
  /\ (length out <= length compressed)%nat.
Proof.
  cbv zeta.
  assert (Hnone : fst (matches flags_g XML.re_empty_element
                         (XML.remove_empty_loop (S (length compressed)) compressed))
                  = []).
  { apply remove_empty_loop_done. lia. }
  split; [ unfold count_matches; rewrite Hnone; reflexivity | ].
  split.
  - unfold replace. rewrite replace_with_replaced, Hnone.
    pose proof (matches_partition flags_g XML.re_empty_element
                  (XML.remove_empty_loop (S (length compressed)) compressed)) as Hp.
    rewrite Hnone in Hp. exact Hp.
  - clear Hnone. generalize (S (length compressed)). intros n. revert compressed.
    induction n as [ | n IH ]; intros c; [ reflexivity | ].
    cbn [XML.remove_empty_loop]. cbv zeta.
    destruct (length (replace flags_g XML.re_empty_element [] c) <? length c)%nat
      eqn:E.
    + apply Nat.ltb_lt in E. specialize (IH (replace flags_g XML.re_empty_element [] c)).
      lia.
    + apply Nat.ltb_ge in E.
      destruct (remove_shrinks flags_g XML.re_empty_element) with (s := c)
        as [ E' | L ]; [ vm_compute; lia | rewrite E'; lia | lia ].
Qed.


(** *** The keywords of the SQL engine *)

(** A keyword whose pattern matches texts of the length of its lower
    case only. *)
Definition keeps_length (keyword : string) : bool :=
  (min_len (SQL.re_whole_word (lit keyword))
   =? length (toLowerCase (lit keyword)))%nat
  && match max_len (SQL.re_whole_word (lit keyword)) with
     | Some M => (M =? length (toLowerCase (lit keyword)))%nat
     | None => false
     end.

Lemma keyword_pass_length (l : list string) :
  forallb keeps_length l = true ->
  forall c,
    length (fold_left
              (fun compressed keyword =>
                 replace_with flags_gi (SQL.re_whole_word (lit keyword))
                   (fun _ _ => toLowerCase (lit keyword)) compressed)
              l c)
    = length c.
Proof.
  induction l as [ | kw l IH ]; intros H c; [ reflexivity | ].
  cbn [forallb] in H. apply andb_prop in H. destruct H as [Hkw Hl].
  cbn [fold_left]. rewrite (IH Hl). apply replace_with_same_length.
  intros p s' m g Hm. apply match_here_length in Hm. destruct Hm as [Hmin Hmax].
  unfold keeps_length in Hkw. apply andb_prop in Hkw. destruct Hkw as [H1 H2].
  apply Nat.eqb_eq in H1.
  destruct (max_len (SQL.re_whole_word (lit kw))) as [M | ]; [ | discriminate ].
  apply Nat.eqb_eq in H2. specialize (Hmax M eq_refl). lia.
Qed.

Lemma push_if_shorter_same before after op ops :
  length after = before -> push_if_shorter before after op ops = ops.
Proof.
  intros <-. unfold push_if_shorter. rewrite Nat.ltb_irrefl. reflexivity.
Qed.

(** An entry of another type than [lowercase_keywords]. *)
Definition other_type (e : Entry) : Prop :=
  has_type "lowercase_keywords" (fst e) = false.

Lemma push_other (ops : list Entry) (e : Entry) :
  Forall other_type ops -> other_type e -> Forall other_type (ops ++ [e]).
Proof.
  intros H He. apply Forall_app. split; [ assumption | ].
  constructor; [ assumption | constructor ].
Qed.

Lemma push_if_shorter_other before after op ops :
  has_type "lowercase_keywords" op = false ->
  Forall other_type ops -> Forall other_type (push_if_shorter before after op ops).
Proof.
  intros Hop H. unfold push_if_shorter.
  destruct (length after <? before)%nat; [ | assumption ].
  apply push_other; [ assumption | exact Hop ].
Qed.

Ltac close_other :=
  cbn [fst snd];
  repeat first
    [ assumption
    | apply push_if_shorter_other; [ reflexivity | ]
    | apply push_other; [ | reflexivity ] ].

Ltac stage_other :=
  match goal with
  | |- context [let '(_, _) := ?x in _] =>
      lazymatch x with
      | (let '(_, _) := _ in _) => fail
      | _ =>
          let H := fresh "Hst" in
          assert (H : Forall other_type (snd x));
          [ split_tier; close_other
          | destruct x as [? ?]; cbn [snd] in H ]
      end
  end.

Ltac staged_other := cbv zeta; repeat stage_other; split_tier; close_other.

Lemma sql_minimal_other sql ops o :
  Forall other_type ops ->
  Forall other_type (snd (SQL.applyMinimalSQLCompression sql ops o)).
Proof.
  intros H. unfold SQL.applyMinimalSQLCompression. split_tier; close_other.
Qed.

Lemma sql_moderate_other sql ops o :
  Forall other_type ops ->
  Forall other_type (snd (SQL.applyModerateSQLCompression sql ops o)).
Proof.
  intros H. unfold SQL.applyModerateSQLCompression.
  pose proof (sql_minimal_other sql ops o H) as Hm.
  destruct (SQL.applyMinimalSQLCompression sql ops o) as [m ops'].
  cbn [snd] in Hm. cbv zeta.
  rewrite (push_if_shorter_same (length m))
    by (apply keyword_pass_length; vm_compute; reflexivity).
  staged_other.
Qed.

Lemma sql_aggressive_other sql ops o :
  Forall other_type ops ->
  Forall other_type (snd (SQL.applyAggressiveSQLCompression sql ops o)).
Proof.
  intros H. unfold SQL.applyAggressiveSQLCompression.
  pose proof (sql_moderate_other sql ops o H) as Hm.
  destruct (SQL.applyModerateSQLCompression sql ops o) as [m ops'].
  cbn [snd] in Hm. staged_other.
Qed.

(** X18.  The SQL engine replaces every keyword by a text of the same
    length, so the length test after this pass fails and no log of the
    engine holds an entry of the type [lowercase_keywords]. *)
Theorem sql_never_logs_lowercase_keywords sql lossLevel customOptions r :
  SQL.compressSQL sql lossLevel customOptions = inr r ->
  Forall (fun e => has_type "lowercase_keywords" (fst e) = false) (log r).
Proof.
  unfold SQL.compressSQL, CSS.by_level. cbv zeta.
  pose proof (sql_minimal_other sql [] customOptions (List.Forall_nil _)) as H1.
  pose proof (sql_moderate_other sql [] customOptions (List.Forall_nil _)) as H2.
  pose proof (sql_aggressive_other sql [] customOptions (List.Forall_nil _)) as H3.
  destruct (SQL.applyMinimalSQLCompression sql [] customOptions) as [c1 l1].
  destruct (SQL.applyModerateSQLCompression sql [] customOptions) as [c2 l2].
  destruct (SQL.applyAggressiveSQLCompression sql [] customOptions) as [c3 l3].
  cbn [snd] in *.
  repeat match goal with
         | |- context [if ?b then _ else _] => destruct b
         end;
    intros E; try discriminate; injection E as <-; cbn [log]; assumption.
Qed.

Lemma sql_never_logs_lowercase_keywords_witness :
  exists r,
    SQL.compressSQL (lit "SELECT  a FROM t  WHERE a IS NOT NULL;") "moderate" ∅
    = inr r
    /\ Forall (fun e => has_type "lowercase_keywords" (fst e) = false) (log r).
Proof.
  destruct (SQL.compressSQL (lit "SELECT  a FROM t  WHERE a IS NOT NULL;")
                            "moderate" ∅) as [ e | r ] eqn:E;
    [ vm_compute in E; discriminate E | ].
  exists r. split; [ reflexivity | ].
  exact (sql_never_logs_lowercase_keywords _ _ _ _ E).
Defined.

End Invariants.

(** * Entries of the log and removed content *)

Module Discipline.
Import CSV JSON Preview Regex Properties Invariants.

(** ** Captures are parts of the match *)










(** ** Rewrites that do not lengthen the text *)







(** ** Entries and removed content *)

















(** ** The minimal tier of the CSV engine *)












(** ** The minimal tier of the JSON engine *)










(** ** The engines at the level [minimal] *)




(** ** Above the minimal tier *)






End Discipline.
